(** * money-sanitizer: a shallow embedding of [sanitize-ofx.py]

    The development follows the layout of the Python module: the text
    normalisation primitives ([_ascii], [_sanitize_date],
    [_sanitize_amount], [_trim]), the QIF engine ([_format_qif_record],
    [sanitize_qif]), the OFX enrichment steps ([_ensure_balances],
    [_ensure_fi_info]) and the SGML serialiser ([_sanitize_ofx_value],
    [_ofx_element_to_sgml]).

    Python values are modelled as follows.
    - A [str] is a list of Unicode code points ([N]).
    - [logging] calls append to a list of [warning]s and a raised exception
      ends the computation: both are threaded by the monad [M].
    - A [float] is an IEEE 754 binary64 value, [spec_float] of the Standard
      Library, with round-to-nearest-even arithmetic.
    - An [xml.etree.ElementTree.Element] is a finite tree; a reference to a
      node is the path of child indices that leads to it.
    - The Unicode Character Database consulted by [unicodedata.normalize],
      [str.upper], [int] and [float] is a parameter, [UnicodeData]. *)

From Stdlib Require Import ZArith NArith Lia SpecFloat DecimalPos.
From Stdlib Require Import Ascii String.
From stdpp Require Import base option list gmap.

Open Scope N_scope.

(** ** Strings *)

Abbreviation char := N (only parsing).
Abbreviation str := (list N) (only parsing).

(** The code point of an ASCII character, and the [str] of an ASCII literal. *)
Definition ch (a : ascii) : N := N_of_ascii a.
Arguments ch a%_char.

Definition py (s : string) : list N := ch <$> list_ascii_of_string s.
Arguments py s%_string.
Arguments ch : simpl never.
Arguments py : simpl never.

Definition is_ascii (c : N) : bool := c <? 128.

(** [str.isspace] on one code point, which is also what [\s] matches in a
    [str] pattern and what [str.strip()] removes. *)
Definition isspace (c : N) : bool :=
  ((9 <=? c) && (c <=? 13)) || ((28 <=? c) && (c <=? 32))
  || (c =? 0x85) || (c =? 0xA0) || (c =? 0x1680)
  || ((0x2000 <=? c) && (c <=? 0x200A))
  || (c =? 0x2028) || (c =? 0x2029) || (c =? 0x202F) || (c =? 0x205F)
  || (c =? 0x3000).

Fixpoint drop_while (p : N → bool) (s : list N) : list N :=
  match s with
  | c :: s' => if p c then drop_while p s' else s
  | [] => []
  end.

Definition lstrip (s : list N) : list N := drop_while isspace s.

Definition rstrip (s : list N) : list N := reverse (drop_while isspace (reverse s)).

(** [s.strip()] *)
Definition strip (s : list N) : list N := rstrip (lstrip s).

Fixpoint startswith (p s : list N) : bool :=
  match p, s with
  | [], _ => true
  | a :: p', b :: s' => (a =? b) && startswith p' s'
  | _ :: _, [] => false
  end.

(** [s.replace(old, new)]: the non-overlapping occurrences of [old], found
    from the left.  [skip] counts the characters of an occurrence that are
    still to be passed over. *)
Fixpoint replace_from (old new s : list N) (skip : nat) : list N :=
  match s with
  | [] => []
  | c :: s' =>
      match skip with
      | S k => replace_from old new s' k
      | O =>
          if startswith old s
          then new ++ replace_from old new s' (length old - 1)
          else c :: replace_from old new s' 0
      end
  end.

Definition replace (old new s : list N) : list N :=
  match old with
  | [] => new ++ flat_map (λ c, c :: new) s
  | _ :: _ => replace_from old new s 0
  end.

(** [s.split(sep)] for a separator of one character. *)
Fixpoint split (sep : N) (s : list N) : list (list N) :=
  match s with
  | [] => [[]]
  | c :: s' =>
      if c =? sep then [] :: split sep s'
      else match split sep s' with
           | l :: ls => (c :: l) :: ls
           | [] => [[c]]
           end
  end.

(** [s.split(sep, 1)]: at most one cut, at the first separator. *)
Fixpoint split1 (sep : N) (s : list N) : list (list N) :=
  match s with
  | [] => [[]]
  | c :: s' =>
      if c =? sep then [[]; s']
      else match split1 sep s' with
           | l :: ls => (c :: l) :: ls
           | [] => [[c]]
           end
  end.

(** [sep.join(parts)] *)
Fixpoint join (sep : list N) (parts : list (list N)) : list N :=
  match parts with
  | [] => []
  | [p] => p
  | p :: ps => p ++ sep ++ join sep ps
  end.

(** [re.sub(r"\s+", " ", s)]: every maximal run of whitespace becomes one
    space.  [in_run] tells that the previous character was whitespace. *)
Fixpoint collapse_ws (in_run : bool) (s : list N) : list N :=
  match s with
  | [] => []
  | c :: s' =>
      if isspace c
      then (if in_run then collapse_ws true s' else 32 :: collapse_ws true s')
      else c :: collapse_ws false s'
  end.

(** ** The Unicode Character Database

    The tables of the interpreter's [unicodedata] are not part of the
    repository.  They are consulted for code points from U+0080 on only:
    on ASCII the functions below are written out. *)
Class UnicodeData := {
  (** full compatibility decomposition of a code point *)
  uc_decompose : N → list N;
  (** canonical combining class *)
  uc_combining : N → N;
  (** value of a decimal digit (general category Nd) *)
  uc_decimal : N → option N;
  (** full upper-case mapping *)
  uc_upper : N → list N;
}.

Section Unicode.
Context {ucd : UnicodeData}.

Definition decompose (c : N) : list N :=
  if is_ascii c then [c] else uc_decompose c.

Definition combining (c : N) : N :=
  if is_ascii c then 0 else uc_combining c.

(** Canonical ordering: a mark moves left past the marks of a higher
    class, and never past a starter (class 0).  [placed] holds the
    characters already ordered, last one first. *)
Fixpoint sink (c : N) (placed : list N) : list N :=
  match placed with
  | p :: ps =>
      if (combining p =? 0) || (combining p <=? combining c)
      then c :: placed
      else p :: sink c ps
  | [] => [c]
  end.

Definition canonical_order (s : list N) : list N :=
  reverse (foldl (λ placed c, if combining c =? 0 then c :: placed else sink c placed) [] s).

(** [unicodedata.normalize("NFKD", s)] *)
Definition normalize_NFKD (s : list N) : list N :=
  canonical_order (flat_map decompose s).

(** [s.encode("ascii", "ignore").decode("ascii", "ignore")] *)
Definition encode_ascii_ignore (s : list N) : list N := filter (λ c, is_ascii c = true) s.

(** Decimal value of a digit, as [int], [float] and [\d] see it. *)
Definition decimal (c : N) : option N :=
  if is_ascii c then (if (48 <=? c) && (c <=? 57) then Some (c - 48) else None)
  else uc_decimal c.

Definition upper_char (c : N) : list N :=
  if is_ascii c then (if (97 <=? c) && (c <=? 122) then [c - 32] else [c])
  else uc_upper c.

(** [s.upper()] *)
Definition upper (s : list N) : list N := flat_map upper_char s.

(** *** [_ascii] *)
Definition _ascii (text : list N) : list N :=
  let normalized := normalize_NFKD text in
  let cleaned := encode_ascii_ignore normalized in
  let cleaned := replace [10] [32] (replace [13] [32] cleaned) in
  let cleaned := replace [ch "^"] [32] cleaned in
  let cleaned := strip (collapse_ws false cleaned) in
  cleaned.
End Unicode.

(** An excerpt of the database: the Latin-1 Supplement rows (U+0080 to
    U+00FF), the combining marks their decompositions use, and the
    Arabic-Indic digits.  Code points outside the excerpt are left alone. *)
Module Excerpt.
Definition decompositions : list (N * list N) :=
  [(160, [32]); (168, [32; 776]); (170, [97]); (175, [32; 772]); (178, [50]);
   (179, [51]); (180, [32; 769]); (181, [956]); (184, [32; 807]); (185, [49]);
   (186, [111]); (188, [49; 8260; 52]); (189, [49; 8260; 50]);
   (190, [51; 8260; 52]); (192, [65; 768]); (193, [65; 769]); (194, [65; 770]);
   (195, [65; 771]); (196, [65; 776]); (197, [65; 778]); (199, [67; 807]);
   (200, [69; 768]); (201, [69; 769]); (202, [69; 770]); (203, [69; 776]);
   (204, [73; 768]); (205, [73; 769]); (206, [73; 770]); (207, [73; 776]);
   (209, [78; 771]); (210, [79; 768]); (211, [79; 769]); (212, [79; 770]);
   (213, [79; 771]); (214, [79; 776]); (217, [85; 768]); (218, [85; 769]);
   (219, [85; 770]); (220, [85; 776]); (221, [89; 769]); (224, [97; 768]);
   (225, [97; 769]); (226, [97; 770]); (227, [97; 771]); (228, [97; 776]);
   (229, [97; 778]); (231, [99; 807]); (232, [101; 768]); (233, [101; 769]);
   (234, [101; 770]); (235, [101; 776]); (236, [105; 768]); (237, [105; 769]);
   (238, [105; 770]); (239, [105; 776]); (241, [110; 771]); (242, [111; 768]);
   (243, [111; 769]); (244, [111; 770]); (245, [111; 771]); (246, [111; 776]);
   (249, [117; 768]); (250, [117; 769]); (251, [117; 770]); (252, [117; 776]);
   (253, [121; 769]); (255, [121; 776])].

Definition uppers : list (N * list N) :=
  [(181, [924]); (223, [83; 83]); (247, [247]); (255, [376])].

Fixpoint assoc (k : N) (table : list (N * list N)) : option (list N) :=
  match table with
  | (k', v) :: table' => if k =? k' then Some v else assoc k table'
  | [] => None
  end.

Definition latin1 : UnicodeData := {|
  uc_decompose c := default [c] (assoc c decompositions);
  uc_combining c :=
    if (768 <=? c) && (c <=? 788) then 230
    else if c =? 807 then 202 else 0;
  uc_decimal c :=
    if (0x660 <=? c) && (c <=? 0x669) then Some (c - 0x660) else None;
  uc_upper c :=
    match assoc c uppers with
    | Some u => u
    | None => if (224 <=? c) && (c <=? 254) then [c - 32] else [c]
    end;
|}.
End Excerpt.

(** ** Diagnostics and exceptions

    [_LOG.warning(...)] appends a [warning]; [raise] ends the computation
    and keeps what was logged before it. *)
Inductive warning :=
| Unrecognized_date (raw : list N)
| Amount_needed_coercion (raw : list N)
| Truncating_field (text : list N) (limit : nat)
| Dropping_unsupported_tag (tag : N)
| Record_missing_date
| Record_missing_amount
| Empty_record
| No_type_header
| Date_like_tag_unexpected (tag raw : list N).

Inductive exn := ValueError | IndexError.

Inductive outcome (A : Type) :=
| Ok (a : A)
| Raise (e : exn).
Arguments Ok {A} a.
Arguments Raise {A} e.

Record M (A : Type) := Run { log : list warning; result : outcome A }.
Arguments Run {A} log result.
Arguments log {A} m.
Arguments result {A} m.

#[export] Instance M_ret : MRet M := λ A a, Run [] (Ok a).

#[export] Instance M_bind : MBind M := λ A B f m,
  match result m with
  | Ok a => Run (log m ++ log (f a)) (result (f a))
  | Raise e => Run (log m) (Raise e)
  end.

Definition warn (w : warning) : M () := Run [w] (Ok ()).

Definition raise {A} (e : exn) : M A := Run [] (Raise e).

(** [try: m except ValueError: handler] *)
Definition try_except_ValueError {A} (m : M A) (handler : M A) : M A :=
  match result m with
  | Raise ValueError => Run (log m ++ log handler) (result handler)
  | _ => m
  end.

(** [for x in xs: s = body(x, s)] *)
Fixpoint for_in {A S : Type} (xs : list A) (body : A → S → M S) (s : S) : M S :=
  match xs with
  | [] => mret s
  | x :: xs' => s' ← body x s; for_in xs' body s'
  end.

(** ** [datetime.strptime] and [strftime]

    [_strptime] turns a format into a regular expression, takes the first
    match of it at the start of the text (Python's backtracking order) and
    refuses text it leaves unconverted.  [rx] has the constructs its
    expressions for [%m], [%d], [%Y] and [%y] use. *)
Inductive rx :=
| Lit (c : N)
| Cls (lo hi : N)
| AnyDigit
| Eps
| Cat (r1 r2 : rx)
| Alt (r1 r2 : rx)
| Grp (name : N) (r : rx).

Record rx_match := Found {
  consumed : list N;
  groups : list (N * list N);
  rest : list N;
}.

Section Dates.
Context {ucd : UnicodeData}.

(** All the ways [r] matches at the start of [s], the preferred one first. *)
Fixpoint rx_matches (r : rx) (s : list N) : list rx_match :=
  match r with
  | Lit c =>
      match s with
      | c' :: s' => if c' =? c then [Found [c'] [] s'] else []
      | [] => []
      end
  | Cls lo hi =>
      match s with
      | c' :: s' => if (lo <=? c') && (c' <=? hi) then [Found [c'] [] s'] else []
      | [] => []
      end
  | AnyDigit =>
      match s with
      | c' :: s' => if decimal c' is Some _ then [Found [c'] [] s'] else []
      | [] => []
      end
  | Eps => [Found [] [] s]
  | Cat r1 r2 =>
      m1 ← rx_matches r1 s;
      m2 ← rx_matches r2 (rest m1);
      [Found (consumed m1 ++ consumed m2) (groups m1 ++ groups m2) (rest m2)]
  | Alt r1 r2 => rx_matches r1 s ++ rx_matches r2 s
  | Grp name r' =>
      m ← rx_matches r' s;
      [Found (consumed m) (groups m ++ [(name, consumed m)]) (rest m)]
  end.

Definition alts (rs : list rx) : rx :=
  match rs with
  | [] => Cls 1 0
  | r :: rs' => foldl Alt r rs'
  end.

Definition digit_in (lo hi : ascii) : rx := Cls (ch lo) (ch hi).

(** The entries of [TimeRE] for the directives in use. *)
Definition TimeRE (directive : N) : option rx :=
  if directive =? ch "d" then
    (* 3[0-1]|[1-2]\d|0[1-9]|[1-9]| [1-9] *)
    Some (Grp (ch "d") (alts [Cat (Lit (ch "3")) (digit_in "0" "1");
                               Cat (digit_in "1" "2") AnyDigit;
                               Cat (Lit (ch "0")) (digit_in "1" "9");
                               digit_in "1" "9";
                               Cat (Lit 32) (digit_in "1" "9")]))
  else if directive =? ch "m" then
    (* 1[0-2]|0[1-9]|[1-9] *)
    Some (Grp (ch "m") (alts [Cat (Lit (ch "1")) (digit_in "0" "2");
                               Cat (Lit (ch "0")) (digit_in "1" "9");
                               digit_in "1" "9"]))
  else if directive =? ch "y" then
    Some (Grp (ch "y") (Cat AnyDigit AnyDigit))
  else if directive =? ch "Y" then
    Some (Grp (ch "Y") (Cat AnyDigit (Cat AnyDigit (Cat AnyDigit AnyDigit))))
  else None.

(** [TimeRE.pattern(format)]: the expressions of the format's items, in
    order.  [None] is the [ValueError] of a bad directive. *)
Fixpoint pattern (format : list N) : option (list rx) :=
  match format with
  | [] => Some []
  | c :: format' =>
      if c =? ch "%" then
        match format' with
        | d :: format'' => r ← TimeRE d; rs ← pattern format''; Some (r :: rs)
        | [] => None
        end
      else rs ← pattern format'; Some (Lit c :: rs)
  end.

(** [int(s)] on what the groups above capture: decimal digits, with blanks
    around them. *)
Definition int_ (s : list N) : option N :=
  match strip s with
  | [] => None
  | digits => foldl (λ acc c, n ← acc; d ← decimal c; Some (10 * n + d)) (Some 0) digits
  end.

Record date := Date { year : N; month : N; day : N }.

Definition is_leap (y : N) : bool :=
  (y mod 4 =? 0) && (negb (y mod 100 =? 0) || (y mod 400 =? 0)).

Definition days_in_month (y m : N) : N :=
  if m =? 2 then (if is_leap y then 29 else 28)
  else if (m =? 4) || (m =? 6) || (m =? 9) || (m =? 11) then 30
  else 31.

(** The checks of the [datetime] constructor. *)
Definition valid_date (d : date) : bool :=
  (1 <=? year d) && (year d <=? 9999)
  && (1 <=? month d) && (month d <=? 12)
  && (1 <=? day d) && (day d <=? days_in_month (year d) (month d)).

(** One step of the loop over [found_dict]: [None] is the [ValueError] of
    [int]. *)
Definition read_group (acc : option (option N * N * N)) (g : N * list N)
  : option (option N * N * N) :=
  '(y, m, d) ← acc;
  v ← int_ g.2;
  if g.1 =? ch "y" then Some (Some (if v <=? 68 then v + 2000 else v + 1900), m, d)
  else if g.1 =? ch "Y" then Some (Some v, m, d)
  else if g.1 =? ch "m" then Some (y, v, d)
  else if g.1 =? ch "d" then Some (y, m, v)
  else Some (y, m, d).

(** [datetime.datetime.strptime(data, format)]; every failure of it is a
    [ValueError]. *)
Definition strptime (data format : list N) : outcome date :=
  match pattern format with
  | None => Raise ValueError
  | Some items =>
      match rx_matches (foldr Cat Eps items) data with
      | [] => Raise ValueError
      | found :: _ =>
          match rest found with
          | _ :: _ => Raise ValueError
          | [] =>
              match foldl read_group (Some (None, 1, 1)) (groups found) with
              | None => Raise ValueError
              | Some (y, m, d) =>
                  let parsed := Date (default 1900 y) m d in
                  if valid_date parsed then Ok parsed else Raise ValueError
              end
          end
      end
  end.

Definition two_digits (n : N) : list N := [48 + n / 10 mod 10; 48 + n mod 10].

(** [parsed.strftime("%m/%d'%y")] *)
Definition strftime (parsed : date) : list N :=
  two_digits (month parsed) ++ py "/" ++ two_digits (day parsed)
  ++ py "'" ++ two_digits (year parsed mod 100).

(** *** [_sanitize_date] *)
Definition candidates : list (list N) :=
  [py "%m/%d/%Y"; py "%m/%d/%y"; py "%Y-%m-%d"; py "%d/%m/%Y"; py "%d-%m-%Y"].

(** The [for pattern in candidates] loop: the first pattern that parses
    returns; a [ValueError] moves on to the next. *)
Fixpoint first_parse (raw : list N) (patterns : list (list N)) : option (outcome (list N)) :=
  match patterns with
  | [] => None
  | pattern :: patterns' =>
      match strptime (strip raw) pattern with
      | Ok parsed => Some (Ok (strftime parsed))
      | Raise ValueError => first_parse raw patterns'
      | Raise e => Some (Raise e)
      end
  end.

Definition _sanitize_date (raw : list N) : M (list N) :=
  match first_parse raw candidates with
  | Some r => Run [] r
  | None => warn (Unrecognized_date raw);; mret (strip raw)
  end.
End Dates.

(** ** [float]

    A [float] is a binary64 number.  [float(s)] reads a decimal numeral and
    rounds it to the nearest double, ties to even; [format(x, ".2f")] rounds
    the exact value of the double to two decimals, ties to even. *)
Definition prec : Z := 53.
Definition emax : Z := 1024.

Definition is_digit (c : N) : bool := (48 <=? c) && (c <=? 57).

(** C's [Py_ISSPACE] *)
Definition Py_ISSPACE (c : N) : bool := ((9 <=? c) && (c <=? 13)) || (c =? 32).

Fixpoint span_digits (s : list N) : list N * list N :=
  match s with
  | c :: s' =>
      if is_digit c then let '(ds, r) := span_digits s' in (c :: ds, r) else ([], s)
  | [] => ([], [])
  end.

Definition digits_value (ds : list N) : N :=
  foldl (λ n c, 10 * n + (c - 48)) 0 ds.

(** [_Py_string_to_number_with_underscores]: an underscore is allowed
    between two digits only.  [prev] is the previous character. *)
Fixpoint without_underscores (prev : N) (s : list N) : option (list N) :=
  match s with
  | [] => if prev =? ch "_" then None else Some []
  | c :: s' =>
      if c =? ch "_" then
        (if is_digit prev then without_underscores c s' else None)
      else if (prev =? ch "_") && negb (is_digit c) then None
      else cons c <$> without_underscores c s'
  end.

Definition read_sign (s : list N) : bool * list N :=
  match s with
  | c :: s' =>
      if c =? ch "-" then (true, s') else if c =? ch "+" then (false, s') else (false, s)
  | [] => (false, s)
  end.

(** The numerals of [strtod]: sign, digits with at most one point and at
    least one digit, and an exponent.  The result is the sign, the digits
    read as one integer [m], and [e] with value [m * 10^e]. *)
Definition parse_decimal (s : list N) : option (bool * N * Z) :=
  let '(neg, s) := read_sign s in
  let '(ip, s) := span_digits s in
  let '(fp, s) := match s with
                  | c :: s' => if c =? ch "." then span_digits s' else ([], s)
                  | [] => ([], s)
                  end in
  match ip ++ fp with
  | [] => None
  | ds =>
      let m := digits_value ds in
      let scale := Z.of_nat (length fp) in
      match s with
      | [] => Some (neg, m, (- scale)%Z)
      | c :: s' =>
          if (c =? ch "e") || (c =? ch "E") then
            let '(eneg, s') := read_sign s' in
            match span_digits s' with
            | ((_ :: _) as ed, []) =>
                let x := Z.of_N (digits_value ed) in
                Some (neg, m, ((if eneg then - x else x) - scale)%Z)
            | _ => None
            end
          else None
      end
  end.

Definition lower_ascii (c : N) : N :=
  if (65 <=? c) && (c <=? 90) then c + 32 else c.

(** [_Py_parse_inf_or_nan] *)
Definition parse_inf_or_nan (s : list N) : option spec_float :=
  let '(neg, s) := read_sign s in
  let name := lower_ascii <$> s in
  if decide (name = py "inf" ∨ name = py "infinity") then Some (S754_infinity neg)
  else if decide (name = py "nan") then Some S754_nan
  else None.

(** The double nearest to [m * 10^e]. *)
Definition round_decimal (neg : bool) (m : N) (e : Z) : spec_float :=
  match m with
  | N0 => S754_zero neg
  | Npos p =>
      if (0 <=? e)%Z then binary_round prec emax neg (p * Z.to_pos (10 ^ e)) 0
      else
        let '(q, e', l) :=
          SFdiv_core_binary prec emax (Zpos p) 0 (10 ^ (- e)) 0 in
        binary_round_aux prec emax neg q e' l
  end.

Section Floats.
Context {ucd : UnicodeData}.

(** [_PyUnicode_TransformDecimalAndSpaceToASCII]: digits of any script
    become ASCII digits and blanks become spaces; the text is cut at the
    first character that is neither, which leaves a question mark. *)
Fixpoint to_ascii_numeral (s : list N) : list N :=
  match s with
  | [] => []
  | c :: s' =>
      if c <? 127 then c :: to_ascii_numeral s'
      else if isspace c then 32 :: to_ascii_numeral s'
      else match decimal c with
           | Some d => (48 + d) :: to_ascii_numeral s'
           | None => [ch "?"]
           end
  end.

(** [float(s)] for a [str]; [None] is its [ValueError]. *)
Definition float_of_str (s : list N) : option spec_float :=
  match drop_while Py_ISSPACE (to_ascii_numeral s) with
  | [] => None
  | s1 =>
      s2 ← without_underscores 0 (reverse (drop_while Py_ISSPACE (reverse s1)));
      match parse_decimal s2 with
      | Some (neg, m, e) => Some (round_decimal neg m e)
      | None => parse_inf_or_nan s2
      end
  end.

Definition float (s : list N) : M spec_float :=
  match float_of_str s with
  | Some x => mret x
  | None => raise ValueError
  end.
End Floats.

Fixpoint uint_chars (d : Decimal.uint) : list N :=
  match d with
  | Decimal.Nil => []
  | Decimal.D0 d' => 48 :: uint_chars d'
  | Decimal.D1 d' => 49 :: uint_chars d'
  | Decimal.D2 d' => 50 :: uint_chars d'
  | Decimal.D3 d' => 51 :: uint_chars d'
  | Decimal.D4 d' => 52 :: uint_chars d'
  | Decimal.D5 d' => 53 :: uint_chars d'
  | Decimal.D6 d' => 54 :: uint_chars d'
  | Decimal.D7 d' => 55 :: uint_chars d'
  | Decimal.D8 d' => 56 :: uint_chars d'
  | Decimal.D9 d' => 57 :: uint_chars d'
  end.

(** [str(n)] for a natural number *)
Definition str_of_N (n : N) : list N := uint_chars (N.to_uint n).

(** [m * 2^e] rounded to an integer, ties to even. *)
Definition round_half_even (m : N) (e : Z) : N :=
  match e with
  | Zneg k =>
      let d := 2 ^ Npos k in
      let q := m / d in
      match 2 * (m mod d) ?= d with
      | Lt => q
      | Gt => q + 1
      | Eq => if N.even q then q else q + 1
      end
  | _ => m * 2 ^ Z.to_N e
  end.

Definition minus_sign (neg : bool) : list N := if neg then py "-" else [].

(** [f"{x:.2f}"] *)
Definition format_2f (x : spec_float) : list N :=
  match x with
  | S754_nan => py "nan"
  | S754_infinity neg => minus_sign neg ++ py "inf"
  | S754_zero neg => minus_sign neg ++ py "0.00"
  | S754_finite neg m e =>
      let cents := round_half_even (100 * Npos m) e in
      minus_sign neg ++ str_of_N (cents / 100) ++ py "." ++ two_digits (cents mod 100)
  end.

(** ** The normalisation primitives that log *)
Section Primitives.
Context {ucd : UnicodeData}.

(** *** [_sanitize_amount] *)
Definition _sanitize_amount (raw : list N) : M (list N) :=
  let cleaned := replace (py ",") [] (strip raw) in
  let cleaned := replace (py "+") [] cleaned in
  if decide (cleaned = [] ∨ cleaned = py "-") then mret (py "0.00")
  else
    value ← try_except_ValueError (float cleaned)
      (let cleaned :=
         filter (λ c, is_digit c || (c =? ch ".") || (c =? ch "-")) cleaned in
       value ← match cleaned with
               | [] => mret (S754_zero false)
               | _ :: _ => float cleaned
               end;
       warn (Amount_needed_coercion raw);;
       mret value);
    mret (format_2f value).

(** *** [_trim] *)
Definition _trim (text : list N) (limit : nat) : M (list N) :=
  if decide (length text ≤ limit)%nat then mret text
  else warn (Truncating_field text limit);; mret (take limit text).
End Primitives.

(** ** The QIF engine *)
Definition _ALLOWED_QIF_TAGS : gset N :=
  list_to_set (py "DTPMLNASEO$^").

Definition _PAYEE_LIMIT : nat := 80.
Definition _MEMO_LIMIT : nat := 120.
Definition _ADDRESS_LIMIT : nat := 35.

Definition split_tags : list N := py "SEO$".

(** [record.get(tag, [])] *)
Definition get (record : gmap N (list (list N))) (tag : N) : list (list N) :=
  default [] (record !! tag).

(** [values[0]] *)
Definition item0 (values : list (list N)) : M (list N) :=
  match values with
  | v :: _ => mret v
  | [] => raise IndexError
  end.

Section QIF.
Context {ucd : UnicodeData}.

(** The first loop of [_format_qif_record]: one line into the record. *)
Definition add_entry (entry : list N) (record : gmap N (list (list N)))
  : M (gmap N (list (list N))) :=
  match entry with
  | [] => mret record
  | tag :: value =>
      if decide (tag ∈ _ALLOWED_QIF_TAGS)
      then mret (<[tag := get record tag ++ [value]]> record)
      else warn (Dropping_unsupported_tag tag);; mret record
  end.

(** [formatted.append(tag + f(record[tag][0]))] when [tag] is in the
    record, [otherwise] when it is not. *)
Definition append_first (record : gmap N (list (list N))) (tag : N)
    (f : list N → M (list N)) (otherwise : M ()) (formatted : list (list N))
  : M (list (list N)) :=
  match record !! tag with
  | Some values => v ← item0 values; x ← f v; mret (formatted ++ [tag :: x])
  | None => otherwise;; mret formatted
  end.

(** The body of the two split loops, for one index and one tag. *)
Definition emit_split (record : gmap N (list (list N))) (index : nat) (tag : N)
    (splits : list (list N)) : M (list (list N)) :=
  let values := get record tag in
  match values !! index with
  | Some v =>
      let cleaned := _ascii v in
      cleaned ← (if tag =? ch "$" then _sanitize_amount cleaned else mret cleaned);
      mret (splits ++ [tag :: cleaned])
  | None => mret splits
  end.

Definition split_max_len (record : gmap N (list (list N))) : nat :=
  if decide (Exists (λ t, get record t ≠ []) split_tags)
  then max_list ((λ t, length (get record t)) <$> split_tags)
  else 0%nat.

(** *** [_format_qif_record] *)
Definition _format_qif_record (lines : list (list N)) : M (list (list N)) :=
  record ← for_in lines add_entry ∅;
  formatted ← append_first record (ch "D") _sanitize_date (warn Record_missing_date) [];
  formatted ← append_first record (ch "T") _sanitize_amount (warn Record_missing_amount) formatted;
  formatted ← append_first record (ch "P") (λ v, _trim (_ascii v) _PAYEE_LIMIT) (mret ()) formatted;
  formatted ← append_first record (ch "M") (λ v, _trim (_ascii v) _MEMO_LIMIT) (mret ()) formatted;
  formatted ← append_first record (ch "L") (λ v, mret (_ascii v)) (mret ()) formatted;
  formatted ← append_first record (ch "N") (λ v, mret (_ascii v)) (mret ()) formatted;
  formatted ← for_in [ch "A"] (λ tag formatted,
    for_in (get record tag) (λ value formatted,
      x ← _trim (_ascii value) _ADDRESS_LIMIT;
      mret (formatted ++ [tag :: x])) formatted) formatted;
  splits ← for_in (seq 0 (split_max_len record)) (λ index splits,
    for_in split_tags (emit_split record index) splits) [];
  mret (formatted ++ splits).

(** [output.extend(_format_qif_record(buffer))] *)
Definition flush (buffer output : list (list N)) : M (list (list N)) :=
  formatted ← _format_qif_record buffer; mret (output ++ formatted).

(** The state of the loop of [sanitize_qif]. *)
Record qif_state := Qif {
  output : list (list N);
  buffer : list (list N);
  header : option (list N);
}.

Definition qif_line (line : list N) (st : qif_state) : M qif_state :=
  match line with
  | [] => mret st
  | _ :: _ =>
      if startswith (py "!Type") line then
        st ← match buffer st with
             | [] => mret st
             | _ :: _ =>
                 out ← flush (buffer st) (output st);
                 mret (Qif (out ++ [py "^"]) [] (header st))
             end;
        header_value ←
          (if decide (ch ":" ∈ line) then
             match split1 (ch ":") line !! 1%nat with
             | Some suffix => mret (upper (strip suffix))
             | None => raise IndexError
             end
           else mret (py "BANK"));
        let header := py "!Type:" ++ match header_value with
                                     | [] => py "BANK"
                                     | _ :: _ => header_value
                                     end in
        mret (Qif (output st ++ [header]) (buffer st) (Some header))
      else if decide (line = py "^") then
        out ← match buffer st with
               | [] => warn Empty_record;; mret (output st)
               | _ :: _ => flush (buffer st) (output st)
               end;
        mret (Qif (out ++ [py "^"]) [] (header st))
      else mret (Qif (output st) (buffer st ++ [line]) (header st))
  end.

(** *** [sanitize_qif] *)
Definition sanitize_qif (text : list N) : M (list N) :=
  let content := replace [13] [10] (replace [13; 10] [10] text) in
  let lines := strip <$> split 10 content in
  st ← for_in lines qif_line (Qif [] [] None);
  out ← match buffer st with
         | [] => mret (output st)
         | _ :: _ => out ← flush (buffer st) (output st); mret (out ++ [py "^"])
         end;
  match header st with
  | None => warn No_type_header
  | Some _ => mret ()
  end;;
  mret (join [13; 10] out ++ [13; 10]).
End QIF.

(** ** The OFX element tree

    An [Element] has a tag, an optional text and its children in document
    order.  Attributes and tails are not read by the program. *)
#[warning="-register-all"]
Inductive Element :=
| Elem (tag : list N) (text : option (list N)) (children : list Element).

Definition tag (e : Element) : list N := let 'Elem t _ _ := e in t.
Definition text (e : Element) : option (list N) := let 'Elem _ x _ := e in x.
Definition children (e : Element) : list Element := let 'Elem _ _ cs := e in cs.

(** [ET.SubElement(parent, tag)] appends a child with no text. *)
Definition SubElement (parent : Element) (t : list N) : Element :=
  Elem (tag parent) (text parent) (children parent ++ [Elem t None []]).

(** [e.text = x] *)
Definition set_text (x : list N) (e : Element) : Element :=
  Elem (tag e) (Some x) (children e).

(** A function applied to the child of index [i], in place. *)
Definition alter_child (f : Element → Element) (i : nat) (e : Element) : Element :=
  Elem (tag e) (text e) (alter f i (children e)).

(** A reference to a node below [e]: the child indices from [e] down. *)
Fixpoint node_at (path : list nat) (e : Element) : option Element :=
  match path with
  | [] => Some e
  | i :: path' => c ← children e !! i; node_at path' c
  end.

Fixpoint alter_at (f : Element → Element) (path : list nat) (e : Element) : Element :=
  match path with
  | [] => f e
  | i :: path' => alter_child (alter_at f path') i e
  end.

(** The proper descendants of [e] in document order, each with its path:
    what [e.iter()] yields after [e] itself. *)
Fixpoint descendants (e : Element) : list (list nat * Element) :=
  let 'Elem _ _ cs := e in
  (fix below (i : nat) (cs : list Element) : list (list nat * Element) :=
     match cs with
     | [] => []
     | c :: cs' =>
         ([i], c) :: (prod_map (cons i) id <$> descendants c) ++ below (S i) cs'
     end) 0%nat cs.

(** The inner loop of [descendants], by name. *)
Definition descendants_below : nat → list Element → list (list nat * Element) :=
  fix below (i : nat) (cs : list Element) : list (list nat * Element) :=
    match cs with
    | [] => []
    | c :: cs' =>
        ([i], c) :: (prod_map (cons i) id <$> descendants c) ++ below (S i) cs'
    end.

(** [e.findall(".//TAG")] *)
Definition findall_descendants (t : list N) (e : Element) : list (list nat * Element) :=
  filter (λ d, tag d.2 = t) (descendants e).

(** [e.find(".//TAG")] *)
Definition find_descendant (t : list N) (e : Element) : option (list nat * Element) :=
  head (findall_descendants t e).

(** [e.find("TAG")]: the first child with that tag, and its index. *)
Fixpoint find_from (t : list N) (i : nat) (cs : list Element) : option (nat * Element) :=
  match cs with
  | [] => None
  | c :: cs' => if decide (tag c = t) then Some (i, c) else find_from t (S i) cs'
  end.

Definition find (t : list N) (e : Element) : option (nat * Element) :=
  find_from t 0 (children e).

(** [findtext] gives the text of the element found, [""] when it has none. *)
Definition text_or_empty (e : Element) : list N := default [] (text e).

(** [e.findtext("TAG")] *)
Definition findtext (t : list N) (e : Element) : option (list N) :=
  (λ c, text_or_empty c.2) <$> find t e.

(** [e.findtext(".//TAG")] *)
Definition findtext_descendant (t : list N) (e : Element) : option (list N) :=
  (λ d, text_or_empty d.2) <$> find_descendant t e.

(** [e.findtext(".//T1/T2")]: the children [T2] of the descendants [T1]. *)
Definition findtext_descendant_child (t1 t2 : list N) (e : Element) : option (list N) :=
  head (d ← findall_descendants t1 e;
        c ← filter (λ c, tag c = t2) (children d.2);
        [text_or_empty c]).

(** [x = e.find(t); if x is None: x = ET.SubElement(e, t)]: the index of [x]
    in [e], and [e] afterwards. *)
Definition find_or_create (t : list N) (e : Element) : nat * Element :=
  match find t e with
  | Some (i, _) => (i, e)
  | None => (length (children e), SubElement e t)
  end.

(** [c = e.find(t); if c is None: c = ET.SubElement(e, t)], then
    [c.text = x]. *)
Definition ensure_child_text (t x : list N) (e : Element) : Element :=
  let '(i, e) := find_or_create t e in
  alter_child (set_text x) i e.

(** [if e.find(t) is None: ET.SubElement(e, t).text = x] *)
Definition default_child_text (t x : list N) (e : Element) : Element :=
  match find t e with
  | None => alter_child (set_text x) (length (children e)) (SubElement e t)
  | Some _ => e
  end.

Section OFX.
Context {ucd : UnicodeData}.

(** [total += float(amount_text)] for one [STMTTRN], skipped on a
    [ValueError]. *)
Definition add_amount (total : spec_float) (trn : Element) : spec_float :=
  let amount_text :=
    replace (py ",") []
      (match findtext (py "TRNAMT") trn with
       | Some ((_ :: _) as x) => x
       | _ => py "0"
       end) in
  match float_of_str amount_text with
  | Some x => SFadd prec emax total x
  | None => total
  end.

(** The body of the loop over the two balance tags, on [stmtrs]:
    [balance = _make_balance(balance_tag)], then the two children of it. *)
Definition ensure_balance (total dtend : list N) (balance_tag : list N)
    (stmtrs : Element) : Element :=
  let '(b, stmtrs) := find_or_create balance_tag stmtrs in
  alter_child (λ balance,
    let balance := ensure_child_text (py "BALAMT") total balance in
    ensure_child_text (py "DTASOF") dtend balance) b stmtrs.

(** [dtend]: the text of the first [DTEND] below [stmtrs], or [today], which
    is [_dt.datetime.utcnow().strftime("%Y%m%d")]. *)
Definition statement_end (today : list N) (stmtrs : Element) : list N :=
  match findtext_descendant (py "DTEND") stmtrs with
  | Some ((_ :: _) as x) => x
  | _ => today
  end.

(** [total] after the loop over the [STMTTRN] elements below [stmtrs]. *)
Definition statement_total (stmtrs : Element) : spec_float :=
  foldl add_amount (S754_zero false)
    (snd <$> findall_descendants (py "STMTTRN") stmtrs).

(** *** [_ensure_balances] *)
Definition _ensure_balances (today : list N) (root : Element) : Element :=
  match find_descendant (py "STMTRS") root with
  | None => root
  | Some (path, stmtrs) =>
      let dtend := statement_end today stmtrs in
      let total := statement_total stmtrs in
      alter_at (λ stmtrs,
        foldl (λ stmtrs balance_tag,
                 ensure_balance (format_2f total) dtend balance_tag stmtrs)
          stmtrs [py "LEDGERBAL"; py "AVAILBAL"]) path root
  end.

(** [bank_id] in [_ensure_fi_info] *)
Definition bank_id_of (root : Element) : list N :=
  match strip (default (py "000000000")
                 (findtext_descendant_child (py "BANKACCTFROM") (py "BANKID") root)) with
  | [] => py "000000000"
  | (_ :: _) as x => x
  end.

(** *** [_ensure_fi_info] *)
Definition _ensure_fi_info (root : Element) : Element :=
  match find_descendant (py "SONRS") root with
  | None => root
  | Some (path, _) =>
      let bank_id := bank_id_of root in
      let org := bank_id in
      alter_at (λ sonrs,
        let '(f, sonrs) := find_or_create (py "FI") sonrs in
        let sonrs := alter_child (λ fi,
          let fi := default_child_text (py "ORG") org fi in
          default_child_text (py "FID") bank_id fi) f sonrs in
        ensure_child_text (py "INTU.BID") bank_id sonrs) path root
  end.

(** ** Serialisation *)
Definition _OFX_TAG_LIMITS : list (list N * nat) :=
  [(py "NAME", 32); (py "MEMO", 255); (py "FITID", 32); (py "TRNUID", 36);
   (py "ORG", 32); (py "FID", 32)]%nat.

Definition date_tags : list (list N) :=
  [py "DTPOSTED"; py "DTSTART"; py "DTEND"; py "DTASOF"].

(** [_OFX_TAG_LIMITS.get(t)] *)
Definition tag_limit (t : list N) : option nat :=
  snd <$> head (filter (λ kv, kv.1 = t) _OFX_TAG_LIMITS).

(** *** [_sanitize_ofx_value] *)
Definition _sanitize_ofx_value (t value : list N) : M (list N) :=
  let raw := strip value in
  match raw with
  | [] => mret []
  | _ :: _ =>
      let upper_tag := upper t in
      if decide (upper_tag = py "TRNAMT") then _sanitize_amount raw
      else if decide (upper_tag ∈ date_tags) then
        let digits := filter (λ c, is_digit c) raw in
        (if decide (length digits < 8)%nat
         then warn (Date_like_tag_unexpected upper_tag raw)
         else mret ());;
        mret (match digits with [] => raw | _ :: _ => digits end)
      else
        let sanitized := _ascii raw in
        match tag_limit upper_tag with
        | Some ((S _) as limit) => _trim sanitized limit
        | _ => mret sanitized
        end
  end.

(** The nested [_walk] of [_ofx_element_to_sgml]; [lines] is the list it
    appends to. *)
Fixpoint _walk (node : Element) (lines : list (list N)) : M (list (list N)) :=
  let 'Elem t x cs := node in
  let t := upper t in
  x ← _sanitize_ofx_value t (default [] x);
  match cs with
  | _ :: _ =>
      let lines := lines ++ [py "<" ++ t ++ py ">"] in
      let lines := match x with [] => lines | _ :: _ => lines ++ [x] end in
      lines ← (fix walk_children (cs : list Element) (lines : list (list N)) :=
                 match cs with
                 | [] => mret lines
                 | child :: cs' => lines ← _walk child lines; walk_children cs' lines
                 end) cs lines;
      mret (lines ++ [py "</" ++ t ++ py ">"])
  | [] =>
      match x with
      | _ :: _ => mret (lines ++ [py "<" ++ t ++ py ">" ++ x])
      | [] => mret lines
      end
  end.

(** The loop over the children in [_walk], by name. *)
Definition walk_children : list Element → list (list N) → M (list (list N)) :=
  fix walk_children (cs : list Element) (lines : list (list N)) :=
    match cs with
    | [] => mret lines
    | child :: cs' => lines ← _walk child lines; walk_children cs' lines
    end.

(** *** [_ofx_element_to_sgml] *)
Definition _ofx_element_to_sgml (elem : Element) : M (list (list N)) :=
  _walk elem [].
End OFX.
(** ** What the claims speak of *)

(** Control characters (general category Cc). *)
Definition is_control (c : N) : bool :=
  (c <? 32) || ((127 <=? c) && (c <=? 159)).

(** [math.isfinite] *)
Definition isfinite (x : spec_float) : bool :=
  match x with
  | S754_zero _ | S754_finite _ _ _ => true
  | S754_infinity _ | S754_nan => false
  end.

(** [re.fullmatch(r"-?[0-9]+\.[0-9]{2}", s)]: an optional minus sign, one
    digit or more, a point and two digits. *)
Definition matches_amount (s : list N) : bool :=
  let s := match s with
           | c :: s' => if c =? ch "-" then s' else s
           | [] => s
           end in
  match span_digits s with
  | (_ :: _, [dot; a; b]) => (dot =? ch ".") && is_digit a && is_digit b
  | _ => false
  end.

(** The values of the lines of a record that carry [tag], in order. *)
Definition values_of (tag : N) (lines : list (list N)) : list (list N) :=
  omap (λ entry, match entry with
                 | t :: value => if t =? tag then Some value else None
                 | [] => None
                 end) lines.

(** The splits of a record, index by index and, at each index, in the
    order [S], [E], [O], [$]: the pairs of an index and a tag that has a
    value at that index. *)
Definition split_keys (lines : list (list N)) : list (nat * N) :=
  index ← seq 0 (max_list ((λ t, length (values_of t lines)) <$> split_tags));
  t ← split_tags;
  if decide (index < length (values_of t lines))%nat then [(index, t)] else [].

(** One line of the splits: the tag of the key and the cleaned value at the
    key's index, normalised as an amount for [$]. *)
Definition split_line {ucd : UnicodeData} (values : N → list (list N))
    (key : nat * N) (line : list N) : Prop :=
  ∃ v x, values key.2 !! key.1 = Some v ∧ line = key.2 :: x
         ∧ if key.2 =? ch "$" then result (_sanitize_amount (_ascii v)) = Ok x
           else x = _ascii v.

(** The keys of one index, over some of the tags. *)
Definition keys_at (values : N → list (list N)) (index : nat) (tags : list N)
  : list (nat * N) :=
  t ← tags; if decide (index < length (values t))%nat then [(index, t)] else [].

(** Lines that all start with one of [tags]. *)
Definition tagged (tags : list N) (ls : list (list N)) : Prop :=
  Forall (λ l, ∃ t x, l = t :: x ∧ t ∈ tags) ls.

(** A string that does not start with a blank. *)
Definition no_leading_space (s : list N) : Prop :=
  match s with
  | c :: _ => isspace c = false
  | [] => True
  end.

(** The legacy form of a day of the month [d] of month [m] in the year
    [yy] of the century is no date under any of the five patterns, and has
    no blank around it. *)
Definition legacy_is_fixed {ucd : UnicodeData} (m d yy : nat) : bool :=
  let out := strftime (Date (N.of_nat yy) (N.of_nat m) (N.of_nat d)) in
  match first_parse out candidates with
  | None => bool_decide (strip out = out)
  | Some _ => false
  end.

(** The date that the first of [patterns] to read [data] makes of it. *)
Definition first_read {ucd : UnicodeData} (data : list N) (patterns : list (list N))
  : option date :=
  head (omap (λ pattern, match strptime data pattern with
                         | Ok parsed => Some parsed
                         | Raise _ => None
                         end) patterns).

(** What a text of the legacy form [MM/DD'YY] denotes: a month, a day and
    the two last digits of a year. *)
Definition legacy_fields (s : list N) : option (N * N * N) :=
  match s with
  | [m1; m2; slash; d1; d2; quote; y1; y2] =>
      if (slash =? ch "/") && (quote =? ch "'")
         && forallb is_digit [m1; m2; d1; d2; y1; y2]
      then Some (10 * (m1 - 48) + (m2 - 48),
                 10 * (d1 - 48) + (d2 - 48),
                 10 * (y1 - 48) + (y2 - 48))
      else None
  | _ => None
  end.

(** ** More of the module *)

(** *** [_escape_ampersands]

    [re.sub(r"&(?!amp;|lt;|gt;|apos;|quot;)", "&amp;", text)]: every
    ampersand that does not start one of the five entities. *)
Definition entities : list (list N) :=
  [py "amp;"; py "lt;"; py "gt;"; py "apos;"; py "quot;"].

Definition starts_entity (s : list N) : bool :=
  existsb (λ e, startswith e s) entities.

Fixpoint _escape_ampersands (text : list N) : list N :=
  match text with
  | [] => []
  | c :: text' =>
      if (c =? ch "&") && negb (starts_entity text')
      then py "&amp;" ++ _escape_ampersands text'
      else c :: _escape_ampersands text'
  end.

(** *** [_ensure_trnuid]

    [now] is [_dt.datetime.utcnow().strftime("%Y%m%d%H%M%S")]. *)
Definition trnuid_fallback (now : list N) (root : Element) : list N :=
  default now
    (head (omap (λ fit, match strip (text_or_empty fit.2) with
                        | [] => None
                        | (_ :: _) as x => Some x
                        end)
             (findall_descendants (py "FITID") root))).

(** [if not node.text or not node.text.strip(): node.text = fallback] *)
Definition fill_trnuid (fallback : list N) (node : Element) : Element :=
  match strip (text_or_empty node) with
  | [] => set_text fallback node
  | _ :: _ => node
  end.

Definition _ensure_trnuid (now : list N) (root : Element) : Element :=
  let fallback := trnuid_fallback now root in
  foldl (λ root node, alter_at (fill_trnuid fallback) node.1 root) root
    (findall_descendants (py "TRNUID") root).

(** No bare ampersand: every [&] starts one of the five entities. *)
Fixpoint escaped (s : list N) : bool :=
  match s with
  | [] => true
  | c :: s' => (negb (c =? ch "&") || starts_entity s') && escaped s'
  end.

(** Single-spaced text: the only blank is the space, and no blank follows
    a blank ([after_blank] tells that one has just been read). *)
Fixpoint single_spaced (after_blank : bool) (s : list N) : Prop :=
  match s with
  | [] => True
  | c :: s' =>
      if isspace c then c = 32 ∧ after_blank = false ∧ single_spaced true s'
      else single_spaced false s'
  end.

(** The line of a single-valued field: the tag and the value made of the
    first of the lines that carry the tag, when there is one. *)
Definition field (lines : list (list N)) (tag : N) (f : list N → list N)
  : list (list N) :=
  match head (values_of tag lines) with
  | Some v => [tag :: f v]
  | None => []
  end.

(** The characters the fallback of [_sanitize_amount] keeps: what is not
    matched by [[^0-9.-]]. *)
Definition amount_char (c : N) : bool :=
  is_digit c || (c =? ch ".") || (c =? ch "-").

(** A plain decimal numeral, [-?([0-9]+\.?[0-9]*|\.[0-9]+)] in full: an
    optional minus sign, then digits with at most one point among them and
    at least one digit. *)
Definition is_numeral (s : list N) : bool :=
  let s := match s with
           | c :: s' => if c =? ch "-" then s' else s
           | [] => s
           end in
  let '(ip, s) := span_digits s in
  match s with
  | [] => match ip with [] => false | _ :: _ => true end
  | c :: s' =>
      (c =? ch ".")
      && let '(fp, s'') := span_digits s' in
         match s'', ip ++ fp with
         | [], _ :: _ => true
         | _, _ => false
         end
  end.

(** The tags [_format_qif_record] writes: the allowed ones but [^]. *)
Definition emitted_tags : list N := py "DTPMLNASEO$".

(** The amounts of a record that [_format_qif_record] normalises -- the
    first [T] value, and every [$] value after [_ascii] -- can all be
    normalised. *)
Definition amounts_readable {ucd : UnicodeData} (lines : list (list N)) : Prop :=
  (∀ v, head (values_of (ch "T") lines) = Some v →
     ∃ x, result (_sanitize_amount v) = Ok x)
  ∧ (∀ v, v ∈ values_of (ch "$") lines →
     ∃ x, result (_sanitize_amount (_ascii v)) = Ok x).

(** The lines [sanitize_qif] loops over. *)
Definition qif_lines (text : list N) : list (list N) :=
  strip <$> split 10 (replace [13] [10] (replace [13; 10] [10] text)).

(** A line whose amount, if it is a [T] or a [$] line, can be normalised. *)
Definition amount_line_readable {ucd : UnicodeData} (line : list N) : Prop :=
  match line with
  | t :: v =>
      (t = ch "T" → ∃ x, result (_sanitize_amount v) = Ok x)
      ∧ (t = ch "$" → ∃ x, result (_sanitize_amount (_ascii v)) = Ok x)
  | [] => True
  end.

(** Lines in which every record is closed: a line is the end of a record
    [^], a header [!Type:...], which no open record precedes, or a line of
    a record, which starts with a written tag; no record is open at the
    end.  [open] tells that a record has begun. *)
Fixpoint framed (open : bool) (ls : list (list N)) : bool :=
  match ls with
  | [] => negb open
  | l :: ls' =>
      if bool_decide (l = py "^") then framed false ls'
      else if startswith (py "!Type:") l then negb open && framed false ls'
      else match l with
           | t :: _ => bool_decide (t ∈ emitted_tags) && framed true ls'
           | [] => false
           end
  end.

(** A tree in which every blank [TRNUID] below the root has been given
    [fallback], told from the root down. *)
Fixpoint fill_below (fallback : list N) (e : Element) : Element :=
  let 'Elem t x cs := e in
  Elem t x ((λ c, let c' := fill_below fallback c in
                  if decide (tag c = py "TRNUID") then fill_trnuid fallback c' else c')
            <$> cs).

(** [fill_below] on a child. *)
Definition fill_child (fallback : list N) (c : Element) : Element :=
  if decide (tag c = py "TRNUID") then fill_trnuid fallback (fill_below fallback c)
  else fill_below fallback c.

(** The elements whose text the enrichment may replace. *)
Definition rewritten_tags : list (list N) :=
  [py "TRNUID"; py "BALAMT"; py "DTASOF"; py "INTU.BID"].

(** [e'] has all of [e]: the same tag, for every child of [e] a child at
    the same place that has all of it, and the same text unless the tag is
    one of [rewritten_tags].  [e'] may have more children after those. *)
Fixpoint extends (e e' : Element) : Prop :=
  let 'Elem t x cs := e in
  tag e' = t ∧ (text e' = x ∨ t ∈ rewritten_tags)
  ∧ (fix below (cs cs' : list Element) : Prop :=
       match cs, cs' with
       | [], _ => True
       | c :: cs, c' :: cs' => extends c c' ∧ below cs cs'
       | _ :: _, [] => False
       end) cs (children e').

(** The inner loop of [extends], by name. *)
Definition extends_below : list Element → list Element → Prop :=
  fix below (cs cs' : list Element) : Prop :=
    match cs, cs' with
    | [], _ => True
    | c :: cs, c' :: cs' => extends c c' ∧ below cs cs'
    | _ :: _, [] => False
    end.

(** An element whose text [_walk] can sanitise, and a tree of such
    elements. *)
Definition value_readable {ucd : UnicodeData} (n : Element) : Prop :=
  ∃ x, result (_sanitize_ofx_value (upper (tag n)) (text_or_empty n)) = Ok x.

Definition tree_readable {ucd : UnicodeData} (e : Element) : Prop :=
  ∀ p n, node_at p e = Some n → value_readable n.

(** The year [_strptime] makes of the two digits of [%y]. *)
Definition century (yy : N) : N := if yy <=? 68 then 2000 + yy else 1900 + yy.

(** A date written [MM/DD/YY], and the legacy form [MM/DD'YY]. *)
Definition short_date (m d yy : N) : list N :=
  two_digits m ++ py "/" ++ two_digits d ++ py "/" ++ two_digits yy.

Definition legacy_date (m d yy : N) : list N :=
  two_digits m ++ py "/" ++ two_digits d ++ py "'" ++ two_digits yy.

(** [_sanitize_date] on [MM/DD/YY] gives the legacy form and logs nothing
    when the day exists, and gives the text back with a diagnostic when it
    does not. *)
Definition short_date_ok {ucd : UnicodeData} (m d yy : nat) : bool :=
  let m := N.of_nat m in
  let d := N.of_nat d in
  let yy := N.of_nat yy in
  let r := _sanitize_date (short_date m d yy) in
  match result r, log r with
  | Ok x, [] =>
      valid_date (Date (century yy) m d) && bool_decide (x = legacy_date m d yy)
  | Ok x, [Unrecognized_date raw] =>
      negb (valid_date (Date (century yy) m d))
      && bool_decide (x = short_date m d yy)
      && bool_decide (raw = short_date m d yy)
  | _, _ => false
  end.

(** A computation that raises nothing but [ValueError]. *)
Definition only_ValueError {A} (m : M A) : Prop :=
  ∀ e, result m = Raise e → e = ValueError.

(** * Properties *)

(** ** The repository's tests, replayed on the excerpt of the database *)
Section Tests.
#[local] Existing Instance Excerpt.latin1.

Example test_plain_ascii : _ascii (py "Hello World") = py "Hello World".
Proof. reflexivity. Qed.

Example test_unicode_normalization :
  _ascii (py "caf" ++ [233]) = py "cafe"
  ∧ _ascii (py "na" ++ [239] ++ py "ve") = py "naive"
  ∧ _ascii (py "r" ++ [233] ++ py "sum" ++ [233]) = py "resume".
Proof. repeat split; reflexivity. Qed.

Example test_newlines_and_carriage_returns :
  _ascii (py "line1" ++ [10] ++ py "line2") = py "line1 line2"
  ∧ _ascii (py "line1" ++ [13] ++ py "line2") = py "line1 line2"
  ∧ _ascii (py "line1" ++ [13; 10] ++ py "line2") = py "line1 line2".
Proof. repeat split; reflexivity. Qed.

Example test_caret_replacement : _ascii (py "test^value") = py "test value".
Proof. reflexivity. Qed.

Example test_multiple_spaces :
  _ascii (py "too    many   spaces") = py "too many spaces".
Proof. reflexivity. Qed.

Example test_leading_trailing_spaces : _ascii (py "  trimmed  ") = py "trimmed".
Proof. reflexivity. Qed.

Example test_date_patterns :
  Forall (λ raw, result (_sanitize_date raw) = Ok (py "12/25'23"))
    [py "12/25/2023"; py "12/25/23"; py "2023-12-25"; py "25/12/2023";
     py "25-12-2023"; py "  12/25/2023  "].
Proof. repeat constructor. Qed.

Example test_unrecognized_format :
  _sanitize_date (py "invalid-date")
  = Run [Unrecognized_date (py "invalid-date")] (Ok (py "invalid-date")).
Proof. reflexivity. Qed.

Example test_edge_case_dates :
  result (_sanitize_date (py "01/01/2000")) = Ok (py "01/01'00")
  ∧ result (_sanitize_date (py "12/31/1999")) = Ok (py "12/31'99").
Proof. split; reflexivity. Qed.

Example test_amounts :
  Forall (λ case, result (_sanitize_amount case.1) = Ok case.2)
    [(py "100.50", py "100.50"); (py "-50.25", py "-50.25");
     (py "1,234.56", py "1234.56"); (py "1,000,000.00", py "1000000.00");
     (py "+100.00", py "100.00"); (py "  100.50  ", py "100.50");
     ([], py "0.00"); (py "-", py "0.00"); (py "100", py "100.00");
     (py "-1,234.56", py "-1234.56")].
Proof. repeat constructor. Qed.

Example test_stray_characters :
  _sanitize_amount (py "$100.00")
  = Run [Amount_needed_coercion (py "$100.00")] (Ok (py "100.00")).
Proof. reflexivity. Qed.

Example test_trim :
  _trim (py "short") 10 = mret (py "short")
  ∧ _trim (py "exactly10!") 10 = mret (py "exactly10!")
  ∧ _trim (py "this is too long") 10
    = Run [Truncating_field (py "this is too long") 10] (Ok (py "this is to")).
Proof. repeat split; reflexivity. Qed.

Example test_ofx_values :
  result (_sanitize_ofx_value (py "TRNAMT") (py "1,234.56")) = Ok (py "1234.56")
  ∧ result (_sanitize_ofx_value (py "DTPOSTED") (py "2023-12-25")) = Ok (py "20231225")
  ∧ result (_sanitize_ofx_value (py "DTSTART") (py "20231201")) = Ok (py "20231201")
  ∧ result (_sanitize_ofx_value (py "NAME") (replicate 50 (ch "A")))
    = Ok (replicate 32 (ch "A"))
  ∧ result (_sanitize_ofx_value (py "NAME") (py "   ")) = Ok [].
Proof. repeat split; reflexivity. Qed.

(** The end-to-end example of the specification. *)
Example end_to_end_qif :
  result (sanitize_qif (join [10] [py "!Type:Bank"; py "D01/15/2023";
                                   py "T100.00"; py "PAcme"; py "^"]))
  = Ok (join [13; 10] [py "!Type:BANK"; py "D01/15'23"; py "T100.00";
                       py "PAcme"; py "^"] ++ [13; 10]).
Proof. reflexivity. Qed.

(** [test_split_with_memo]: the two splits come out one after the other. *)
Example test_split_with_memo :
  result (_format_qif_record
            [py "D01/15/2023"; py "T300.00"; py "SFood"; py "EMeat and vegetables";
             py "$100.00"; py "SHousehold"; py "ECleaning supplies"; py "$200.00"])
  = Ok [py "D01/15'23"; py "T300.00"; py "SFood"; py "EMeat and vegetables";
        py "$100.00"; py "SHousehold"; py "ECleaning supplies"; py "$200.00"].
Proof. reflexivity. Qed.
End Tests.

(** ** Strings *)
Lemma elem_of_drop_while p (s : list N) c : c ∈ drop_while p s → c ∈ s.
Proof.
  induction s as [|a s IH]; simpl; [done|].
  destruct (p a); [|done]. intros ?. right. auto.
Qed.

Lemma elem_of_strip (s : list N) c : c ∈ strip s → c ∈ s.
Proof.
  unfold strip, rstrip, lstrip. rewrite elem_of_reverse. intros Hc.
  apply elem_of_drop_while in Hc. rewrite elem_of_reverse in Hc.
  by apply elem_of_drop_while in Hc.
Qed.

Lemma elem_of_collapse_ws b (s : list N) c :
  c ∈ collapse_ws b s → c = 32 ∨ (c ∈ s ∧ isspace c = false).
Proof.
  revert b. induction s as [|a s IH]; intros b; simpl.
  - by intros ?%elem_of_nil.
  - destruct (isspace a) eqn:Ha.
    + destruct b.
      * intros [?|[? ?]]%IH; [by left|]. right. split; [by right|done].
      * intros [->|[?|[? ?]]%IH]%elem_of_cons; [by left|by left|].
        right. split; [by right|done].
    + intros [->|[?|[? ?]]%IH]%elem_of_cons.
      * right. split; [by left|done].
      * by left.
      * right. split; [by right|done].
Qed.

Lemma elem_of_replace_char a b (s : list N) c :
  c ∈ replace [a] [b] s → c = b ∨ (c ∈ s ∧ c ≠ a).
Proof.
  unfold replace. induction s as [|x s IH]; simpl.
  - by intros ?%elem_of_nil.
  - destruct (N.eqb_spec a x) as [->|Hne]; simpl.
    + intros [->|[?|[? ?]]%IH]%elem_of_cons; [by left|by left|].
      right. split; [by right|done].
    + intros [->|[?|[? ?]]%IH]%elem_of_cons.
      * right. split; [by left|done].
      * by left.
      * right. split; [by right|done].
Qed.

(** ** [_ascii] *)
Section AsciiProperties.
Context {ucd : UnicodeData}.

Lemma elem_of_ascii text c :
  c ∈ _ascii text →
  is_ascii c = true ∧ c ≠ ch "^" ∧ c ≠ 10 ∧ c ≠ 13 ∧ (isspace c = true → c = 32).
Proof.
  unfold _ascii. intros Hc%elem_of_strip.
  apply elem_of_collapse_ws in Hc as [->|[Hc Hsp]]; [done|].
  apply elem_of_replace_char in Hc as [->|[Hc Hcaret]]; [done|].
  apply elem_of_replace_char in Hc as [->|[Hc Hlf]]; [done|].
  apply elem_of_replace_char in Hc as [->|[Hc Hcr]]; [done|].
  apply list_elem_of_filter in Hc as [Hc _].
  repeat split; try done. by rewrite Hsp.
Qed.
End AsciiProperties.

(** C5, as stated, fails: the control character U+0001 is not whitespace,
    so nothing in [_ascii] removes it. *)
Lemma C5_ascii_keeps_control_character :
  ∃ text, ∀ ucd : UnicodeData,
    ¬ Forall (λ c, is_control c = false ∧ c ≠ ch "^" ∧ is_ascii c = true)
        (@_ascii ucd text).
Proof.
  exists [1]. intros ucd H.
  change (@_ascii ucd [1]) with [1] in H.
  apply Forall_inv in H as [H _]. discriminate H.
Qed.

(** C5, amended: for every input string the output of [_ascii] contains no
    non-ASCII character, no [^], and no whitespace other than the space (so
    no tab, line feed, vertical tab, form feed, carriage return or
    separator U+001C to U+001F); the other control characters, U+0000 to
    U+0008, U+000E to U+001B and U+007F, are kept. *)
Theorem C5_ascii_output_characters {ucd : UnicodeData} (text : list N) :
  Forall (λ c, is_ascii c = true ∧ c ≠ ch "^" ∧ (isspace c = true → c = 32))
    (_ascii text)
  ∧ Forall (λ c, is_control c = true ∧ _ascii [c] = [c])
      [0; 1; 2; 3; 4; 5; 6; 7; 8; 14; 15; 16; 17; 18; 19; 20; 21; 22; 23; 24;
       25; 26; 27; 127].
Proof.
  split.
  - apply Forall_forall. intros c Hc.
    apply elem_of_ascii in Hc as (? & ? & _ & _ & ?). done.
  - repeat constructor.
Qed.

(** ** [strip] is idempotent *)
Lemma drop_while_no_leading_space (s : list N) :
  no_leading_space (drop_while isspace s).
Proof.
  induction s as [|c s IH]; simpl; [done|].
  destruct (isspace c) eqn:Hc; [done|]. simpl. done.
Qed.

Lemma drop_while_id (s : list N) :
  no_leading_space s → drop_while isspace s = s.
Proof. destruct s as [|c s]; simpl; [done|]. by intros ->. Qed.

Lemma drop_while_snoc (l : list N) c :
  isspace c = false → ∃ l', drop_while isspace (l ++ [c]) = l' ++ [c].
Proof.
  intros Hc. induction l as [|a l [l' IH]]; simpl.
  - rewrite Hc. by exists [].
  - destruct (isspace a); [by exists l'|]. by exists (a :: l).
Qed.

Lemma rstrip_no_leading_space (s : list N) :
  no_leading_space s → no_leading_space (rstrip s).
Proof.
  destruct s as [|c s]; [done|]. simpl. intros Hc. unfold rstrip.
  rewrite reverse_cons.
  destruct (drop_while_snoc (reverse s) c Hc) as [l' ->].
  rewrite reverse_app. simpl. done.
Qed.

Lemma rstrip_idemp (s : list N) : rstrip (rstrip s) = rstrip s.
Proof.
  unfold rstrip. rewrite reverse_involutive.
  by rewrite (drop_while_id _ (drop_while_no_leading_space _)).
Qed.

Lemma strip_idemp (s : list N) : strip (strip s) = strip s.
Proof.
  unfold strip, lstrip.
  rewrite (drop_while_id (rstrip _)).
  - apply rstrip_idemp.
  - apply rstrip_no_leading_space, drop_while_no_leading_space.
Qed.

(** ** [_sanitize_date] *)
Section DateProperties.
Context {ucd : UnicodeData}.

Lemma strptime_raises_ValueError data format e :
  strptime data format = Raise e → e = ValueError.
Proof.
  unfold strptime. intros H.
  repeat (case_match; try congruence).
Qed.

Lemma first_parse_strip raw patterns :
  first_parse (strip raw) patterns = first_parse raw patterns.
Proof.
  induction patterns as [|p ps IH]; simpl; [done|].
  by rewrite strip_idemp, IH.
Qed.

Lemma first_parse_outcome raw patterns r :
  first_parse raw patterns = Some r →
  ∃ parsed, r = Ok (strftime parsed) ∧ valid_date parsed = true.
Proof.
  induction patterns as [|p ps IH]; simpl; [done|].
  destruct (strptime (strip raw) p) as [parsed|e] eqn:Hp.
  - intros [= <-]. exists parsed. split; [done|].
    unfold strptime in Hp. repeat (case_match; try congruence).
  - apply strptime_raises_ValueError in Hp as ->. done.
Qed.

Lemma strftime_year_mod y m d :
  strftime (Date y m d) = strftime (Date (y mod 100) m d).
Proof. unfold strftime. simpl. by rewrite N.Div0.mod_mod. Qed.

Lemma legacy_is_fixed_all :
  forallb (λ m, forallb (λ d, forallb (legacy_is_fixed m d) (seq 0 100))
                  (seq 1 31)) (seq 1 12) = true.
Proof. vm_compute. reflexivity. Qed.

Lemma days_in_month_le y m : days_in_month y m ≤ 31.
Proof. unfold days_in_month. repeat case_match; lia. Qed.

Lemma legacy_fixed parsed :
  valid_date parsed = true →
  first_parse (strftime parsed) candidates = None
  ∧ strip (strftime parsed) = strftime parsed.
Proof.
  destruct parsed as [y m d]. unfold valid_date. cbn [year month day].
  intros Hv. repeat (apply andb_prop in Hv as [Hv ?]).
  repeat match goal with H : (_ <=? _) = true |- _ => apply N.leb_le in H end.
  pose proof (days_in_month_le y m).
  assert (Hm : In (N.to_nat m) (seq 1 12)) by (apply in_seq; lia).
  assert (Hd : In (N.to_nat d) (seq 1 31)) by (apply in_seq; lia).
  assert (Hy : In (N.to_nat (y mod 100)) (seq 0 100)).
  { assert (Hr : y mod 100 < 100) by (by apply N.mod_upper_bound).
    revert Hr. generalize (y mod 100). intros r Hr. apply in_seq. lia. }
  pose proof legacy_is_fixed_all as Hall.
  rewrite forallb_forall in Hall. specialize (Hall _ Hm).
  rewrite forallb_forall in Hall. specialize (Hall _ Hd).
  rewrite forallb_forall in Hall. specialize (Hall _ Hy).
  unfold legacy_is_fixed in Hall. rewrite !N2Nat.id in Hall.
  rewrite <- strftime_year_mod in Hall.
  destruct (first_parse _ candidates); [done|].
  by apply bool_decide_eq_true in Hall.
Qed.
End DateProperties.

Section LegacyForm.
Context {ucd : UnicodeData}.

Lemma first_parse_first_read raw patterns :
  first_parse raw patterns
  = (λ parsed, Ok (strftime parsed)) <$> first_read (strip raw) patterns.
Proof.
  unfold first_read. induction patterns as [|p ps IH]; [done|].
  cbn [first_parse omap list_omap].
  destruct (strptime (strip raw) p) as [parsed|e] eqn:Hp; [done|].
  apply strptime_raises_ValueError in Hp as ->. exact IH.
Qed.

Lemma first_read_valid data patterns parsed :
  first_read data patterns = Some parsed → valid_date parsed = true.
Proof.
  unfold first_read. induction patterns as [|p ps IH]; [done|].
  cbn [omap list_omap].
  destruct (strptime data p) as [parsed'|e] eqn:Hp; [|exact IH].
  intros [= <-]. unfold strptime in Hp. repeat (case_match; try congruence).
Qed.

Lemma two_digits_fields n :
  n < 100 →
  is_digit (48 + n / 10 mod 10) = true ∧ is_digit (48 + n mod 10) = true
  ∧ 10 * (48 + n / 10 mod 10 - 48) + (48 + n mod 10 - 48) = n.
Proof.
  intros Hn.
  assert (Hq : n / 10 < 10) by (apply N.Div0.div_lt_upper_bound; lia).
  assert (Hr : n mod 10 < 10) by (by apply N.mod_upper_bound).
  rewrite (N.mod_small (n / 10) 10) by done.
  pose proof (N.div_mod n 10) as Hdm. unfold is_digit.
  revert Hq Hr Hdm. generalize (n / 10), (n mod 10). intros q r Hq Hr Hdm.
  split; [|split].
  - apply andb_true_intro. split; apply N.leb_le; lia.
  - apply andb_true_intro. split; apply N.leb_le; lia.
  - lia.
Qed.

(** The legacy form of a date denotes its month, its day and its year in
    the century. *)
Lemma legacy_fields_strftime parsed :
  valid_date parsed = true →
  legacy_fields (strftime parsed)
  = Some (month parsed, day parsed, year parsed mod 100).
Proof.
  destruct parsed as [y m d]. unfold valid_date. cbn [year month day].
  intros Hv. repeat (apply andb_prop in Hv as [Hv ?]).
  repeat match goal with H : (_ <=? _) = true |- _ => apply N.leb_le in H end.
  pose proof (days_in_month_le y m).
  destruct (two_digits_fields m) as (Hm1 & Hm2 & Hm); [lia|].
  destruct (two_digits_fields d) as (Hd1 & Hd2 & Hd); [lia|].
  destruct (two_digits_fields (y mod 100)) as (Hy1 & Hy2 & Hy).
  { by apply N.mod_upper_bound. }
  unfold strftime, two_digits. cbn [year month day].
  change (py "/") with [47]. change (py "'") with [39].
  cbn [app]. unfold legacy_fields. change (ch "/") with 47. change (ch "'") with 39.
  cbn [forallb]. rewrite Hm1, Hm2, Hd1, Hd2, Hy1, Hy2, Hm, Hd, Hy. done.
Qed.
End LegacyForm.

(** C9, as stated, fails: the legacy output does not denote the calendar
    day that was read.  The fifteenth of January of 1923 and that of 2023
    are two days and have one output, [01/15'23]. *)
Lemma C9_century_not_kept :
  ∃ x1 x2 day1 day2,
    day1 ≠ day2
    ∧ ∀ ucd : UnicodeData,
        @first_read ucd (strip x1) candidates = Some day1
        ∧ @first_read ucd (strip x2) candidates = Some day2
        ∧ @_sanitize_date ucd x1 = Run [] (Ok (py "01/15'23"))
        ∧ @_sanitize_date ucd x2 = Run [] (Ok (py "01/15'23")).
Proof.
  exists (py "01/15/1923"), (py "01/15/2023"), (Date 1923 1 15), (Date 2023 1 15).
  split; [by intros [=]|]. intros ucd. repeat split; vm_compute; reflexivity.
Qed.

(** C9, amended: [_sanitize_date] is idempotent on texts.  For every input
    string it returns a string, and applied to that string it returns it
    unchanged.  When one of the five patterns reads the trimmed input as a
    date, the output is the legacy form [MM/DD'YY] of the date that the
    first such pattern reads, and nothing is logged: the output denotes the
    month, the day and the two last digits of the year of that date, not
    its century.  None of the five patterns reads a legacy form, so the
    second application returns it by the branch of the unread texts, with
    a diagnostic.  When no pattern reads the input, the output is the
    trimmed input, with a diagnostic. *)
Theorem C9_sanitize_date_idempotent {ucd : UnicodeData} (x : list N) :
  ∃ y, result (_sanitize_date x) = Ok y
    ∧ result (_sanitize_date y) = Ok y
    ∧ match first_read (strip x) candidates with
      | Some parsed =>
          _sanitize_date x = Run [] (Ok y)
          ∧ y = strftime parsed
          ∧ legacy_fields y = Some (month parsed, day parsed, year parsed mod 100)
          ∧ _sanitize_date y = Run [Unrecognized_date y] (Ok y)
      | None =>
          _sanitize_date x = Run [Unrecognized_date x] (Ok y) ∧ y = strip x
      end.
Proof.
  assert (Hfx : _sanitize_date x
                = match first_read (strip x) candidates with
                  | Some parsed => Run [] (Ok (strftime parsed))
                  | None => Run [Unrecognized_date x] (Ok (strip x))
                  end).
  { unfold _sanitize_date. rewrite first_parse_first_read.
    by destruct (first_read (strip x) candidates). }
  rewrite Hfx. clear Hfx.
  destruct (first_read (strip x) candidates) as [parsed|] eqn:Hx.
  - apply first_read_valid in Hx as Hv.
    destruct (legacy_fixed parsed Hv) as [Hnone Hs].
    assert (Hy : _sanitize_date (strftime parsed)
                 = Run [Unrecognized_date (strftime parsed)] (Ok (strftime parsed))).
    { unfold _sanitize_date. rewrite Hnone. simpl. by rewrite Hs. }
    exists (strftime parsed). split; [done|]. split; [by rewrite Hy|].
    split; [done|]. split; [done|]. split; [|done].
    by apply legacy_fields_strftime.
  - exists (strip x). split; [done|]. split; [|done].
    unfold _sanitize_date.
    rewrite first_parse_strip, first_parse_first_read, Hx. simpl.
    by rewrite strip_idemp.
Qed.

(** ** [float] and its formatting *)
Lemma span_digits_app (ds rest : list N) :
  Forall (λ c, is_digit c = true) ds →
  match rest with c :: _ => is_digit c = false | [] => True end →
  span_digits (ds ++ rest) = (ds, rest).
Proof.
  intros Hds Hrest. induction Hds as [|d ds Hd _ IH]; simpl.
  - destruct rest as [|c rest]; [done|]. simpl. by rewrite Hrest.
  - by rewrite Hd, IH.
Qed.

Lemma uint_chars_digits d : Forall (λ c, is_digit c = true) (uint_chars d).
Proof. induction d; simpl; by constructor. Qed.

Lemma str_of_N_digits n : Forall (λ c, is_digit c = true) (str_of_N n).
Proof. apply uint_chars_digits. Qed.

Lemma str_of_N_nonempty n : str_of_N n ≠ [].
Proof.
  unfold str_of_N. destruct n as [|p]; [done|]. simpl.
  pose proof (DecimalPos.Unsigned.to_uint_nonnil p) as Hp.
  by destruct (Pos.to_uint p).
Qed.

Lemma two_digits_digits n : Forall (λ c, is_digit c = true) (two_digits n).
Proof.
  unfold two_digits, is_digit.
  assert (Hq : n / 10 mod 10 < 10) by (by apply N.mod_upper_bound).
  assert (Hr : n mod 10 < 10) by (by apply N.mod_upper_bound).
  revert Hq Hr. generalize (n / 10 mod 10), (n mod 10). intros q r Hq Hr.
  repeat apply Forall_cons_2; [| |apply Forall_nil_2];
    apply andb_true_intro; split; apply N.leb_le; lia.
Qed.

Lemma matches_amount_intro neg (ds : list N) a b :
  ds ≠ [] → Forall (λ c, is_digit c = true) ds →
  is_digit a = true → is_digit b = true →
  matches_amount (minus_sign neg ++ ds ++ py "." ++ [a; b]) = true.
Proof.
  intros Hne Hds Ha Hb.
  change (py ".") with [46]. change (ch ".") with 46.
  assert (Hspan : span_digits (ds ++ [46] ++ [a; b]) = (ds, [46; a; b]))
    by (by apply span_digits_app).
  assert (Hgo : match span_digits (ds ++ [46] ++ [a; b]) with
                | (_ :: _, [dot; a; b]) => (dot =? 46) && is_digit a && is_digit b
                | _ => false
                end = true).
  { rewrite Hspan. destruct ds; [done|]. by rewrite Ha, Hb. }
  unfold matches_amount. change (ch "-") with 45. change (ch ".") with 46.
  destruct neg; [done|].
  destruct ds as [|d ds]; [done|].
  apply Forall_cons_1 in Hds as [Hd _].
  change (minus_sign false ++ (d :: ds) ++ [46] ++ [a; b])
    with (d :: (ds ++ [46] ++ [a; b])).
  assert (Hd45 : (d =? 45) = false).
  { destruct (N.eqb_spec d 45) as [->|]; [by vm_compute in Hd|done]. }
  cbv beta iota. rewrite Hd45. exact Hgo.
Qed.

(** A finite double is printed as the pattern asks. *)
Lemma format_2f_matches x :
  isfinite x = true → matches_amount (format_2f x) = true.
Proof.
  destruct x as [neg|neg| |neg m e]; try done.
  - by destruct neg.
  - intros _. unfold format_2f.
    pose proof (two_digits_digits (round_half_even (100 * Npos m) e mod 100)) as Hd.
    unfold two_digits in *.
    apply Forall_cons_1 in Hd as [Ha Hd]. apply Forall_cons_1 in Hd as [Hb _].
    apply matches_amount_intro; auto using str_of_N_nonempty, str_of_N_digits.
Qed.

(** ** [_sanitize_amount] *)

(** C4, as stated, fails (by the range of a double): a numeral of 310
    digits is read as infinity and printed as [inf]. *)
Lemma C4_amount_of_many_digits_is_inf :
  ∃ raw, Forall (λ c, is_digit c = true) raw
    ∧ ∀ ucd : UnicodeData,
        result (@_sanitize_amount ucd raw) = Ok (py "inf")
        ∧ matches_amount (py "inf") = false.
Proof.
  exists (ch "1" :: replicate 309 (ch "0")). split.
  - apply Forall_forall. intros c [->|Hc%elem_of_replicate]%elem_of_cons; [done|].
    by destruct Hc as [-> _].
  - intros ucd. split; [|done]. vm_compute. reflexivity.
Qed.

(** C4, amended: for every amount string (of digits, [,], [.], [-], [+] or
    any other) whose cleaned form -- trimmed, commas and plus signs removed
    -- is empty, is [-], or is read by [float] as a finite number,
    [_sanitize_amount] returns a string matching [-?\d+\.\d{2}] and logs
    nothing. *)
Theorem C4_amount_pattern {ucd : UnicodeData} (raw : list N) :
  let cleaned := replace (py "+") [] (replace (py ",") [] (strip raw)) in
  cleaned = [] ∨ cleaned = py "-"
  ∨ (∃ x, float_of_str cleaned = Some x ∧ isfinite x = true) →
  ∃ out, _sanitize_amount raw = Run [] (Ok out) ∧ matches_amount out = true.
Proof.
  intros cleaned Hc. unfold _sanitize_amount. fold cleaned.
  destruct (decide (cleaned = [] ∨ cleaned = py "-")) as [_|Hn].
  - by exists (py "0.00").
  - destruct Hc as [?|[?|(x & Hx & Hfin)]]; [tauto|tauto|].
    exists (format_2f x). split; [|by apply format_2f_matches].
    unfold float. by rewrite Hx.
Qed.

Lemma C4_amount_pattern_witness :
  ∃ out, @_sanitize_amount Excerpt.latin1 (py "-1,234.5") = Run [] (Ok out)
         ∧ matches_amount out = true.
Proof.
  apply (@C4_amount_pattern Excerpt.latin1 (py "-1,234.5")).
  right. right. eexists. split; [vm_compute; reflexivity|reflexivity].
Defined.

(** C1: the fallback of [_sanitize_amount] parses the filtered text with a
    second, unguarded [float]: two points or a stray minus sign raise
    [ValueError], and [sanitize_qif] raises with it. *)
Theorem C1_sanitize_qif_raises {ucd : UnicodeData} :
  result (_sanitize_amount (py "1.2.3")) = Raise ValueError
  ∧ result (sanitize_qif (py "!Type:Bank" ++ [10] ++ py "D01/15/2023" ++ [10]
                          ++ py "T1.2.3" ++ [10] ++ py "^"))
    = Raise ValueError.
Proof. split; vm_compute; reflexivity. Qed.

(** ** The monad *)
Lemma result_bind {A B} (m : M A) (f : A → M B) :
  result (m ≫= f) = match result m with
                    | Ok a => result (f a)
                    | Raise e => Raise e
                    end.
Proof. unfold mbind, M_bind. by destruct (result m). Qed.

Lemma bind_Ok {A B} (m : M A) (f : A → M B) b :
  result (m ≫= f) = Ok b → ∃ a, result m = Ok a ∧ result (f a) = Ok b.
Proof. rewrite result_bind. destruct (result m); [eauto|done]. Qed.

Lemma result_for_in_cons {A S} (x : A) xs (body : A → S → M S) s :
  result (for_in (x :: xs) body s)
  = match result (body x s) with
    | Ok s' => result (for_in xs body s')
    | Raise e => Raise e
    end.
Proof. apply result_bind. Qed.

Lemma for_in_cons_Ok {A S} (x : A) xs (body : A → S → M S) s out :
  result (for_in (x :: xs) body s) = Ok out →
  ∃ s', result (body x s) = Ok s' ∧ result (for_in xs body s') = Ok out.
Proof. apply bind_Ok. Qed.

(** ** [_format_qif_record] *)
Lemma values_of_cons t t0 v lines :
  values_of t ((t0 :: v) :: lines)
  = if t0 =? t then v :: values_of t lines else values_of t lines.
Proof. unfold values_of. simpl. by destruct (t0 =? t). Qed.

Section QifProperties.
Context {ucd : UnicodeData}.

(** The first loop never raises, and files the values of every allowed tag
    in order. *)
Lemma add_entries lines record :
  ∃ record', result (for_in lines add_entry record) = Ok record'
    ∧ ∀ t, t ∈ _ALLOWED_QIF_TAGS →
        record' !! t = match values_of t lines with
                       | [] => record !! t
                       | vs => Some (get record t ++ vs)
                       end.
Proof.
  revert record. induction lines as [|entry lines IH]; intros record.
  - exists record. split; [done|]. done.
  - destruct entry as [|t0 v].
    + destruct (IH record) as (record' & Hr & Hget).
      exists record'. split; [|done].
      by rewrite result_for_in_cons.
    + rewrite result_for_in_cons. cbn [add_entry].
      destruct (decide (t0 ∈ _ALLOWED_QIF_TAGS)) as [Hin|Hout].
      * destruct (IH (<[t0:=get record t0 ++ [v]]> record)) as (record' & Hr & Hget).
        exists record'. split; [done|]. intros t Ht.
        rewrite (Hget t Ht), values_of_cons.
        unfold get. destruct (N.eqb_spec t0 t) as [->|Hne].
        -- rewrite lookup_insert_eq. simpl.
           destruct (values_of t lines); [done|]. by rewrite <- app_assoc.
        -- by rewrite lookup_insert_ne.
      * destruct (IH record) as (record' & Hr & Hget).
        exists record'. split; [done|]. intros t Ht.
        rewrite (Hget t Ht), values_of_cons.
        destruct (N.eqb_spec t0 t) as [->|Hne]; [done|]. done.
Qed.

Lemma add_entries_get lines record :
  result (for_in lines add_entry ∅) = Ok record →
  ∀ t, t ∈ _ALLOWED_QIF_TAGS →
    get record t = values_of t lines
    ∧ (record !! t = None ↔ values_of t lines = []).
Proof.
  destruct (add_entries lines ∅) as (record' & -> & Hget).
  intros [= <-] t Ht. unfold get. rewrite (Hget t Ht), lookup_empty.
  destruct (values_of t lines); [done|]. simpl. split; [done|]. split; done.
Qed.

(** Each step for a single-valued tag appends at most one line, with that
    tag. *)
Lemma append_first_Ok record t f otherwise formatted out :
  result (append_first record t f otherwise formatted) = Ok out →
  match record !! t with
  | Some values =>
      ∃ v x, head values = Some v ∧ result (f v) = Ok x
             ∧ out = formatted ++ [t :: x]
  | None => out = formatted
  end.
Proof.
  unfold append_first. destruct (record !! t) as [values|].
  - intros (v & Hv & (x & Hx & Hout)%bind_Ok)%bind_Ok.
    destruct values as [|v' values]; [done|]. injection Hv as ->.
    injection Hout as <-. eauto.
  - intros (? & _ & Hout)%bind_Ok. by injection Hout as <-.
Qed.

Lemma append_first_tagged record t f otherwise formatted out tags :
  result (append_first record t f otherwise formatted) = Ok out →
  t ∈ tags → tagged tags formatted → tagged tags out.
Proof.
  intros Hr%append_first_Ok Ht Hf. destruct (record !! t).
  - destruct Hr as (v & x & _ & _ & ->). apply Forall_app. split; [done|].
    apply Forall_singleton. eauto.
  - by subst.
Qed.

Lemma address_lines_tagged values t formatted out tags :
  result (for_in values (λ value formatted,
            x ← _trim (_ascii value) _ADDRESS_LIMIT;
            mret (formatted ++ [t :: x])) formatted) = Ok out →
  t ∈ tags → tagged tags formatted →
  tagged tags out ∧ (∃ new, out = formatted ++ new).
Proof.
  intros Hr Ht. revert formatted Hr.
  induction values as [|v values IH]; intros formatted Hr Hf.
  - injection Hr as <-. split; [done|]. exists []. by rewrite app_nil_r.
  - apply for_in_cons_Ok in Hr as (s' & (x & _ & Hs')%bind_Ok & Hr).
    injection Hs' as <-.
    apply IH in Hr as [? [new ->]].
    + split; [done|]. exists ([t :: x] ++ new). by rewrite app_assoc.
    + apply Forall_app. split; [done|]. apply Forall_singleton. eauto.
Qed.

Lemma emit_tags record values index tags acc out :
  (∀ t, t ∈ tags → get record t = values t) →
  result (for_in tags (emit_split record index) acc) = Ok out →
  ∃ new, out = acc ++ new
    ∧ Forall2 (split_line values) (keys_at values index tags) new.
Proof.
  revert acc. induction tags as [|t tags IH]; intros acc Hvalues Hr.
  - injection Hr as <-. exists []. by rewrite app_nil_r.
  - apply for_in_cons_Ok in Hr as (acc' & Hstep & Hr).
    apply IH in Hr as (new & -> & Hnew);
      [|intros ? ?; by apply Hvalues, list_elem_of_further].
    unfold keys_at. rewrite bind_cons. fold (keys_at values index tags).
    unfold emit_split in Hstep. rewrite (Hvalues t) in Hstep by left.
    destruct (values t !! index) as [v|] eqn:Hv.
    + apply bind_Ok in Hstep as (x & Hx & Hacc). injection Hacc as <-.
      exists ([t :: x] ++ new). split; [by rewrite app_assoc|].
      rewrite decide_True by (by eapply lookup_lt_Some).
      apply Forall2_app; [|done]. constructor; [|done].
      exists v, x. simpl. split; [done|]. split; [done|].
      destruct (t =? ch "$"); [done|]. by injection Hx as <-.
    + injection Hstep as <-. exists new. split; [done|].
      rewrite decide_False; [done|].
      apply lookup_ge_None in Hv. lia.
Qed.

Lemma emit_indices record values indices acc out :
  (∀ t, t ∈ split_tags → get record t = values t) →
  result (for_in indices (λ index splits,
            for_in split_tags (emit_split record index) splits) acc) = Ok out →
  ∃ new, out = acc ++ new
    ∧ Forall2 (split_line values)
        (index ← indices; keys_at values index split_tags) new.
Proof.
  intros Hvalues. revert acc.
  induction indices as [|index indices IH]; intros acc Hr.
  - injection Hr as <-. exists []. by rewrite app_nil_r.
  - apply for_in_cons_Ok in Hr as (acc' & Hstep & Hr).
    apply (emit_tags _ values) in Hstep as (new1 & -> & Hnew1); [|done].
    apply IH in Hr as (new2 & -> & Hnew2).
    exists (new1 ++ new2). split; [by rewrite app_assoc|].
    rewrite bind_cons. by apply Forall2_app.
Qed.

Lemma split_max_len_max record :
  split_max_len record = max_list ((λ t, length (get record t)) <$> split_tags).
Proof.
  unfold split_max_len. case_decide as Hany; [done|].
  assert (Hall : Forall (λ t, get record t = []) split_tags).
  { apply Forall_forall. intros t Ht. destruct (get record t) eqn:Hg; [done|].
    exfalso. apply Hany, Exists_exists. exists t. split; [done|]. by rewrite Hg. }
  unfold split_tags in *. change (py "SEO$") with [83; 69; 79; 36] in *.
  cbn [fmap list_fmap].
  repeat (apply Forall_cons_1 in Hall as [-> Hall]). done.
Qed.

Lemma append_first_prefix record t f otherwise formatted out :
  result (append_first record t f otherwise formatted) = Ok out →
  ∃ new, out = formatted ++ new.
Proof.
  intros Hr%append_first_Ok. destruct (record !! t).
  - destruct Hr as (v & x & _ & _ & ->). eauto.
  - subst. exists []. by rewrite app_nil_r.
Qed.

(** What a returning [_format_qif_record] has gone through. *)
Lemma format_qif_record_Ok lines out :
  result (_format_qif_record lines) = Ok out →
  ∃ record dated fixed splits,
    result (for_in lines add_entry ∅) = Ok record
    ∧ result (append_first record (ch "D") _sanitize_date
                (warn Record_missing_date) []) = Ok dated
    ∧ (∃ more, fixed = dated ++ more)
    ∧ tagged (py "DTPMLNA") fixed
    ∧ result (for_in (seq 0 (split_max_len record)) (λ index splits,
                for_in split_tags (emit_split record index) splits) []) = Ok splits
    ∧ out = fixed ++ splits.
Proof.
  unfold _format_qif_record.
  intros (record & Hrecord & H)%bind_Ok.
  apply bind_Ok in H as (f1 & H1 & H). apply bind_Ok in H as (f2 & H2 & H).
  apply bind_Ok in H as (f3 & H3 & H). apply bind_Ok in H as (f4 & H4 & H).
  apply bind_Ok in H as (f5 & H5 & H). apply bind_Ok in H as (f6 & H6 & H).
  apply bind_Ok in H as (f7 & H7 & H). apply bind_Ok in H as (splits & Hs & H).
  injection H as <-.
  apply for_in_cons_Ok in H7 as (f7' & H7 & H7'). injection H7' as <-.
  assert (Hin : ∀ t, bool_decide (t ∈ py "DTPMLNA") = true → t ∈ py "DTPMLNA")
    by (intros t; apply bool_decide_eq_true_1).
  assert (T1 : tagged (py "DTPMLNA") f1).
  { eapply append_first_tagged; [done|by apply Hin|by apply Forall_nil]. }
  assert (T2 : tagged (py "DTPMLNA") f2).
  { eapply append_first_tagged; [done|by apply Hin|done]. }
  assert (T3 : tagged (py "DTPMLNA") f3).
  { eapply append_first_tagged; [done|by apply Hin|done]. }
  assert (T4 : tagged (py "DTPMLNA") f4).
  { eapply append_first_tagged; [done|by apply Hin|done]. }
  assert (T5 : tagged (py "DTPMLNA") f5).
  { eapply append_first_tagged; [done|by apply Hin|done]. }
  assert (T6 : tagged (py "DTPMLNA") f6).
  { eapply append_first_tagged; [done|by apply Hin|done]. }
  eapply address_lines_tagged in H7 as [T7 [n7 ->]]; [|by apply Hin|done].
  apply append_first_prefix in H2 as [n2 ->].
  apply append_first_prefix in H3 as [n3 ->].
  apply append_first_prefix in H4 as [n4 ->].
  apply append_first_prefix in H5 as [n5 ->].
  apply append_first_prefix in H6 as [n6 ->].
  exists record, f1, (((((f1 ++ n2) ++ n3) ++ n4) ++ n5) ++ n6 ++ n7), splits.
  repeat split; try done.
  - exists (n2 ++ n3 ++ n4 ++ n5 ++ n6 ++ n7). by rewrite <- !app_assoc.
  - by rewrite <- !app_assoc in *.
  - by rewrite <- !app_assoc.
Qed.
End QifProperties.

Lemma split_tags_allowed t : t ∈ split_tags → t ∈ _ALLOWED_QIF_TAGS.
Proof.
  unfold split_tags. change (py "SEO$") with [83; 69; 79; 36]. intros Ht.
  repeat (apply elem_of_cons in Ht as [->|Ht];
          [by apply (bool_decide_unpack _); vm_compute|]).
  by apply elem_of_nil in Ht.
Qed.

Lemma fixed_tags_not_split t : t ∈ py "DTPMLNA" → t ∉ split_tags.
Proof.
  change (py "DTPMLNA") with [68; 84; 80; 77; 76; 78; 65]. intros Ht.
  repeat (apply elem_of_cons in Ht as [->|Ht];
          [by apply (bool_decide_unpack _); vm_compute|]).
  by apply elem_of_nil in Ht.
Qed.

Lemma first_parse_None {ucd : UnicodeData} raw patterns :
  Forall (λ pattern, strptime (strip raw) pattern = Raise ValueError) patterns →
  first_parse raw patterns = None.
Proof. induction 1 as [|p ps Hp _ IH]; simpl; [done|]. by rewrite Hp. Qed.

(** C7: the split lines come after every other line of the record and are
    index-aligned: for each index up to the longest of the [S], [E], [O],
    [$] lists, and at each index in the order [S], [E], [O], [$], the value
    present at that index is emitted, ASCII-folded and, for [$], normalised
    as an amount. *)
Theorem C7_split_lines_index_aligned {ucd : UnicodeData} (lines out : list (list N)) :
  result (_format_qif_record lines) = Ok out →
  ∃ fixed splits,
    out = fixed ++ splits
    ∧ Forall (λ l, ∃ t x, l = t :: x ∧ t ∉ split_tags) fixed
    ∧ Forall2 (split_line (λ t, values_of t lines)) (split_keys lines) splits.
Proof.
  intros (record & dated & fixed & splits & Hrecord & _ & _ & Hfixed & Hsplits & ->)
    %format_qif_record_Ok.
  pose proof (add_entries_get _ _ Hrecord) as Hget.
  assert (Hvalues : ∀ t, t ∈ split_tags → get record t = values_of t lines).
  { intros t Ht. by apply Hget, split_tags_allowed. }
  exists fixed, splits. split; [done|]. split.
  - eapply Forall_impl; [exact Hfixed|]. intros l (t & x & -> & Ht).
    exists t, x. split; [done|]. by apply fixed_tags_not_split.
  - apply (emit_indices _ (λ t, values_of t lines)) in Hsplits
      as (new & -> & Hnew); [|done].
    rewrite split_max_len_max in Hnew.
    replace ((λ t, length (get record t)) <$> split_tags)
      with ((λ t, length (values_of t lines)) <$> split_tags) in Hnew; [done|].
    apply list_fmap_ext. intros i t Ht%list_elem_of_lookup_2.
    by rewrite Hvalues.
Qed.

Lemma C7_split_lines_index_aligned_witness :
  ∃ fixed splits,
    [py "S1"; py "$10.00"; py "S2"; py "$20.00"] = fixed ++ splits
    ∧ Forall (λ l, ∃ t x, l = t :: x ∧ t ∉ split_tags) fixed
    ∧ Forall2 (split_line (ucd := Excerpt.latin1)
                 (λ t, values_of t [py "S1"; py "$10"; py "S2"; py "$20"]))
        (split_keys [py "S1"; py "$10"; py "S2"; py "$20"]) splits.
Proof.
  apply (@C7_split_lines_index_aligned Excerpt.latin1
           [py "S1"; py "$10"; py "S2"; py "$20"]).
  vm_compute. reflexivity.
Defined.

(** The keys of the claim's example: index 0 with [S] and [$], then index 1
    with [S] and [$]. *)
Example split_keys_of_two_splits :
  split_keys [py "S1"; py "$10"; py "S2"; py "$20"]
  = [(0, ch "S"); (0, ch "$"); (1, ch "S"); (1, ch "$")]%nat.
Proof. reflexivity. Qed.

(** C10: when the first [D] value of a record fails all five date
    patterns, the date line is [D] followed by that value, trimmed and
    otherwise untouched: it has not been through [_ascii], and keeps its
    non-ASCII characters, control characters and [^]. *)
Theorem C10_unparsed_date_line_verbatim {ucd : UnicodeData}
    (lines out : list (list N)) (v : list N) :
  head (values_of (ch "D") lines) = Some v →
  Forall (λ pattern, strptime (strip v) pattern = Raise ValueError) candidates →
  result (_format_qif_record lines) = Ok out →
  head out = Some (ch "D" :: strip v).
Proof.
  intros Hv Hfail
    (record & dated & fixed & splits & Hrecord & Hdated & [more ->] & _ & _ & ->)
    %format_qif_record_Ok.
  destruct (add_entries_get _ _ Hrecord (ch "D")) as [Hget Hnone].
  { by apply (bool_decide_unpack _); vm_compute. }
  apply append_first_Ok in Hdated.
  destruct (record !! ch "D") as [values|] eqn:Hrec.
  - destruct Hdated as (v' & x & Hv' & Hx & ->).
    unfold get in Hget. rewrite Hrec in Hget. simpl in Hget. subst values.
    rewrite Hv in Hv'. injection Hv' as <-.
    unfold _sanitize_date in Hx. rewrite (first_parse_None _ _ Hfail) in Hx.
    by injection Hx as <-.
  - destruct Hnone as [Hnone _]. rewrite Hnone in Hv by done. done.
Qed.

Lemma C10_unparsed_date_line_verbatim_witness :
  head [py "DJ" ++ [228; 110; 94; 7] ++ py "2023"; py "T1.00"]
  = Some (ch "D" :: strip ([32] ++ py "J" ++ [228; 110; 94; 7] ++ py "2023")).
Proof.
  apply (@C10_unparsed_date_line_verbatim Excerpt.latin1
           [py "D J" ++ [228; 110; 94; 7] ++ py "2023"; py "T1"]).
  - reflexivity.
  - repeat constructor.
  - vm_compute. reflexivity.
Defined.

(** ** The element tree *)
Lemma Element_induction (P : Element → Prop) :
  (∀ t x cs, Forall P cs → P (Elem t x cs)) → ∀ e, P e.
Proof.
  intros step. fix IH 1. intros [t x cs]. apply step.
  induction cs as [|c cs IHcs]; constructor; [apply IH|exact IHcs].
Qed.

Lemma descendants_unfold t x cs :
  descendants (Elem t x cs) = descendants_below 0 cs.
Proof. reflexivity. Qed.

Lemma descendants_below_node_at i cs p d :
  Forall (λ c, ∀ p d, (p, d) ∈ descendants c → node_at p c = Some d) cs →
  (p, d) ∈ descendants_below i cs →
  ∃ k p', p = (i + k)%nat :: p' ∧ (c ← cs !! k; node_at p' c) = Some d.
Proof.
  intros Hcs. revert i. induction Hcs as [|c cs Hc _ IH]; intros i; simpl.
  - by intros ?%elem_of_nil.
  - intros [[= -> ->]|[Hin|Hin]%elem_of_app]%elem_of_cons.
    + exists 0%nat, []. by rewrite Nat.add_0_r.
    + apply list_elem_of_fmap in Hin as ([p' d'] & [= -> ->] & Hin).
      exists 0%nat, p'. rewrite Nat.add_0_r. split; [done|]. simpl. by apply Hc.
    + apply IH in Hin as (k & p' & -> & Hk).
      exists (S k), p'. split; [f_equal; lia|done].
Qed.

(** A path found among the descendants leads to the node found. *)
Lemma descendants_node_at e p d :
  (p, d) ∈ descendants e → node_at p e = Some d.
Proof.
  revert p d. induction e as [t x cs IH] using Element_induction. intros p d.
  rewrite descendants_unfold.
  intros (k & p' & -> & Hk)%descendants_below_node_at; [|done].
  done.
Qed.

Lemma find_descendant_node_at t e p d :
  find_descendant t e = Some (p, d) → node_at p e = Some d ∧ tag d = t.
Proof.
  unfold find_descendant, findall_descendants.
  intros [l Hl]%head_Some.
  assert (Hin : (p, d) ∈ filter (λ d, tag d.2 = t) (descendants e))
    by (rewrite Hl; left).
  apply list_elem_of_filter in Hin as [Ht Hin]. split; [|done].
  by apply descendants_node_at.
Qed.

Lemma node_at_alter_at f p e :
  node_at p (alter_at f p e) = f <$> node_at p e.
Proof.
  revert e. induction p as [|i p IH]; intros e; simpl; [done|].
  rewrite list_lookup_alter_eq. destruct (children e !! i) as [c|]; simpl; [|done].
  apply IH.
Qed.

(** ** Finding and creating children *)
Lemma find_from_Some t i cs j c :
  find_from t i cs = Some (j, c) →
  (i ≤ j)%nat ∧ cs !! (j - i)%nat = Some c ∧ tag c = t.
Proof.
  revert i. induction cs as [|a cs IH]; intros i; simpl; [done|].
  case_decide as Ha.
  - intros [= <- <-]. by rewrite Nat.sub_diag.
  - intros (? & ? & ?)%IH. split; [lia|]. split; [|done].
    by replace (j - i)%nat with (S (j - S i)) by lia.
Qed.

Lemma find_from_snoc_ne t i cs c :
  tag c ≠ t → find_from t i (cs ++ [c]) = find_from t i cs.
Proof.
  intros Hc. revert i. induction cs as [|a cs IH]; intros i; simpl.
  - by rewrite decide_False.
  - by rewrite IH.
Qed.

Lemma find_from_snoc_new t i cs c :
  find_from t i cs = None → tag c = t →
  find_from t i (cs ++ [c]) = Some ((i + length cs)%nat, c).
Proof.
  intros Hnone Hc. revert i Hnone.
  induction cs as [|a cs IH]; intros i; simpl.
  - intros _. rewrite decide_True by done. by rewrite Nat.add_0_r.
  - case_decide; [done|]. intros Hnone. rewrite IH by done. f_equal. f_equal. lia.
Qed.

Lemma find_from_alter_other t f i k cs :
  (∀ c, tag (f c) = tag c) →
  (∀ c, cs !! k = Some c → tag c ≠ t) →
  find_from t i (alter f k cs) = find_from t i cs.
Proof.
  intros Hf. revert i k. induction cs as [|a cs IH]; intros i k Hk; [done|].
  destruct k as [|k]; simpl.
  - rewrite Hf. rewrite !decide_False; [done| |]; by apply Hk.
  - case_decide; [done|]. apply IH. intros c Hc. by apply Hk.
Qed.

Lemma find_from_alter_found t f i j c cs :
  (∀ c, tag (f c) = tag c) →
  find_from t i cs = Some (j, c) →
  find_from t i (alter f (j - i)%nat cs) = Some (j, f c).
Proof.
  intros Hf. revert i. induction cs as [|a cs IH]; intros i; simpl; [done|].
  case_decide as Ha.
  - intros [= <- <-]. rewrite Nat.sub_diag. simpl. by rewrite decide_True by (by rewrite Hf).
  - intros Hfind. pose proof (find_from_Some _ _ _ _ _ Hfind) as (? & _ & _).
    replace (j - i)%nat with (S (j - S i)) by lia. simpl.
    rewrite decide_False by done. by apply IH.
Qed.

Lemma find_alter_child_found t f j c e :
  (∀ c, tag (f c) = tag c) →
  find t e = Some (j, c) → find t (alter_child f j e) = Some (j, f c).
Proof.
  unfold find. intros Hf Hfind. simpl.
  rewrite <- (Nat.sub_0_r j) at 1. by apply find_from_alter_found.
Qed.

Lemma find_alter_child_other t t' f j c e :
  (∀ c, tag (f c) = tag c) →
  find t e = Some (j, c) → t' ≠ t →
  find t' (alter_child f j e) = find t' e.
Proof.
  unfold find. intros Hf (_ & Hc & Ht)%find_from_Some Hne. simpl.
  apply find_from_alter_other; [done|]. rewrite Nat.sub_0_r in Hc.
  intros c' Hc'. rewrite Hc in Hc'. injection Hc' as <-. congruence.
Qed.

Lemma tag_set_text x c : tag (set_text x c) = tag c.
Proof. done. Qed.

(** [find_or_create]: the child it returns is the first with its tag, the
    existing one when there is one; the other tags are found as before. *)
Lemma find_or_create_spec t e :
  ∃ c, find t (find_or_create t e).2 = Some ((find_or_create t e).1, c)
    ∧ tag (find_or_create t e).2 = tag e
    ∧ match find t e with
      | Some (j, old) => find_or_create t e = (j, e) ∧ c = old
      | None => c = Elem t None []
      end
    ∧ ∀ t', t' ≠ t → find t' (find_or_create t e).2 = find t' e.
Proof.
  unfold find_or_create. destruct (find t e) as [[j old]|] eqn:Hfind; simpl.
  - exists old. by rewrite Hfind.
  - exists (Elem t None []). split; [|split; [done|split; [done|]]].
    + unfold find, SubElement. simpl. by apply find_from_snoc_new.
    + intros t' Hne. unfold find, SubElement. simpl.
      apply find_from_snoc_ne. simpl. congruence.
Qed.

(** [ensure_child_text]: afterwards the first child with the tag holds the
    text, whether it was there before or not. *)
Lemma ensure_child_text_spec t x e :
  tag (ensure_child_text t x e) = tag e
  ∧ (∃ i c, find t (ensure_child_text t x e) = Some (i, c)
       ∧ text c = Some x
       ∧ ∀ j old, find t e = Some (j, old) → i = j ∧ c = set_text x old)
  ∧ ∀ t', t' ≠ t → find t' (ensure_child_text t x e) = find t' e.
Proof.
  unfold ensure_child_text.
  destruct (find_or_create_spec t e) as (c & Hfind & Htag & Hold & Hother).
  destruct (find_or_create t e) as [i e']. simpl in *.
  split; [done|]. split.
  - exists i, (set_text x c). split; [by apply find_alter_child_found|].
    split; [done|]. intros j old Hj. rewrite Hj in Hold.
    destruct Hold as [[= -> ->] ->]. done.
  - intros t' Hne. rewrite <- Hother by done.
    by eapply find_alter_child_other.
Qed.

(** [default_child_text]: a child that exists is left as it is; one that
    is missing is created with the text. *)
Lemma default_child_text_spec t x e :
  tag (default_child_text t x e) = tag e
  ∧ match find t e with
    | Some old => find t (default_child_text t x e) = Some old
    | None => findtext t (default_child_text t x e) = Some x
    end
  ∧ ∀ t', t' ≠ t → find t' (default_child_text t x e) = find t' e.
Proof.
  unfold default_child_text. destruct (find t e) as [old|] eqn:Hfind.
  - by rewrite Hfind.
  - split; [done|].
    assert (Hnew : find t (SubElement e t) = Some (length (children e), Elem t None [])).
    { unfold find, SubElement. simpl. by apply find_from_snoc_new. }
    split.
    + unfold findtext.
      by rewrite (find_alter_child_found _ _ _ _ _ (tag_set_text x) Hnew).
    + intros t' Hne.
      rewrite (find_alter_child_other _ _ _ _ _ _ (tag_set_text x) Hnew) by done.
      unfold find, SubElement. simpl. apply find_from_snoc_ne. simpl. congruence.
Qed.

(** ** [_ensure_balances] *)
Lemma text_or_empty_text c x : text c = Some x → text_or_empty c = x.
Proof. unfold text_or_empty. by intros ->. Qed.

Lemma ensure_balance_spec total dtend balance_tag stmtrs :
  (∃ i balance,
      find balance_tag (ensure_balance total dtend balance_tag stmtrs) = Some (i, balance)
      ∧ findtext (py "BALAMT") balance = Some total
      ∧ findtext (py "DTASOF") balance = Some dtend
      ∧ ∀ j old, find balance_tag stmtrs = Some (j, old) → i = j)
  ∧ ∀ t, t ≠ balance_tag →
      find t (ensure_balance total dtend balance_tag stmtrs) = find t stmtrs.
Proof.
  unfold ensure_balance.
  destruct (find_or_create_spec balance_tag stmtrs) as (c & Hfind & _ & Hold & Hother).
  destruct (find_or_create balance_tag stmtrs) as [b s1]. simpl in *.
  set (F := λ balance, ensure_child_text (py "DTASOF") dtend
                         (ensure_child_text (py "BALAMT") total balance)).
  assert (HF : ∀ c, tag (F c) = tag c).
  { intros c'. unfold F.
    destruct (ensure_child_text_spec (py "DTASOF") dtend
                (ensure_child_text (py "BALAMT") total c')) as [-> _].
    by destruct (ensure_child_text_spec (py "BALAMT") total c') as [-> _]. }
  split.
  - exists b, (F c). split; [by apply find_alter_child_found|].
    destruct (ensure_child_text_spec (py "BALAMT") total c)
      as (_ & (i & c1 & Hf1 & Ht1 & _) & _).
    destruct (ensure_child_text_spec (py "DTASOF") dtend
                (ensure_child_text (py "BALAMT") total c))
      as (_ & (j & c2 & Hf2 & Ht2 & _) & Hoth2).
    unfold findtext, F. rewrite Hoth2 by done. rewrite Hf1, Hf2. simpl.
    rewrite (text_or_empty_text _ _ Ht1), (text_or_empty_text _ _ Ht2).
    repeat split. intros j' old Hj'. rewrite Hj' in Hold.
    by destruct Hold as [[= -> _] _].
  - intros t Hne. rewrite <- Hother by done.
    by eapply find_alter_child_other.
Qed.

(** C2: [_ensure_balances] does not preserve a balance that is there.  A
    ledger balance that comes with its amount and its date loses both: the
    amount to the computed total, the date to the end date.  The guard
    [is None] covers the creation of the two children only; their text is
    assigned in every case. *)
Lemma C2_existing_balance_overwritten :
  ∃ today root,
    node_at [0; 0; 0]%nat root = Some (Elem (py "BALAMT") (Some (py "999.99")) [])
    ∧ node_at [0; 0; 1]%nat root = Some (Elem (py "DTASOF") (Some (py "20200101")) [])
    ∧ ∀ ucd : UnicodeData,
        node_at [0; 0; 0]%nat (@_ensure_balances ucd today root)
        = Some (Elem (py "BALAMT") (Some (py "0.00")) [])
        ∧ node_at [0; 0; 1]%nat (@_ensure_balances ucd today root)
          = Some (Elem (py "DTASOF") (Some (py "20261104")) []).
Proof.
  exists (py "20261104"),
    (Elem (py "OFX") None
       [Elem (py "STMTRS") None
          [Elem (py "LEDGERBAL") None
             [Elem (py "BALAMT") (Some (py "999.99")) [];
              Elem (py "DTASOF") (Some (py "20200101")) []]]]).
  split; [done|]. split; [done|]. intros ucd. split; vm_compute; reflexivity.
Qed.

(** The same on a statement with the transactions and the ledger balance
    of the bank download of the test suite, each text followed by its line
    feed: the balance of the bank, 5432.10, becomes the sum of the two
    transactions. *)
Example bank_download_balance_overwritten {ucd : UnicodeData} :
  let root :=
    Elem (py "OFX") None
      [Elem (py "STMTRS") None
         [Elem (py "BANKTRANLIST") None
            [Elem (py "DTSTART") (Some (py "20231201" ++ [10])) [];
             Elem (py "DTEND") (Some (py "20231215" ++ [10])) [];
             Elem (py "STMTTRN") None
               [Elem (py "TRNTYPE") (Some (py "DEBIT" ++ [10])) [];
                Elem (py "TRNAMT") (Some (py "-42.50" ++ [10])) []];
             Elem (py "STMTTRN") None
               [Elem (py "TRNTYPE") (Some (py "CREDIT" ++ [10])) [];
                Elem (py "TRNAMT") (Some (py "2500.00" ++ [10])) []]];
          Elem (py "LEDGERBAL") None
            [Elem (py "BALAMT") (Some (py "5432.10" ++ [10])) [];
             Elem (py "DTASOF") (Some (py "20231215" ++ [10])) []]]] in
  node_at [0; 1; 0]%nat root
  = Some (Elem (py "BALAMT") (Some (py "5432.10" ++ [10])) [])
  ∧ node_at [0; 1; 0]%nat (_ensure_balances (py "20231220") root)
    = Some (Elem (py "BALAMT") (Some (py "2457.50")) []).
Proof. split; vm_compute; reflexivity. Qed.

(** What [_ensure_balances] makes of every tree: nothing without a
    statement response; with one, afterwards it has a ledger-balance and an
    available-balance child -- the existing one, at its place, when there was
    one -- and the first balance-amount child of each holds the computed
    two-decimal total and the first as-of-date child holds the statement
    end date, whether or not these children were present, and whatever
    they held. *)
Lemma ensure_balances_sets_both {ucd : UnicodeData} (today : list N) (root : Element) :
  match find_descendant (py "STMTRS") root with
  | None => _ensure_balances today root = root
  | Some (path, stmtrs) =>
      ∃ stmtrs',
        node_at path (_ensure_balances today root) = Some stmtrs'
        ∧ Forall (λ balance_tag,
            ∃ i balance,
              find balance_tag stmtrs' = Some (i, balance)
              ∧ findtext (py "BALAMT") balance
                = Some (format_2f (statement_total stmtrs))
              ∧ findtext (py "DTASOF") balance = Some (statement_end today stmtrs)
              ∧ ∀ j old, find balance_tag stmtrs = Some (j, old) → i = j)
          [py "LEDGERBAL"; py "AVAILBAL"]
  end.
Proof.
  unfold _ensure_balances.
  destruct (find_descendant (py "STMTRS") root) as [[path stmtrs]|] eqn:Hfind; [|done].
  apply find_descendant_node_at in Hfind as [Hnode _].
  rewrite node_at_alter_at, Hnode. simpl. eexists. split; [done|].
  set (total := format_2f (statement_total stmtrs)).
  set (dtend := statement_end today stmtrs).
  destruct (ensure_balance_spec total dtend (py "LEDGERBAL") stmtrs)
    as [(i1 & b1 & Hf1 & Ha1 & Hd1 & Hi1) Ho1].
  destruct (ensure_balance_spec total dtend (py "AVAILBAL")
              (ensure_balance total dtend (py "LEDGERBAL") stmtrs))
    as [(i2 & b2 & Hf2 & Ha2 & Hd2 & Hi2) Ho2].
  repeat apply Forall_cons_2; [| |apply Forall_nil_2].
  - exists i1, b1. by rewrite Ho2.
  - exists i2, b2. split; [done|]. split; [done|]. split; [done|].
    intros j old Hj. apply (Hi2 j old). by rewrite Ho1.
Qed.

(** ** [_ensure_fi_info] *)

(** C3: [_ensure_fi_info] does not preserve an institution-vendor-id that
    is there: it is overwritten with the bank-id (here the placeholder, for
    want of one).  [ORG] and [FID], a few lines above, are written only
    when absent; the text of [INTU.BID] is assigned in every case. *)
Lemma C3_vendor_id_overwritten :
  ∃ root,
    node_at [0; 0]%nat root = Some (Elem (py "INTU.BID") (Some (py "999")) [])
    ∧ node_at [0; 0]%nat (_ensure_fi_info root)
      = Some (Elem (py "INTU.BID") (Some (py "000000000")) []).
Proof.
  exists (Elem (py "OFX") None
            [Elem (py "SONRS") None [Elem (py "INTU.BID") (Some (py "999")) []]]).
  split; [done|]. vm_compute. reflexivity.
Qed.

(** What [_ensure_fi_info] makes of every tree: nothing without a sign-on
    response; with one, afterwards it has a financial-institution block in
    which an organization or institution-id that was present is the one
    found, untouched, and one that was absent holds the bank-id; and its
    institution-vendor-id holds the bank-id, whether or not one was
    present, and whatever it held. *)
Lemma ensure_fi_info_sets_defaults (root : Element) :
  match find_descendant (py "SONRS") root with
  | None => _ensure_fi_info root = root
  | Some (path, sonrs) =>
      ∃ sonrs',
        node_at path (_ensure_fi_info root) = Some sonrs'
        ∧ (∃ i fi',
             find (py "FI") sonrs' = Some (i, fi')
             ∧ Forall (λ t,
                 match fi ← find (py "FI") sonrs; find t fi.2 with
                 | Some old => find t fi' = Some old
                 | None => findtext t fi' = Some (bank_id_of root)
                 end) [py "ORG"; py "FID"])
        ∧ ∃ i b,
            find (py "INTU.BID") sonrs' = Some (i, b)
            ∧ text b = Some (bank_id_of root)
  end.
Proof.
  unfold _ensure_fi_info.
  destruct (find_descendant (py "SONRS") root) as [[path sonrs]|] eqn:Hfind; [|done].
  apply find_descendant_node_at in Hfind as [Hnode _].
  rewrite node_at_alter_at, Hnode. simpl. eexists. split; [done|].
  set (bank_id := bank_id_of root).
  destruct (find_or_create_spec (py "FI") sonrs) as (c & Hfi & _ & Hold & _).
  destruct (find_or_create (py "FI") sonrs) as [f s1]. simpl in *.
  set (G := λ fi, default_child_text (py "FID") bank_id
                   (default_child_text (py "ORG") bank_id fi)).
  destruct (default_child_text_spec (py "ORG") bank_id c) as (Htag1 & Horg & Hoth1).
  destruct (default_child_text_spec (py "FID") bank_id
              (default_child_text (py "ORG") bank_id c)) as (Htag2 & Hfid & Hoth2).
  assert (HG : ∀ c, tag (G c) = tag c).
  { intros c'. unfold G.
    destruct (default_child_text_spec (py "FID") bank_id
                (default_child_text (py "ORG") bank_id c')) as [-> _].
    by destruct (default_child_text_spec (py "ORG") bank_id c') as [-> _]. }
  pose proof (find_alter_child_found _ _ _ _ _ HG Hfi) as Hfi'.
  destruct (ensure_child_text_spec (py "INTU.BID") bank_id (alter_child G f s1))
    as (_ & (i & b & Hbid & Hb & _) & Hoth3).
  split.
  - exists f, (G c). split; [by rewrite Hoth3|].
    assert (Hc : ∀ t, (fi ← find (py "FI") sonrs; find t fi.2) = find t c).
    { intros t. destruct (find (py "FI") sonrs) as [[j old]|]; simpl.
      - by destruct Hold as [_ ->].
      - by subst c. }
    repeat apply Forall_cons_2; [| |apply Forall_nil_2]; rewrite Hc; unfold G.
    + unfold findtext. rewrite Hoth2 by done.
      destruct (find (py "ORG") c); done.
    + rewrite Hoth1 in Hfid by done. done.
  - exists i, b. done.
Qed.

(** ** Serialisation *)
Section SerialisationProperties.
Context {ucd : UnicodeData}.

Lemma _walk_unfold t x cs lines :
  _walk (Elem t x cs) lines
  = (x ← _sanitize_ofx_value (upper t) (default [] x);
     match cs with
     | _ :: _ =>
         let lines := lines ++ [py "<" ++ upper t ++ py ">"] in
         let lines := match x with [] => lines | _ :: _ => lines ++ [x] end in
         lines ← walk_children cs lines;
         mret (lines ++ [py "</" ++ upper t ++ py ">"])
     | [] =>
         match x with
         | _ :: _ => mret (lines ++ [py "<" ++ upper t ++ py ">" ++ x])
         | [] => mret lines
         end
     end).
Proof. reflexivity. Qed.

Lemma walk_children_cons child cs lines :
  walk_children (child :: cs) lines
  = (lines ← _walk child lines; walk_children cs lines).
Proof. reflexivity. Qed.

Lemma result_walk_children_app cs1 cs2 lines :
  result (walk_children (cs1 ++ cs2) lines)
  = match result (walk_children cs1 lines) with
    | Ok lines' => result (walk_children cs2 lines')
    | Raise e => Raise e
    end.
Proof.
  revert lines. induction cs1 as [|c cs1 IH]; intros lines; [done|].
  rewrite <- app_comm_cons, !walk_children_cons, !result_bind.
  destruct (result (_walk c lines)); [apply IH|done].
Qed.

(** The value of a date element: its digits, or the trimmed text when it
    has no digit; a diagnostic under eight digits. *)
Lemma sanitize_date_tag t value :
  upper t = t → t ≠ py "TRNAMT" → t ∈ date_tags →
  _sanitize_ofx_value t value
  = Run (if decide (strip value ≠ []
                    ∧ length (filter (λ c, is_digit c) (strip value)) < 8)%nat
         then [Date_like_tag_unexpected t (strip value)] else [])
        (Ok match filter (λ c, is_digit c) (strip value) with
            | [] => strip value
            | _ :: _ => filter (λ c, is_digit c) (strip value)
            end).
Proof.
  intros Hupper Hne Hin. unfold _sanitize_ofx_value.
  destruct (strip value) as [|c raw] eqn:Hraw.
  - rewrite decide_False by (by intros [? _]). done.
  - rewrite Hupper, decide_False, decide_True by done.
    set (digits := filter _ (c :: raw)).
    destruct (decide (length digits < 8)%nat).
    + by rewrite decide_True by (split; done).
    + by rewrite decide_False by (intros [_ ?]; done).
Qed.
End SerialisationProperties.

(** C6, as stated, fails: a date element whose text has no digit at all is
    emitted with that text, not with the empty string of its digits. *)
Lemma C6_date_without_digits_kept :
  ∃ value, ∀ ucd : UnicodeData,
    ∃ out,
      result (@_sanitize_ofx_value ucd (py "DTPOSTED") value) = Ok out
      ∧ out ≠ filter (λ c, is_digit c) (strip value)
      ∧ ¬ Forall (λ c, is_digit c = true) out
      ∧ result (@_ofx_element_to_sgml ucd (Elem (py "DTPOSTED") (Some value) []))
        = Ok [py "<DTPOSTED>" ++ out].
Proof.
  exists (py "abc"). intros ucd. exists (py "abc").
  split; [by vm_compute|]. split; [by vm_compute|]. split; [|by vm_compute].
  intros [H _]%Forall_cons_1. by vm_compute in H.
Qed.

(** C6, amended: for every element named DTPOSTED, DTSTART, DTEND or DTASOF
    the value emitted is the trimmed text with every non-digit removed when
    that leaves a digit, and the trimmed text itself when it has no digit;
    fewer than eight digits in a non-blank text log a diagnostic, and the
    value is emitted all the same (a leaf with a blank text is not
    emitted). *)
Theorem C6_date_element_value {ucd : UnicodeData} (value : list N) :
  let raw := strip value in
  let digits := filter (λ c, is_digit c) raw in
  let emitted := match digits with [] => raw | _ :: _ => digits end in
  Forall (λ t,
      _sanitize_ofx_value t value
      = Run (if decide (raw ≠ [] ∧ length digits < 8)%nat
             then [Date_like_tag_unexpected t raw] else [])
            (Ok emitted)
      ∧ ∀ lines,
          result (_walk (Elem t (Some value) []) lines)
          = Ok match emitted with
               | [] => lines
               | _ :: _ => lines ++ [py "<" ++ t ++ py ">" ++ emitted]
               end)
    date_tags.
Proof.
  intros raw digits emitted.
  assert (Hall : Forall (λ t, upper t = t ∧ t ≠ py "TRNAMT" ∧ t ∈ date_tags) date_tags).
  { repeat apply Forall_cons_2; [| | | |apply Forall_nil_2];
      (split; [done|]); (split; [done|]);
      by apply (bool_decide_unpack _); vm_compute. }
  eapply Forall_impl; [exact Hall|]. intros t (Hupper & Hne & Hin).
  pose proof (sanitize_date_tag t value Hupper Hne Hin) as Hvalue.
  split; [exact Hvalue|]. intros lines.
  rewrite _walk_unfold, result_bind, Hupper. simpl. rewrite Hvalue. simpl.
  fold raw digits. fold emitted. by destruct emitted.
Qed.

Lemma result_walk_branch {ucd : UnicodeData} t x cs lines :
  cs ≠ [] →
  result (_walk (Elem t x cs) lines)
  = match result (_sanitize_ofx_value (upper t) (default [] x)) with
    | Ok x =>
        let lines := lines ++ [py "<" ++ upper t ++ py ">"] in
        let lines := match x with [] => lines | _ :: _ => lines ++ [x] end in
        match result (walk_children cs lines) with
        | Ok lines => Ok (lines ++ [py "</" ++ upper t ++ py ">"])
        | Raise e => Raise e
        end
    | Raise e => Raise e
    end.
Proof.
  intros Hcs. rewrite _walk_unfold, result_bind.
  destruct (result (_sanitize_ofx_value (upper t) (default [] x))); [|done].
  destruct cs; [done|]. by rewrite result_bind.
Qed.

(** C8: a leaf element whose sanitized text is empty leaves no trace in the
    output.  Walking it appends nothing, and an element that has it among
    its children is serialised exactly as it would be without it: no
    opening tag, no closing tag and no empty line stand for the leaf. *)
Theorem C8_empty_leaf_omitted {ucd : UnicodeData} (t : list N) (x : option (list N)) :
  result (_sanitize_ofx_value (upper t) (default [] x)) = Ok [] →
  (∀ lines, result (_walk (Elem t x []) lines) = Ok lines)
  ∧ ∀ t' x' before after lines,
      before ++ after ≠ [] →
      result (_walk (Elem t' x' (before ++ Elem t x [] :: after)) lines)
      = result (_walk (Elem t' x' (before ++ after)) lines).
Proof.
  intros Hempty.
  assert (Hleaf : ∀ lines, result (_walk (Elem t x []) lines) = Ok lines).
  { intros lines. by rewrite _walk_unfold, result_bind, Hempty. }
  split; [exact Hleaf|]. intros t' x' before after lines Hne.
  rewrite !result_walk_branch; [|done|by destruct before].
  destruct (result (_sanitize_ofx_value (upper t') (default [] x'))); [|done].
  simpl. rewrite !result_walk_children_app.
  destruct (result (walk_children before _)) as [lines'|]; [|done].
  by rewrite walk_children_cons, result_bind, Hleaf.
Qed.

Lemma C8_empty_leaf_omitted_witness :
  (∀ lines,
     result (@_walk Excerpt.latin1 (Elem (py "NAME") (Some (py "   ")) []) lines)
     = Ok lines)
  ∧ ∀ t' x' before after lines,
      before ++ after ≠ [] →
      result (@_walk Excerpt.latin1
                (Elem t' x' (before ++ Elem (py "NAME") (Some (py "   ")) [] :: after))
                lines)
      = result (@_walk Excerpt.latin1 (Elem t' x' (before ++ after)) lines).
Proof.
  apply (@C8_empty_leaf_omitted Excerpt.latin1 (py "NAME") (Some (py "   "))).
  vm_compute. reflexivity.
Defined.

(** * Further properties *)

(** ** [_escape_ampersands] *)
Lemma startswith_app (e s : list N) : startswith e (e ++ s) = true.
Proof. induction e as [|a e IH]; simpl; [done|]. by rewrite N.eqb_refl. Qed.

Lemma startswith_true (e s : list N) :
  startswith e s = true → ∃ s', s = e ++ s'.
Proof.
  revert s. induction e as [|a e IH]; intros s; simpl; [by exists s|].
  destruct s as [|b s]; [done|].
  intros [->%N.eqb_eq [s' ->]%IH]%andb_prop. by exists s'.
Qed.

Lemma escape_ampersands_app (p s : list N) :
  Forall (λ c, c ≠ ch "&") p →
  _escape_ampersands (p ++ s) = p ++ _escape_ampersands s.
Proof.
  induction 1 as [|c p Hc _ IH]; simpl; [done|].
  apply N.eqb_neq in Hc. by rewrite Hc, IH.
Qed.

Lemma starts_entity_split (s : list N) :
  starts_entity s = true →
  ∃ e s', e ∈ entities ∧ Forall (λ c, c ≠ ch "&") e ∧ s = e ++ s'.
Proof.
  unfold starts_entity. rewrite existsb_exists.
  intros (e & He%list_elem_of_In & [s' ->]%startswith_true).
  exists e, s'. split; [done|]. split; [|done].
  revert He. unfold entities.
  intros He. repeat (apply elem_of_cons in He as [->|He];
    [by repeat constructor|]).
  by apply elem_of_nil in He.
Qed.

Lemma starts_entity_intro (e s : list N) :
  e ∈ entities → starts_entity (e ++ s) = true.
Proof.
  intros He. unfold starts_entity. apply existsb_exists.
  exists e. split; [by apply list_elem_of_In|apply startswith_app].
Qed.

Lemma starts_entity_escape (s : list N) :
  starts_entity s = true → starts_entity (_escape_ampersands s) = true.
Proof.
  intros (e & s' & He & Hamp & ->)%starts_entity_split.
  rewrite escape_ampersands_app by done. by apply starts_entity_intro.
Qed.

Lemma escaped_escape_ampersands (text : list N) :
  escaped (_escape_ampersands text) = true.
Proof.
  induction text as [|c text IH]; simpl; [done|].
  destruct (N.eqb_spec c (ch "&")) as [->|Hc]; simpl.
  - destruct (starts_entity text) eqn:He; simpl.
    + by rewrite (starts_entity_escape _ He), IH.
    + exact IH.
  - apply N.eqb_neq in Hc. by rewrite Hc.
Qed.

Lemma escape_ampersands_fixed (text : list N) :
  escaped text = true → _escape_ampersands text = text.
Proof.
  induction text as [|c text IH]; simpl; [done|].
  intros [Hc Ht]%andb_prop. rewrite (IH Ht).
  destruct (c =? ch "&"); simpl in *; [by rewrite Hc|done].
Qed.

(** X1: after [_escape_ampersands] no bare ampersand is left: every [&] of
    the result starts one of [&amp;], [&lt;], [&gt;], [&apos;], [&quot;]. *)
Theorem X1_no_bare_ampersand (text : list N) :
  escaped (_escape_ampersands text) = true.
Proof. apply escaped_escape_ampersands. Qed.

(** X2: [_escape_ampersands] is idempotent: the entities it writes, and
    those that were there, are not escaped a second time. *)
Theorem X2_escape_ampersands_idempotent (text : list N) :
  _escape_ampersands (_escape_ampersands text) = _escape_ampersands text.
Proof. apply escape_ampersands_fixed, escaped_escape_ampersands. Qed.

(** ** [_ascii], once more *)
Lemma replace_char_absent a b (s : list N) :
  a ∉ s → replace [a] [b] s = s.
Proof.
  unfold replace. induction s as [|x s IH]; simpl; [done|].
  intros [Hx Hs]%not_elem_of_cons.
  destruct (N.eqb_spec a x) as [->|_]; [done|]. simpl. by rewrite IH.
Qed.

Lemma single_spaced_weaken b (s : list N) :
  single_spaced b s → single_spaced false s.
Proof.
  destruct s as [|c s]; simpl; [done|].
  destruct (isspace c); [|done]. intros (? & _ & ?). done.
Qed.

Lemma single_spaced_collapse_ws b (s : list N) :
  single_spaced b (collapse_ws b s).
Proof.
  revert b. induction s as [|c s IH]; intros b; simpl; [done|].
  destruct (isspace c) eqn:Hc.
  - destruct b; [apply IH|]. simpl. split; [done|]. split; [done|]. apply IH.
  - simpl. rewrite Hc. apply IH.
Qed.

Lemma collapse_ws_fixed b (s : list N) :
  single_spaced b s → collapse_ws b s = s.
Proof.
  revert b. induction s as [|c s IH]; intros b; simpl; [done|].
  destruct (isspace c).
  - intros (-> & -> & Hs). by rewrite IH.
  - intros Hs. by rewrite IH.
Qed.

Lemma single_spaced_app_l b (s1 s2 : list N) :
  single_spaced b (s1 ++ s2) → single_spaced b s1.
Proof.
  revert b. induction s1 as [|c s1 IH]; intros b; simpl; [done|].
  destruct (isspace c).
  - intros (? & ? & ?%IH). done.
  - apply IH.
Qed.

Lemma drop_while_suffix p (s : list N) : ∃ t, s = t ++ drop_while p s.
Proof.
  induction s as [|c s [t IH]]; simpl; [by exists []|].
  destruct (p c); [|by exists []]. exists (c :: t). by rewrite <- app_comm_cons, <- IH.
Qed.

Lemma single_spaced_drop_while b (s : list N) :
  single_spaced b s → single_spaced false (drop_while isspace s).
Proof.
  revert b. induction s as [|c s IH]; intros b; simpl; [done|].
  destruct (isspace c) eqn:Hc.
  - intros (_ & _ & Hs). by eapply IH.
  - intros Hs. simpl. by rewrite Hc.
Qed.

Lemma rstrip_prefix (s : list N) : ∃ t, s = rstrip s ++ t.
Proof.
  unfold rstrip. destruct (drop_while_suffix isspace (reverse s)) as [t Ht].
  exists (reverse t). rewrite <- reverse_app, <- Ht. by rewrite reverse_involutive.
Qed.

Lemma single_spaced_strip (s : list N) :
  single_spaced false s → single_spaced false (strip s).
Proof.
  intros Hs%single_spaced_drop_while. unfold strip, lstrip.
  destruct (rstrip_prefix (drop_while isspace s)) as [t Ht].
  rewrite Ht in Hs. by apply single_spaced_app_l in Hs.
Qed.

Lemma filter_all (P : N → Prop) `{!∀ c, Decision (P c)} (s : list N) :
  Forall P s → filter P s = s.
Proof.
  induction 1 as [|c s Hc _ IH]; [done|]. by rewrite filter_cons_True, IH.
Qed.

Section AsciiAgain.
Context {ucd : UnicodeData}.

Lemma flat_map_decompose_ascii (s : list N) :
  Forall (λ c, is_ascii c = true) s → flat_map decompose s = s.
Proof.
  induction 1 as [|c s Hc _ IH]; simpl; [done|].
  rewrite IH. unfold decompose. by rewrite Hc.
Qed.

Lemma canonical_order_ascii (s : list N) :
  Forall (λ c, is_ascii c = true) s → canonical_order s = s.
Proof.
  intros Hs. unfold canonical_order.
  assert (Hfold : ∀ placed,
    foldl (λ placed c, if combining c =? 0 then c :: placed else sink c placed)
      placed s = reverse s ++ placed).
  { induction Hs as [|c s Hc _ IH]; intros placed; simpl; [done|].
    assert (Hzero : combining c = 0) by (unfold combining; by rewrite Hc).
    rewrite Hzero. simpl. by rewrite IH, reverse_cons, <- app_assoc. }
  by rewrite Hfold, app_nil_r, reverse_involutive.
Qed.

Lemma ascii_single_spaced text : single_spaced false (_ascii text).
Proof. unfold _ascii. apply single_spaced_strip, single_spaced_collapse_ws. Qed.

Lemma ascii_fixed (s : list N) :
  Forall (λ c, is_ascii c = true ∧ c ≠ ch "^" ∧ c ≠ 10 ∧ c ≠ 13) s →
  single_spaced false s → strip s = s → _ascii s = s.
Proof.
  intros Hs Hsp Hstrip. unfold _ascii, normalize_NFKD, encode_ascii_ignore.
  cbv zeta.
  assert (Hascii : Forall (λ c, is_ascii c = true) s)
    by (eapply Forall_impl; [exact Hs|]; by intros c [? _]).
  rewrite Forall_forall in Hs.
  assert (H13 : 13 ∉ s) by (intros Hin; by destruct (Hs _ Hin) as (_ & _ & _ & ?)).
  assert (H10 : 10 ∉ s) by (intros Hin; by destruct (Hs _ Hin) as (_ & _ & ? & _)).
  assert (Hcaret : ch "^" ∉ s) by (intros Hin; by destruct (Hs _ Hin) as (_ & ? & _ & _)).
  rewrite flat_map_decompose_ascii, canonical_order_ascii by done.
  rewrite filter_all by done.
  rewrite (replace_char_absent 13), (replace_char_absent 10),
    (replace_char_absent (ch "^")) by done.
  by rewrite collapse_ws_fixed.
Qed.
End AsciiAgain.

(** X3: [_ascii] is idempotent, whatever the Unicode tables: text that has
    been folded once passes through a second folding unchanged. *)
Theorem X3_ascii_idempotent {ucd : UnicodeData} (text : list N) :
  _ascii (_ascii text) = _ascii text.
Proof.
  apply ascii_fixed.
  - apply Forall_forall. intros c Hc.
    apply elem_of_ascii in Hc as (? & ? & ? & ? & _). done.
  - apply ascii_single_spaced.
  - unfold _ascii. apply strip_idemp.
Qed.

Lemma strip_ends (s : list N) :
  head (strip s) ≠ Some 32 ∧ last (strip s) ≠ Some 32.
Proof.
  split.
  - pose proof (rstrip_no_leading_space _ (drop_while_no_leading_space s)) as H.
    unfold strip, lstrip. destruct (rstrip (drop_while isspace s)); [done|].
    simpl in *. intros [= ->]. done.
  - unfold strip, rstrip. rewrite last_reverse.
    pose proof (drop_while_no_leading_space (reverse (lstrip s))) as H.
    destruct (drop_while isspace (reverse (lstrip s))); [done|].
    simpl in *. intros [= ->]. done.
Qed.

(** X4: the text [_ascii] returns is trimmed and single-spaced: it neither
    starts nor ends with a space, its only blanks are spaces, and no space
    follows a space. *)
Theorem X4_ascii_trimmed_single_spaced {ucd : UnicodeData} (text : list N) :
  head (_ascii text) ≠ Some 32 ∧ last (_ascii text) ≠ Some 32
  ∧ single_spaced false (_ascii text).
Proof.
  split; [|split].
  - unfold _ascii. apply strip_ends.
  - unfold _ascii. apply strip_ends.
  - apply ascii_single_spaced.
Qed.

(** ** [_format_qif_record], as a whole *)
Lemma result_trim {ucd : UnicodeData} (text : list N) limit :
  result (_trim text limit) = Ok (take limit text).
Proof.
  unfold _trim. case_decide; simpl; [|done]. by rewrite take_ge.
Qed.

Section QifStructure.
Context {ucd : UnicodeData}.

Lemma allowed_tag t : t ∈ py "DTPMLNASEO$^" → t ∈ _ALLOWED_QIF_TAGS.
Proof. unfold _ALLOWED_QIF_TAGS. by rewrite elem_of_list_to_set. Qed.

(** What the record holds for an allowed tag. *)
Lemma record_lookup lines record t :
  result (for_in lines add_entry ∅) = Ok record →
  t ∈ _ALLOWED_QIF_TAGS →
  record !! t = match values_of t lines with
                | [] => None
                | vs => Some vs
                end.
Proof.
  intros Hrecord Ht.
  destruct (add_entries lines ∅) as (record' & Hr & Hget).
  rewrite Hr in Hrecord. injection Hrecord as ->.
  rewrite (Hget t Ht), lookup_empty. unfold get. rewrite lookup_empty.
  by destruct (values_of t lines).
Qed.

Lemma append_first_field lines record t f otherwise formatted out :
  result (for_in lines add_entry ∅) = Ok record →
  t ∈ _ALLOWED_QIF_TAGS →
  result (append_first record t f otherwise formatted) = Ok out →
  match head (values_of t lines) with
  | Some v => ∃ x, result (f v) = Ok x ∧ out = formatted ++ [t :: x]
  | None => out = formatted
  end.
Proof.
  intros Hrecord Ht Hout%append_first_Ok.
  rewrite (record_lookup _ _ _ Hrecord Ht) in Hout.
  destruct (values_of t lines) as [|v vs]; simpl in *; [done|].
  destruct Hout as (v' & x & [= <-] & Hx & ->). eauto.
Qed.

Lemma append_first_pure lines record t f g otherwise formatted out :
  (∀ v, result (f v) = Ok (g v)) →
  result (for_in lines add_entry ∅) = Ok record →
  t ∈ _ALLOWED_QIF_TAGS →
  result (append_first record t f otherwise formatted) = Ok out →
  out = formatted ++ field lines t g.
Proof.
  intros Hf Hrecord Ht Hout.
  apply (append_first_field lines) in Hout; [|done..].
  unfold field. destruct (head (values_of t lines)) as [v|].
  - destruct Hout as (x & Hx & ->). rewrite Hf in Hx. by injection Hx as <-.
  - by rewrite app_nil_r.
Qed.

Lemma address_lines_Ok values t formatted out :
  result (for_in values (λ value formatted,
            x ← _trim (_ascii value) _ADDRESS_LIMIT;
            mret (formatted ++ [t :: x])) formatted) = Ok out →
  out = formatted ++ ((λ v, t :: take _ADDRESS_LIMIT (_ascii v)) <$> values).
Proof.
  revert formatted. induction values as [|v values IH]; intros formatted Hr.
  - injection Hr as <-. by rewrite app_nil_r.
  - apply for_in_cons_Ok in Hr as (s' & (x & Hx & Hs')%bind_Ok & Hr).
    rewrite result_trim in Hx. injection Hx as <-. injection Hs' as <-.
    apply IH in Hr as ->. by rewrite <- app_assoc.
Qed.

(** The parts of the output of a returning [_format_qif_record], in terms
    of the lines it was given. *)
Lemma format_qif_record_parts lines out :
  result (_format_qif_record lines) = Ok out →
  ∃ d t splits,
    out = d ++ t
          ++ field lines (ch "P") (λ v, take _PAYEE_LIMIT (_ascii v))
          ++ field lines (ch "M") (λ v, take _MEMO_LIMIT (_ascii v))
          ++ field lines (ch "L") _ascii
          ++ field lines (ch "N") _ascii
          ++ ((λ v, ch "A" :: take _ADDRESS_LIMIT (_ascii v)) <$> values_of (ch "A") lines)
          ++ splits
    ∧ match head (values_of (ch "D") lines) with
      | Some v => ∃ x, result (_sanitize_date v) = Ok x ∧ d = [ch "D" :: x]
      | None => d = []
      end
    ∧ match head (values_of (ch "T") lines) with
      | Some v => ∃ x, result (_sanitize_amount v) = Ok x ∧ t = [ch "T" :: x]
      | None => t = []
      end
    ∧ Forall2 (split_line (λ t, values_of t lines)) (split_keys lines) splits.
Proof.
  unfold _format_qif_record.
  intros (record & Hrecord & H)%bind_Ok.
  apply bind_Ok in H as (f1 & H1 & H). apply bind_Ok in H as (f2 & H2 & H).
  apply bind_Ok in H as (f3 & H3 & H). apply bind_Ok in H as (f4 & H4 & H).
  apply bind_Ok in H as (f5 & H5 & H). apply bind_Ok in H as (f6 & H6 & H).
  apply bind_Ok in H as (f7 & H7 & H). apply bind_Ok in H as (splits & Hs & H).
  injection H as <-.
  apply for_in_cons_Ok in H7 as (f7' & H7 & H7'). injection H7' as <-.
  assert (Hin : ∀ t, bool_decide (t ∈ py "DTPMLNASEO$^") = true → t ∈ _ALLOWED_QIF_TAGS)
    by (intros t Ht%bool_decide_eq_true_1; by apply allowed_tag).
  pose proof (add_entries_get _ _ Hrecord) as Hget.
  apply (append_first_field lines) in H1; [|done|by apply Hin].
  apply (append_first_field lines) in H2; [|done|by apply Hin].
  apply (append_first_pure lines _ _ _ (λ v, take _PAYEE_LIMIT (_ascii v))) in H3;
    [|intros; apply result_trim|done|by apply Hin].
  apply (append_first_pure lines _ _ _ (λ v, take _MEMO_LIMIT (_ascii v))) in H4;
    [|intros; apply result_trim|done|by apply Hin].
  apply (append_first_pure lines _ _ _ _ascii) in H5; [|done|done|by apply Hin].
  apply (append_first_pure lines _ _ _ _ascii) in H6; [|done|done|by apply Hin].
  apply address_lines_Ok in H7.
  destruct (Hget (ch "A")) as [HA _]; [by apply Hin|]. rewrite HA in H7.
  assert (Hvalues : ∀ t, t ∈ split_tags → get record t = values_of t lines).
  { intros t Ht. by apply Hget, split_tags_allowed. }
  apply (emit_indices _ (λ t, values_of t lines)) in Hs as (new & -> & Hnew); [|done].
  rewrite split_max_len_max in Hnew.
  replace ((λ t, length (get record t)) <$> split_tags)
    with ((λ t, length (values_of t lines)) <$> split_tags) in Hnew
    by (apply list_fmap_ext; intros i t Ht%list_elem_of_lookup_2; by rewrite Hvalues).
  exists f1, (drop (length f1) f2), new.
  assert (Hf2 : f2 = f1 ++ drop (length f1) f2).
  { destruct (head (values_of (ch "T") lines)).
    - destruct H2 as (x & _ & ->). by rewrite drop_app_length.
    - subst f2. by rewrite drop_all, app_nil_r. }
  split; [|split; [|split; [|done]]].
  - subst f7' f6 f5 f4 f3. rewrite Hf2 at 1. by rewrite <- !app_assoc.
  - destruct (head (values_of (ch "D") lines)); [|done].
    destruct H1 as (x & Hx & ->). eauto.
  - destruct (head (values_of (ch "T") lines)).
    + destruct H2 as (x & Hx & ->). rewrite drop_app_length. eauto.
    + subst f2. by rewrite drop_all.
Qed.
End QifStructure.

(** ** [_sanitize_amount], whatever it is given *)
Lemma format_2f_shape x :
  matches_amount (format_2f x) = true
  ∨ format_2f x = py "inf" ∨ format_2f x = py "-inf" ∨ format_2f x = py "nan".
Proof.
  destruct (isfinite x) eqn:Hfin; [left; by apply format_2f_matches|right].
  destruct x as [neg|[|]| |neg m e]; try done; auto.
Qed.

Lemma drop_while_all_false (p : N → bool) (s : list N) :
  match s with c :: _ => p c = false | [] => True end → drop_while p s = s.
Proof. destruct s as [|c s]; [done|]. simpl. by intros ->. Qed.

Lemma span_digits_eq s ds r : span_digits s = (ds, r) → s = ds ++ r.
Proof.
  revert ds r. induction s as [|c s IH]; intros ds r; simpl.
  - by intros [= <- <-].
  - destruct (is_digit c); [|by intros [= <- <-]].
    destruct (span_digits s) as [ds' r']. intros [= <- <-].
    by rewrite (IH ds' r' eq_refl).
Qed.

Lemma amount_char_cases c :
  amount_char c = true → is_digit c = true ∨ c = ch "." ∨ c = ch "-".
Proof.
  unfold amount_char. intros [[?|?%N.eqb_eq]%orb_prop|?%N.eqb_eq]%orb_prop; auto.
Qed.

Lemma amount_char_small c : amount_char c = true → c < 127.
Proof.
  intros [Hd| [->| ->]]%amount_char_cases; [|by vm_compute..].
  unfold is_digit in Hd. apply andb_prop in Hd as [_ Hd%N.leb_le]. lia.
Qed.

Lemma amount_char_not c c' :
  amount_char c = true → amount_char c' = false → (c =? c') = false.
Proof. intros Hc Hc'. apply N.eqb_neq. by intros ->; rewrite Hc in Hc'. Qed.

Section Numerals.
Context {ucd : UnicodeData}.

Lemma to_ascii_numeral_amount s :
  Forall (λ c, amount_char c = true) s → to_ascii_numeral s = s.
Proof.
  induction 1 as [|c s Hc _ IH]; simpl; [done|].
  apply amount_char_small, N.ltb_lt in Hc. by rewrite Hc, IH.
Qed.

Lemma without_underscores_amount prev s :
  (prev =? ch "_") = false →
  Forall (λ c, amount_char c = true) s → without_underscores prev s = Some s.
Proof.
  intros Hprev Hs. revert prev Hprev.
  induction Hs as [|c s Hc _ IH]; intros prev Hprev; simpl.
  - by rewrite Hprev.
  - assert (Hu : (c =? ch "_") = false) by (by apply amount_char_not).
    by rewrite Hu, Hprev, (IH c Hu).
Qed.

Lemma parse_inf_or_nan_amount s :
  Forall (λ c, amount_char c = true) s → parse_inf_or_nan s = None.
Proof.
  intros Hs. unfold parse_inf_or_nan.
  assert (Hname : ∀ s', Forall (λ c, amount_char c = true) s' →
            ∀ name, name ∈ [py "inf"; py "infinity"; py "nan"] →
              lower_ascii <$> s' ≠ name).
  { intros s' Hs' name Hname Heq. destruct Hs' as [|c s' Hc _].
    - rewrite !elem_of_cons in Hname.
      destruct Hname as [->|[->|[->|[]%elem_of_nil]]]; done.
    - assert (Hl : lower_ascii c = 105 ∨ lower_ascii c = 110).
      { rewrite !elem_of_cons in Hname.
        destruct Hname as [->|[->|[->|[]%elem_of_nil]]];
          injection Heq as Heq _; rewrite Heq; vm_compute; auto. }
      apply amount_char_cases in Hc. unfold lower_ascii, is_digit in *.
      destruct Hc as [[H1%N.leb_le H2%N.leb_le]%andb_prop|[->| ->]];
        [|by vm_compute in Hl; destruct Hl..].
      destruct ((65 <=? c) && (c <=? 90)) eqn:Hup.
      + apply andb_prop in Hup as [?%N.leb_le _]. lia.
      + lia. }
  assert (Hrest : Forall (λ c, amount_char c = true) (read_sign s).2).
  { destruct Hs as [|c s Hc Hs]; [done|]. simpl.
    destruct (c =? ch "-"); [done|]. destruct (c =? ch "+"); [done|].
    by constructor. }
  destruct (read_sign s) as [neg s']. simpl in Hrest.
  cbv zeta. rewrite decide_False, decide_False; [done| |].
  - apply (Hname s' Hrest). set_solver.
  - intros [?|?]; eapply (Hname s' Hrest); [|done| |done]; set_solver.
Qed.

Lemma parse_decimal_numeral s :
  Forall (λ c, amount_char c = true) s →
  parse_decimal s = None ↔ is_numeral s = false.
Proof.
  intros Hs. unfold parse_decimal, is_numeral.
  assert (Hsign : read_sign s
                  = (match s with c :: _ => c =? ch "-" | [] => false end,
                     match s with
                     | c :: s' => if c =? ch "-" then s' else s
                     | [] => s
                     end)).
  { destruct Hs as [|c s Hc _]; [done|]. simpl.
    destruct (c =? ch "-") eqn:Hm; [done|].
    by rewrite (amount_char_not c (ch "+")). }
  rewrite Hsign.
  assert (Hrest : Forall (λ c, amount_char c = true)
            match s with
            | c :: s' => if c =? ch "-" then s' else s
            | [] => s
            end).
  { destruct Hs as [|c s Hc Hs]; [done|]. destruct (c =? ch "-"); [done|].
    by constructor. }
  revert Hrest. generalize (match s with
                            | c :: s' => if c =? ch "-" then s' else s
                            | [] => s
                            end).
  clear Hsign. intros s1 Hs1.
  destruct (span_digits s1) as [ip r] eqn:Hip.
  apply span_digits_eq in Hip as ->. apply Forall_app in Hs1 as [_ Hr].
  destruct r as [|c r].
  - destruct ip; simpl; [done|]. split; done.
  - apply Forall_cons_1 in Hr as [Hc Hr]. destruct (c =? ch ".") eqn:Hdot.
    + simpl. destruct (span_digits r) as [fp r'] eqn:Hfp.
      apply span_digits_eq in Hfp as ->. apply Forall_app in Hr as [_ Hr'].
      destruct (ip ++ fp) eqn:Hds.
      * split; [|done]. by destruct r'.
      * destruct r' as [|c' r']; [split; done|].
        apply Forall_cons_1 in Hr' as [Hc' _].
        rewrite (amount_char_not c' (ch "e")), (amount_char_not c' (ch "E")) by done.
        done.
    + simpl. rewrite app_nil_r.
      rewrite (amount_char_not c (ch "e")), (amount_char_not c (ch "E")) by done.
      simpl. split; [done|]. by destruct ip.
Qed.

(** [float] reads a text of digits, points and minus signs exactly when it
    is a plain decimal numeral. *)
Lemma float_of_amount_chars s :
  Forall (λ c, amount_char c = true) s →
  float_of_str s = None ↔ is_numeral s = false.
Proof.
  intros Hs. unfold float_of_str. rewrite (to_ascii_numeral_amount s Hs).
  assert (Hsp : ∀ c, amount_char c = true → Py_ISSPACE c = false).
  { intros c [Hd|[->| ->]]%amount_char_cases; [|done..].
    unfold is_digit in Hd. apply andb_prop in Hd as [H1%N.leb_le H2%N.leb_le].
    unfold Py_ISSPACE. apply orb_false_intro.
    - apply andb_false_intro2, N.leb_gt. lia.
    - apply N.eqb_neq. lia. }
  destruct s as [|c s]; [done|].
  rewrite drop_while_all_false
    by (apply Forall_cons_1 in Hs as [Hc _]; by apply Hsp).
  rewrite drop_while_all_false.
  2:{ apply Forall_reverse in Hs. destruct (reverse (c :: s)) as [|c' s']; [done|].
      apply Forall_cons_1 in Hs as [Hc' _]. by apply Hsp. }
  rewrite reverse_involutive.
  rewrite (without_underscores_amount 0 (c :: s)) by done.
  cbn [mbind option_bind].
  rewrite <- (parse_decimal_numeral (c :: s) Hs).
  destruct (parse_decimal (c :: s)) as [[[neg m] e]|]; [done|].
  by rewrite parse_inf_or_nan_amount.
Qed.

Lemma sanitize_amount_result raw :
  let cleaned := replace (py "+") [] (replace (py ",") [] (strip raw)) in
  let kept := filter (λ c, amount_char c = true) cleaned in
  result (_sanitize_amount raw)
  = if decide (cleaned = [] ∨ cleaned = py "-") then Ok (py "0.00")
    else match float_of_str cleaned with
         | Some x => Ok (format_2f x)
         | None =>
             match kept with
             | [] => Ok (py "0.00")
             | _ :: _ =>
                 match float_of_str kept with
                 | Some x => Ok (format_2f x)
                 | None => Raise ValueError
                 end
             end
         end.
Proof.
  intros cleaned kept. unfold _sanitize_amount. fold cleaned.
  case_decide; [done|].
  rewrite result_bind. unfold float at 1.
  destruct (float_of_str cleaned) as [x|]; [done|].
  unfold try_except_ValueError. cbn [result raise].
  rewrite result_bind.
  replace (filter (λ c, is_digit c || (c =? ch ".") || (c =? ch "-")) cleaned)
    with kept.
  2:{ unfold kept. apply list_filter_iff. intros c. unfold amount_char.
      by destruct (is_digit c || (c =? ch ".") || (c =? ch "-")). }
  destruct kept as [|c kept']; [done|].
  unfold float. by destruct (float_of_str (c :: kept')).
Qed.
End Numerals.

(** X5: whatever [_sanitize_amount] returns is an amount with two decimals,
    [-?\d+\.\d{2}], or one of the three words Python prints for a float
    that is no number: [inf], [-inf], [nan].  It is never empty and never
    the text it was given when that is none of these. *)
Theorem X5_amount_result_shape {ucd : UnicodeData} (raw out : list N) :
  result (_sanitize_amount raw) = Ok out →
  matches_amount out = true
  ∨ out = py "inf" ∨ out = py "-inf" ∨ out = py "nan".
Proof.
  rewrite sanitize_amount_result. cbv zeta.
  case_decide; [intros [= <-]; by left|].
  destruct (float_of_str _) as [x|]; [intros [= <-]; apply format_2f_shape|].
  destruct (filter _ _) as [|c kept]; [intros [= <-]; by left|].
  destruct (float_of_str _) as [x|]; [intros [= <-]; apply format_2f_shape|done].
Qed.

Lemma X5_amount_result_shape_witness :
  matches_amount (py "12.50") = true
  ∨ py "12.50" = py "inf" ∨ py "12.50" = py "-inf" ∨ py "12.50" = py "nan".
Proof.
  apply (@X5_amount_result_shape Excerpt.latin1 (py "USD 12.5")).
  vm_compute. reflexivity.
Defined.

(** X6: [_sanitize_amount] raises exactly when [float] refuses the cleaned
    text (trimmed, commas and plus signs removed, and neither empty nor a
    lone minus sign) and the digits, points and minus signs of it, in
    order, are at least one character and no plain decimal numeral -- two
    points, a minus sign that is not in front, or no digit.  What it raises
    is a [ValueError]. *)
Theorem X6_amount_raises_exactly {ucd : UnicodeData} (raw : list N) :
  let cleaned := replace (py "+") [] (replace (py ",") [] (strip raw)) in
  let kept := filter (λ c, amount_char c = true) cleaned in
  (result (_sanitize_amount raw) = Raise ValueError
   ↔ cleaned ≠ py "-" ∧ float_of_str cleaned = None
     ∧ kept ≠ [] ∧ is_numeral kept = false)
  ∧ only_ValueError (_sanitize_amount raw).
Proof.
  intros cleaned kept.
  assert (Hkept : float_of_str kept = None ↔ is_numeral kept = false).
  { apply float_of_amount_chars, Forall_forall. intros c Hc.
    by apply list_elem_of_filter in Hc as [Hc _]. }
  unfold only_ValueError.
  rewrite sanitize_amount_result. fold cleaned. fold kept.
  case_decide as Hc.
  - split; [|done]. split; [done|]. intros (Hm & _ & Hk & _).
    destruct Hc as [Hc|Hc]; [|done]. by rewrite (eq_refl : kept = filter _ cleaned), Hc in Hk.
  - destruct (float_of_str cleaned) as [x|].
    { split; [|done]. split; [done|]. by intros (_ & ? & _). }
    destruct kept as [|c kept'] eqn:Hk.
    { split; [|done]. split; [done|]. by intros (_ & _ & ? & _). }
    destruct (float_of_str (c :: kept')) as [x|].
    + split; [|done]. split; [done|]. intros (_ & _ & _ & Hn).
      by apply Hkept in Hn.
    + split; [|by intros e [= <-]]. split; [|done]. intros _.
      split; [tauto|]. split; [done|]. split; [done|]. by apply Hkept.
Qed.

(** ** What raises, and when *)
Lemma only_ValueError_bind {A B} (m : M A) (f : A → M B) :
  only_ValueError m → (∀ a, result m = Ok a → only_ValueError (f a)) →
  only_ValueError (m ≫= f).
Proof.
  unfold only_ValueError. intros Hm Hf e. rewrite result_bind.
  destruct (result m) as [a|e'] eqn:Hr; [by apply Hf|]. intros [= <-]. by apply Hm.
Qed.

Lemma only_ValueError_Ok {A} (m : M A) a : result m = Ok a → only_ValueError m.
Proof. intros Hm e. by rewrite Hm. Qed.

Lemma only_ValueError_for_in {A S} (xs : list A) (body : A → S → M S) s :
  (∀ x s, x ∈ xs → only_ValueError (body x s)) →
  only_ValueError (for_in xs body s).
Proof.
  revert s. induction xs as [|x xs IH]; intros s Hbody; [done|].
  apply only_ValueError_bind; [apply Hbody; left|].
  intros s' _. apply IH. intros ? ? ?. by apply Hbody, list_elem_of_further.
Qed.

Lemma elem_of_values_of t v lines : v ∈ values_of t lines ↔ (t :: v) ∈ lines.
Proof.
  unfold values_of. rewrite list_elem_of_omap. split.
  - intros ([|t0 v0] & Hin & Heq); [done|].
    destruct (N.eqb_spec t0 t) as [->|]; [|done]. by injection Heq as ->.
  - intros Hin. exists (t :: v). split; [done|]. by rewrite N.eqb_refl.
Qed.

Section QifRaises.
Context {ucd : UnicodeData}.

Lemma sanitize_date_returns raw : ∃ y, result (_sanitize_date raw) = Ok y.
Proof.
  unfold _sanitize_date. destruct (first_parse raw candidates) as [r|] eqn:Hr.
  - apply first_parse_outcome in Hr as (parsed & -> & _). eauto.
  - eauto.
Qed.

Lemma sanitize_amount_only_ValueError raw : only_ValueError (_sanitize_amount raw).
Proof.
  intros e. rewrite sanitize_amount_result. cbv zeta.
  repeat case_match; congruence.
Qed.

Lemma append_first_result lines record t f otherwise formatted :
  result (for_in lines add_entry ∅) = Ok record →
  t ∈ _ALLOWED_QIF_TAGS →
  result otherwise = Ok () →
  result (append_first record t f otherwise formatted)
  = match head (values_of t lines) with
    | Some v => match result (f v) with
                | Ok x => Ok (formatted ++ [t :: x])
                | Raise e => Raise e
                end
    | None => Ok formatted
    end.
Proof.
  intros Hrecord Ht Ho. unfold append_first.
  rewrite (record_lookup _ _ _ Hrecord Ht).
  destruct (values_of t lines) as [|v vs]; simpl head; cbv iota.
  - by rewrite result_bind, Ho.
  - rewrite result_bind. simpl. rewrite result_bind. by destruct (result (f v)).
Qed.

Lemma address_lines_result values t formatted :
  result (for_in values (λ value formatted,
            x ← _trim (_ascii value) _ADDRESS_LIMIT;
            mret (formatted ++ [t :: x])) formatted)
  = Ok (formatted ++ ((λ v, t :: take _ADDRESS_LIMIT (_ascii v)) <$> values)).
Proof.
  revert formatted. induction values as [|v values IH]; intros formatted.
  - simpl. by rewrite app_nil_r.
  - rewrite result_for_in_cons, result_bind, result_trim. simpl.
    by rewrite IH, <- app_assoc.
Qed.

Lemma emit_split_result record index t splits :
  result (emit_split record index t splits)
  = match get record t !! index with
    | Some v =>
        if t =? ch "$"
        then match result (_sanitize_amount (_ascii v)) with
             | Ok x => Ok (splits ++ [t :: x])
             | Raise e => Raise e
             end
        else Ok (splits ++ [t :: _ascii v])
    | None => Ok splits
    end.
Proof.
  unfold emit_split. destruct (get record t !! index) as [v|]; [|done].
  rewrite result_bind. destruct (t =? ch "$"); [|done].
  by destruct (result (_sanitize_amount (_ascii v))).
Qed.

Lemma emit_split_only_ValueError record index t splits :
  only_ValueError (emit_split record index t splits).
Proof.
  intros e. rewrite emit_split_result.
  destruct (get record t !! index) as [v|]; [|done].
  destruct (t =? ch "$"); [|done].
  destruct (result (_sanitize_amount (_ascii v))) eqn:Hv; [done|].
  intros [= <-]. by apply (sanitize_amount_only_ValueError (_ascii v)).
Qed.

Lemma emit_splits_return record indices acc :
  (∀ v, v ∈ get record (ch "$") →
     ∃ x, result (_sanitize_amount (_ascii v)) = Ok x) →
  ∃ out, result (for_in indices (λ index splits,
                   for_in split_tags (emit_split record index) splits) acc) = Ok out.
Proof.
  intros Hok. revert acc. induction indices as [|index indices IH]; intros acc.
  - by exists acc.
  - rewrite result_for_in_cons.
    assert (Hrow : ∀ tags acc, ∃ out,
              result (for_in tags (emit_split record index) acc) = Ok out).
    { clear -Hok. induction tags as [|t tags IH]; intros acc; [by exists acc|].
      rewrite result_for_in_cons, emit_split_result.
      destruct (get record t !! index) as [v|] eqn:Hv; [|apply IH].
      destruct (N.eqb_spec t (ch "$")) as [->|]; [|apply IH].
      destruct (Hok v) as [x ->]; [by eapply list_elem_of_lookup_2|]. apply IH. }
    destruct (Hrow split_tags acc) as [acc' ->]. apply IH.
Qed.

Lemma format_qif_record_only_ValueError lines :
  only_ValueError (_format_qif_record lines).
Proof.
  unfold _format_qif_record.
  assert (Hin : ∀ t, bool_decide (t ∈ py "DTPMLNASEO$^") = true → t ∈ _ALLOWED_QIF_TAGS)
    by (intros t Ht%bool_decide_eq_true_1; by apply allowed_tag).
  assert (Hfirst : ∀ record t f otherwise formatted,
            result (for_in lines add_entry ∅) = Ok record →
            bool_decide (t ∈ py "DTPMLNASEO$^") = true →
            result otherwise = Ok () →
            (∀ v, only_ValueError (f v)) →
            only_ValueError (append_first record t f otherwise formatted)).
  { intros record t f o fm Hrecord Ht Ho Hf e.
    rewrite (append_first_result lines) by auto.
    destruct (head (values_of t lines)) as [v|]; [|done].
    destruct (result (f v)) eqn:Hv; [done|]. intros [= <-]. by apply (Hf v). }
  apply only_ValueError_bind.
  { destruct (add_entries lines ∅) as (record & Hrecord & _).
    by eapply only_ValueError_Ok. }
  intros record Hrecord.
  apply only_ValueError_bind.
  { apply Hfirst; [done..|]. intros v. destruct (sanitize_date_returns v).
    by eapply only_ValueError_Ok. }
  intros f1 _. apply only_ValueError_bind.
  { apply Hfirst; [done..|]. apply sanitize_amount_only_ValueError. }
  intros f2 _. apply only_ValueError_bind.
  { apply Hfirst; [done..|]. intros v. eapply only_ValueError_Ok, result_trim. }
  intros f3 _. apply only_ValueError_bind.
  { apply Hfirst; [done..|]. intros v. eapply only_ValueError_Ok, result_trim. }
  intros f4 _. apply only_ValueError_bind.
  { apply Hfirst; [done..|]. intros v. by eapply only_ValueError_Ok. }
  intros f5 _. apply only_ValueError_bind.
  { apply Hfirst; [done..|]. intros v. by eapply only_ValueError_Ok. }
  intros f6 _. apply only_ValueError_bind.
  { apply only_ValueError_for_in. intros t fm _.
    eapply only_ValueError_Ok, address_lines_result. }
  intros f7 _. apply only_ValueError_bind; [|intros; by eapply only_ValueError_Ok].
  apply only_ValueError_for_in. intros index acc _.
  apply only_ValueError_for_in. intros t acc' _.
  apply emit_split_only_ValueError.
Qed.

Lemma format_qif_record_returns lines :
  amounts_readable lines → ∃ out, result (_format_qif_record lines) = Ok out.
Proof.
  intros [HT Hsplit]. unfold _format_qif_record.
  assert (Hin : ∀ t, bool_decide (t ∈ py "DTPMLNASEO$^") = true → t ∈ _ALLOWED_QIF_TAGS)
    by (intros t Ht%bool_decide_eq_true_1; by apply allowed_tag).
  destruct (add_entries lines ∅) as (record & Hrecord & _).
  assert (Hfirst : ∀ t f otherwise formatted,
            bool_decide (t ∈ py "DTPMLNASEO$^") = true →
            result otherwise = Ok () →
            (∀ v, head (values_of t lines) = Some v → ∃ x, result (f v) = Ok x) →
            ∃ out, result (append_first record t f otherwise formatted) = Ok out).
  { intros t f o fm Ht Ho Hf. rewrite (append_first_result lines) by auto.
    destruct (head (values_of t lines)) as [v|]; [|eauto].
    destruct (Hf v eq_refl) as [x ->]. eauto. }
  rewrite result_bind, Hrecord.
  destruct (Hfirst (ch "D") _sanitize_date (warn Record_missing_date) [])
    as [f1 H1]; [done..|intros; apply sanitize_date_returns|].
  rewrite result_bind, H1.
  destruct (Hfirst (ch "T") _sanitize_amount (warn Record_missing_amount) f1)
    as [f2 H2]; [done..|].
  rewrite result_bind, H2.
  destruct (Hfirst (ch "P") (λ v, _trim (_ascii v) _PAYEE_LIMIT) (mret ()) f2)
    as [f3 H3]; [done..|intros; eexists; apply result_trim|].
  rewrite result_bind, H3.
  destruct (Hfirst (ch "M") (λ v, _trim (_ascii v) _MEMO_LIMIT) (mret ()) f3)
    as [f4 H4]; [done..|intros; eexists; apply result_trim|].
  rewrite result_bind, H4.
  destruct (Hfirst (ch "L") (λ v, mret (_ascii v)) (mret ()) f4)
    as [f5 H5]; [done..|by eauto|].
  rewrite result_bind, H5.
  destruct (Hfirst (ch "N") (λ v, mret (_ascii v)) (mret ()) f5)
    as [f6 H6]; [done..|by eauto|].
  rewrite result_bind, H6.
  rewrite result_bind, result_for_in_cons, address_lines_result. cbn [for_in result mret M_ret].
  destruct (emit_splits_return record (seq 0 (split_max_len record)) [])
    as [splits Hs].
  { intros v Hv. apply Hsplit.
    destruct (add_entries_get _ _ Hrecord (ch "$")) as [<- _]; [by apply Hin|done]. }
  rewrite result_bind, Hs. eauto.
Qed.

Lemma split_key_present lines t index v :
  t ∈ split_tags → values_of t lines !! index = Some v →
  (index, t) ∈ split_keys lines.
Proof.
  intros Ht Hv. apply lookup_lt_Some in Hv as Hlt.
  unfold split_keys. apply list_elem_of_bind. exists index. split.
  - apply list_elem_of_bind. exists t. split; [|done].
    rewrite decide_True by done. left.
  - apply elem_of_seq. split; [lia|]. rewrite Nat.add_0_l.
    eapply Nat.lt_le_trans; [exact Hlt|].
    apply max_list_elem_of_le, list_elem_of_fmap. by exists t.
Qed.

Lemma format_qif_record_amounts lines out :
  result (_format_qif_record lines) = Ok out → amounts_readable lines.
Proof.
  intros (d & t & splits & _ & _ & HT & Hsplits)%format_qif_record_parts.
  split.
  - intros v Hv. rewrite Hv in HT. destruct HT as (x & Hx & _). eauto.
  - intros v [index Hv]%list_elem_of_lookup_1.
    assert (Hkey : (index, ch "$") ∈ split_keys lines).
    { apply (split_key_present _ _ _ v); [|done].
      by apply (bool_decide_unpack _); vm_compute. }
    apply list_elem_of_lookup_1 in Hkey as [i Hi].
    destruct (Forall2_lookup_l _ _ _ _ _ Hsplits Hi) as (line & _ & Hline).
    destruct Hline as (v' & x & Hv' & _ & Hx). simpl in Hv', Hx.
    rewrite Hv in Hv'. injection Hv' as <-. eauto.
Qed.

(** The result depends on the record only through what it holds at the
    tags that are written. *)
Lemma format_qif_record_ext lines lines' :
  (∀ t, t ∈ emitted_tags → values_of t lines = values_of t lines') →
  result (_format_qif_record lines) = result (_format_qif_record lines').
Proof.
  intros Hsame. unfold _format_qif_record.
  destruct (add_entries lines ∅) as (record & Hrecord & _).
  destruct (add_entries lines' ∅) as (record' & Hrecord' & _).
  rewrite !(result_bind (for_in _ add_entry ∅)), Hrecord, Hrecord'.
  assert (Hlookup : ∀ t, bool_decide (t ∈ emitted_tags) = true →
            record !! t = record' !! t).
  { intros t Ht%bool_decide_eq_true_1.
    assert (Hallowed : t ∈ _ALLOWED_QIF_TAGS).
    { apply allowed_tag. revert Ht. unfold emitted_tags.
      change (py "DTPMLNASEO$^") with (py "DTPMLNASEO$" ++ [ch "^"]).
      intros ?. apply elem_of_app. by left. }
    rewrite (record_lookup _ _ _ Hrecord Hallowed),
      (record_lookup _ _ _ Hrecord' Hallowed).
    by rewrite Hsame. }
  rewrite !split_max_len_max. unfold split_tags.
  change (py "SEO$") with [ch "S"; ch "E"; ch "O"; ch "$"].
  cbn [fmap list_fmap for_in]. unfold emit_split, append_first, get.
  rewrite !(Hlookup (ch "D")), !(Hlookup (ch "T")), !(Hlookup (ch "P")),
    !(Hlookup (ch "M")), !(Hlookup (ch "L")), !(Hlookup (ch "N")),
    !(Hlookup (ch "A")), !(Hlookup (ch "S")), !(Hlookup (ch "E")),
    !(Hlookup (ch "O")), !(Hlookup (ch "$")) by done.
  done.
Qed.
End QifRaises.

(** X7: the lines of a record, as [_format_qif_record] returns them, are in
    this order whatever the order of the input: the date, the amount, the
    payee cut at 80 characters, the memo cut at 120, the category, the
    number -- each made of the first line that carries its tag, and absent
    when no line does --, one address line cut at 35 characters for every
    [A] line, and the splits.  Payee, memo, category, number and addresses
    have been through [_ascii]. *)
Theorem X7_record_layout {ucd : UnicodeData} (lines out : list (list N)) :
  result (_format_qif_record lines) = Ok out →
  ∃ d t splits,
    out = d ++ t
          ++ field lines (ch "P") (λ v, take _PAYEE_LIMIT (_ascii v))
          ++ field lines (ch "M") (λ v, take _MEMO_LIMIT (_ascii v))
          ++ field lines (ch "L") _ascii
          ++ field lines (ch "N") _ascii
          ++ ((λ v, ch "A" :: take _ADDRESS_LIMIT (_ascii v)) <$> values_of (ch "A") lines)
          ++ splits
    ∧ match head (values_of (ch "D") lines) with
      | Some v => ∃ x, result (_sanitize_date v) = Ok x ∧ d = [ch "D" :: x]
      | None => d = []
      end
    ∧ match head (values_of (ch "T") lines) with
      | Some v => ∃ x, result (_sanitize_amount v) = Ok x ∧ t = [ch "T" :: x]
      | None => t = []
      end
    ∧ Forall2 (split_line (λ t, values_of t lines)) (split_keys lines) splits.
Proof. apply format_qif_record_parts. Qed.

Lemma X7_record_layout_witness :
  let lines := [py "Aline one"; py "Mmemo"; py "T1"; py "Pshop"; py "D01/02/2023";
                py "Aline two"; py "Pother"] in
  ∃ d t splits,
    [py "D01/02'23"; py "T1.00"; py "Pshop"; py "Mmemo"; py "Aline one"; py "Aline two"]
    = d ++ t
      ++ field lines (ch "P") (λ v, take _PAYEE_LIMIT (@_ascii Excerpt.latin1 v))
      ++ field lines (ch "M") (λ v, take _MEMO_LIMIT (@_ascii Excerpt.latin1 v))
      ++ field lines (ch "L") (@_ascii Excerpt.latin1)
      ++ field lines (ch "N") (@_ascii Excerpt.latin1)
      ++ ((λ v, ch "A" :: take _ADDRESS_LIMIT (@_ascii Excerpt.latin1 v))
            <$> values_of (ch "A") lines)
      ++ splits
    ∧ match head (values_of (ch "D") lines) with
      | Some v => ∃ x, result (@_sanitize_date Excerpt.latin1 v) = Ok x ∧ d = [ch "D" :: x]
      | None => d = []
      end
    ∧ match head (values_of (ch "T") lines) with
      | Some v => ∃ x, result (@_sanitize_amount Excerpt.latin1 v) = Ok x ∧ t = [ch "T" :: x]
      | None => t = []
      end
    ∧ Forall2 (split_line (ucd := Excerpt.latin1) (λ t, values_of t lines))
        (split_keys lines) splits.
Proof.
  intros lines. apply (@X7_record_layout Excerpt.latin1 lines).
  vm_compute. reflexivity.
Defined.

(** X8: [_format_qif_record] returns exactly when the amounts it has to
    normalise can be normalised: the first [T] value, and every [$] value
    after [_ascii].  Nothing else in a record can make it fail, and what it
    raises is a [ValueError]: [record[tag][0]] is never out of range. *)
Theorem X8_record_returns_exactly {ucd : UnicodeData} (lines : list (list N)) :
  ((∃ out, result (_format_qif_record lines) = Ok out) ↔ amounts_readable lines)
  ∧ only_ValueError (_format_qif_record lines).
Proof.
  split; [split|].
  - intros [out Hout]. by apply (format_qif_record_amounts lines out).
  - apply format_qif_record_returns.
  - apply format_qif_record_only_ValueError.
Qed.

(** X9: the result of [_format_qif_record] depends on its lines only through
    the values of each written tag ([D T P M L N A S E O $]), in their
    order: empty lines, lines with a tag that is not allowed, lines that
    start with [^], and the position of a line among the lines of other
    tags make no difference. *)
Theorem X9_record_depends_on_tag_values {ucd : UnicodeData}
    (lines lines' : list (list N)) :
  (∀ t, t ∈ emitted_tags → values_of t lines = values_of t lines') →
  result (_format_qif_record lines) = result (_format_qif_record lines').
Proof. apply format_qif_record_ext. Qed.

Lemma X9_record_depends_on_tag_values_witness :
  result (@_format_qif_record Excerpt.latin1
            [py "Xnote"; py "T1"; []; py "^late"; py "D01/02/2023"; py "S1"])
  = result (@_format_qif_record Excerpt.latin1
              [py "S1"; py "D01/02/2023"; py "T1"]).
Proof.
  apply (@X9_record_depends_on_tag_values Excerpt.latin1).
  intros t Ht. unfold emitted_tags in Ht.
  repeat (apply elem_of_cons in Ht as [->|Ht]; [reflexivity|]).
  by apply elem_of_nil in Ht.
Defined.

(** ** [sanitize_qif] *)
Lemma for_in_invariant {A S} (I : S → Prop) (xs : list A) (body : A → S → M S) s out :
  I s →
  (∀ x s s', x ∈ xs → I s → result (body x s) = Ok s' → I s') →
  result (for_in xs body s) = Ok out → I out.
Proof.
  revert s. induction xs as [|x xs IH]; intros s Hs Hbody.
  - by intros [= <-].
  - intros (s' & Hs' & Hout)%for_in_cons_Ok.
    apply (IH s'); [by eapply Hbody; [left|..]| |done].
    intros ? ? ? ?. by apply Hbody, list_elem_of_further.
Qed.

Lemma split1_second c s : c ∈ s → ∃ a b, split1 c s = [a; b].
Proof.
  induction s as [|c' s IH]; [by intros ?%elem_of_nil|].
  intros Hin. simpl. destruct (N.eqb_spec c' c) as [->|Hne]; [eauto|].
  apply elem_of_cons in Hin as [->|Hin]; [done|].
  destruct (IH Hin) as (a & b & ->). eauto.
Qed.

Lemma framed_app o a b :
  framed o a = true → framed false b = true → framed o (a ++ b) = true.
Proof.
  revert o. induction a as [|l a IH]; intros o; cbn [app framed].
  - by destruct o.
  - case_bool_decide; [by apply IH|].
    destruct (startswith (py "!Type:") l).
    + intros [-> Ha]%andb_prop Hb. by apply IH.
    + destruct l as [|t x]; [done|].
      intros [-> Ha]%andb_prop Hb. by apply IH.
Qed.

Lemma framed_record o record :
  tagged emitted_tags record → framed o (record ++ [py "^"]) = true.
Proof.
  intros Hrecord. revert o. induction Hrecord as [|l record (t & x & -> & Ht) _ IH];
    intros o; [done|].
  cbn [app framed]. rewrite bool_decide_false.
  2:{ intros [= -> _]. revert Ht. by apply (bool_decide_unpack _); vm_compute. }
  assert (Hbang : (ch "!" =? t) = false).
  { apply N.eqb_neq. intros <-. revert Ht. by apply (bool_decide_unpack _); vm_compute. }
  change (py "!Type:") with (ch "!" :: py "Type:"). cbn [startswith].
  rewrite Hbang. cbn [andb]. rewrite bool_decide_true by done. apply IH.
Qed.

Lemma framed_header o x : o = false → framed o [py "!Type:" ++ x] = true.
Proof.
  intros ->. cbn [framed]. rewrite bool_decide_false by done.
  by rewrite startswith_app.
Qed.

Section QifFile.
Context {ucd : UnicodeData}.

Lemma buffer_amounts_readable buffer :
  Forall amount_line_readable buffer → amounts_readable buffer.
Proof.
  intros Hb. rewrite Forall_forall in Hb. split.
  - intros v Hv. apply head_Some_elem_of, elem_of_values_of, Hb in Hv.
    by apply Hv.
  - intros v Hv. apply elem_of_values_of, Hb in Hv. by apply Hv.
Qed.

Lemma flush_returns buffer output :
  Forall amount_line_readable buffer → ∃ out, result (flush buffer output) = Ok out.
Proof.
  intros [formatted Hf]%buffer_amounts_readable%format_qif_record_returns.
  unfold flush. rewrite result_bind, Hf. eauto.
Qed.

Lemma flush_only_ValueError buffer output : only_ValueError (flush buffer output).
Proof.
  apply only_ValueError_bind; [apply format_qif_record_only_ValueError|].
  intros. by eapply only_ValueError_Ok.
Qed.

Lemma header_value_returns (line : list N) :
  ∃ x, result (if decide (ch ":" ∈ line) then
                 match split1 (ch ":") line !! 1%nat with
                 | Some suffix => mret (upper (strip suffix))
                 | None => raise IndexError
                 end
               else mret (py "BANK")) = Ok x.
Proof.
  case_decide as Hin; [|eauto].
  destruct (split1_second _ _ Hin) as (a & b & ->). simpl. eauto.
Qed.

Lemma qif_line_returns line st :
  amount_line_readable line → Forall amount_line_readable (buffer st) →
  ∃ st', result (qif_line line st) = Ok st'
         ∧ Forall amount_line_readable (buffer st').
Proof.
  intros Hline Hbuffer. destruct line as [|c line]; [by exists st|].
  unfold qif_line. destruct (startswith (py "!Type") (c :: line)).
  - rewrite result_bind.
    assert (Hst : ∃ st1, result match buffer st with
                                | [] => mret st
                                | _ :: _ =>
                                    out ← flush (buffer st) (output st);
                                    mret (Qif (out ++ [py "^"]) [] (header st))
                                end = Ok st1
                         ∧ Forall amount_line_readable (buffer st1)).
    { destruct (buffer st) as [|l ls] eqn:Hb; [exists st; by rewrite Hb|].
      destruct (flush_returns (l :: ls) (output st) Hbuffer) as [out Hout].
      rewrite result_bind, Hout. eexists. split; [done|]. by simpl. }
    destruct Hst as (st1 & -> & Hb1).
    rewrite result_bind. destruct (header_value_returns (c :: line)) as [x ->].
    eexists. split; [done|]. done.
  - case_decide.
    + rewrite result_bind.
      assert (Hout : ∃ out, result match buffer st with
                                   | [] => warn Empty_record;; mret (output st)
                                   | _ :: _ => flush (buffer st) (output st)
                                   end = Ok out).
      { destruct (buffer st); [by eexists|]. by apply flush_returns. }
      destruct Hout as [out ->]. eexists. split; [done|]. by simpl.
    + eexists. split; [done|]. simpl. apply Forall_app. split; [done|].
      by constructor.
Qed.

Lemma qif_loop_returns lines st :
  Forall amount_line_readable lines → Forall amount_line_readable (buffer st) →
  ∃ st', result (for_in lines qif_line st) = Ok st'
         ∧ Forall amount_line_readable (buffer st').
Proof.
  intros Hlines. revert st. induction Hlines as [|line lines Hline _ IH];
    intros st Hbuffer; [by exists st|].
  destruct (qif_line_returns line st Hline Hbuffer) as (st1 & Hst1 & Hb1).
  rewrite result_for_in_cons, Hst1. by apply IH.
Qed.

Lemma sanitize_qif_returns text :
  Forall amount_line_readable (qif_lines text) →
  ∃ out, result (sanitize_qif text) = Ok out.
Proof.
  intros Hlines. unfold sanitize_qif. fold (qif_lines text).
  destruct (qif_loop_returns (qif_lines text) (Qif [] [] None) Hlines)
    as (st & Hst & Hbuffer); [done|].
  rewrite result_bind, Hst, result_bind.
  assert (Hout : ∃ out, result match buffer st with
                               | [] => mret (output st)
                               | _ :: _ =>
                                   out ← flush (buffer st) (output st);
                                   mret (out ++ [py "^"])
                               end = Ok out).
  { destruct (buffer st) as [|l ls]; [by eexists|].
    destruct (flush_returns (l :: ls) (output st) Hbuffer) as [out Hout].
    rewrite result_bind, Hout. by eexists. }
  destruct Hout as [out ->]. rewrite result_bind.
  destruct (header st); eauto.
Qed.

Lemma qif_line_only_ValueError line st : only_ValueError (qif_line line st).
Proof.
  destruct line as [|c line]; [done|]. unfold qif_line.
  destruct (startswith (py "!Type") (c :: line)).
  - apply only_ValueError_bind.
    { destruct (buffer st); [done|].
      apply only_ValueError_bind; [apply flush_only_ValueError|].
      intros. by eapply only_ValueError_Ok. }
    intros st1 _. apply only_ValueError_bind.
    { destruct (header_value_returns (c :: line)). by eapply only_ValueError_Ok. }
    intros. by eapply only_ValueError_Ok.
  - case_decide; [|done].
    apply only_ValueError_bind; [|intros; by eapply only_ValueError_Ok].
    destruct (buffer st); [done|]. apply flush_only_ValueError.
Qed.

Lemma sanitize_qif_only_ValueError text : only_ValueError (sanitize_qif text).
Proof.
  unfold sanitize_qif. apply only_ValueError_bind.
  { apply only_ValueError_for_in. intros. apply qif_line_only_ValueError. }
  intros st _. apply only_ValueError_bind.
  { destruct (buffer st); [done|].
    apply only_ValueError_bind; [apply flush_only_ValueError|].
    intros. by eapply only_ValueError_Ok. }
  intros out _. apply only_ValueError_bind; [by destruct (header st)|].
  intros. by eapply only_ValueError_Ok.
Qed.

Lemma split_keys_tags lines : Forall (λ k, k.2 ∈ split_tags) (split_keys lines).
Proof.
  apply Forall_forall. intros k (index & (t & Hk & Ht)%list_elem_of_bind & _)%list_elem_of_bind.
  case_decide; [|by apply elem_of_nil in Hk].
  by apply list_elem_of_singleton in Hk as ->.
Qed.

Lemma format_qif_record_tagged lines out :
  result (_format_qif_record lines) = Ok out → tagged emitted_tags out.
Proof.
  intros (d & t & splits & -> & Hd & Ht & Hsplits)%format_qif_record_parts.
  assert (Hfield : ∀ t f, bool_decide (t ∈ emitted_tags) = true →
            tagged emitted_tags (field lines t f)).
  { intros t' f Ht'%bool_decide_eq_true_1. unfold field.
    destruct (head (values_of t' lines)); [|by constructor].
    constructor; [|by constructor]. eauto. }
  unfold tagged. rewrite !Forall_app. repeat split; try by apply Hfield.
  - destruct (head (values_of (ch "D") lines)); [|by subst].
    destruct Hd as (x & _ & ->).
    constructor; [|by constructor]. exists (ch "D"), x. split; [done|].
    by apply (bool_decide_unpack _); vm_compute.
  - destruct (head (values_of (ch "T") lines)); [|by subst].
    destruct Ht as (x & _ & ->).
    constructor; [|by constructor]. exists (ch "T"), x. split; [done|].
    by apply (bool_decide_unpack _); vm_compute.
  - apply Forall_fmap, Forall_forall. intros v _. simpl.
    eexists _, _. split; [done|]. by apply (bool_decide_unpack _); vm_compute.
  - pose proof (split_keys_tags lines) as Hkeys.
    induction Hsplits as [|k l ks ls (v & x & _ & -> & _) _ IH]; [by constructor|].
    apply Forall_cons_1 in Hkeys as [Hk Hkeys]. constructor; [|by apply IH].
    exists k.2, x. split; [done|]. revert Hk. unfold split_tags, emitted_tags.
    change (py "DTPMLNASEO$") with (py "DTPMLNA" ++ py "SEO$").
    intros ?. apply elem_of_app. by right.
Qed.

Lemma flush_framed buffer output out :
  framed false output = true → result (flush buffer output) = Ok out →
  framed false (out ++ [py "^"]) = true.
Proof.
  intros Hframed (formatted & Hf & [= <-])%bind_Ok.
  rewrite <- app_assoc. apply framed_app; [done|].
  by eapply framed_record, format_qif_record_tagged.
Qed.

Lemma qif_line_framed line st st' :
  framed false (output st) = true → result (qif_line line st) = Ok st' →
  framed false (output st') = true.
Proof.
  intros Hframed. destruct line as [|c line]; [by intros [= <-]|].
  unfold qif_line. destruct (startswith (py "!Type") (c :: line)).
  - intros (st1 & Hst1 & (x & _ & [= <-])%bind_Ok)%bind_Ok. simpl.
    apply framed_app; [|by apply framed_header].
    destruct (buffer st); [by injection Hst1 as <-|].
    apply bind_Ok in Hst1 as (out & Hout & [= <-]). simpl.
    by eapply flush_framed.
  - case_decide; [|by intros [= <-]].
    intros (out & Hout & [= <-])%bind_Ok. simpl.
    destruct (buffer st); [|by eapply flush_framed].
    apply bind_Ok in Hout as (? & _ & [= <-]).
    by apply framed_app.
Qed.

Lemma sanitize_qif_framed text out :
  result (sanitize_qif text) = Ok out →
  ∃ ls, out = join [13; 10] ls ++ [13; 10] ∧ framed false ls = true.
Proof.
  unfold sanitize_qif.
  intros (st & Hst & (ls & Hls & (? & _ & [= <-])%bind_Ok)%bind_Ok)%bind_Ok.
  exists ls. split; [done|].
  assert (Hframed : framed false (output st) = true).
  { eapply (for_in_invariant (λ st, framed false (output st) = true));
      [| |exact Hst]; [done|].
    intros line s s' _. apply qif_line_framed. }
  destruct (buffer st); [by injection Hls as <-|].
  apply bind_Ok in Hls as (out' & Hout' & [= <-]).
  by eapply flush_framed.
Qed.
End QifFile.

(** X10: [sanitize_qif] returns its text whenever the amount of every [T]
    line and of every [$] line (after [_ascii]) can be normalised: no other
    content of a file -- missing header, unknown tags, empty records, a
    header without a colon -- stops the conversion. *)
Theorem X10_sanitize_qif_returns {ucd : UnicodeData} (text : list N) :
  Forall amount_line_readable (qif_lines text) →
  ∃ out, result (sanitize_qif text) = Ok out.
Proof. apply sanitize_qif_returns. Qed.

Lemma X10_sanitize_qif_returns_witness :
  ∃ out, result (@sanitize_qif Excerpt.latin1
                   (py "!Type" ++ [13; 10] ++ py "Xjunk" ++ [13] ++ py "^" ++ [10]
                    ++ py "T12,5" ++ [10] ++ py "$USD 3")) = Ok out.
Proof.
  apply (@X10_sanitize_qif_returns Excerpt.latin1).
  repeat (apply Forall_cons_2; [simpl; try done|]); [..|apply Forall_nil_2].
  all: split; intros [=]; eexists; vm_compute; reflexivity.
Defined.

(** X11: the only exception [sanitize_qif] raises is [ValueError]: neither
    [line.split(":", 1)[1]] nor [record[tag][0]] is ever out of range. *)
Theorem X11_sanitize_qif_raises_only_ValueError {ucd : UnicodeData}
    (text : list N) (e : exn) :
  result (sanitize_qif text) = Raise e → e = ValueError.
Proof. apply sanitize_qif_only_ValueError. Qed.

Lemma X11_sanitize_qif_raises_only_ValueError_witness :
  ValueError = ValueError.
Proof.
  apply (@X11_sanitize_qif_raises_only_ValueError Excerpt.latin1
           (py "T1.2.3") ValueError).
  vm_compute. reflexivity.
Defined.

(** X12: in the text [sanitize_qif] returns every line ends with CR LF and
    every record is closed: a line is [^], a header [!Type:...] or a line
    that starts with one of [D T P M L N A S E O $]; each run of record
    lines is followed by [^] -- also the last one, which the input may have
    left open -- and no header stands inside a record. *)
Theorem X12_sanitize_qif_records_closed {ucd : UnicodeData} (text out : list N) :
  result (sanitize_qif text) = Ok out →
  ∃ ls, out = join [13; 10] ls ++ [13; 10] ∧ framed false ls = true.
Proof. apply sanitize_qif_framed. Qed.

Lemma X12_sanitize_qif_records_closed_witness :
  ∃ ls, py "!Type:BANK" ++ [13; 10] ++ py "D01/02'23" ++ [13; 10] ++ py "T1.00"
        ++ [13; 10] ++ py "^" ++ [13; 10] ++ py "!Type:CASH" ++ [13; 10]
        ++ py "T2.00" ++ [13; 10] ++ py "^" ++ [13; 10]
        = join [13; 10] ls ++ [13; 10]
        ∧ framed false ls = true.
Proof.
  apply (@X12_sanitize_qif_records_closed Excerpt.latin1
           (py "!Type:Bank" ++ [10] ++ py "T1" ++ [10] ++ py "D1/2/2023" ++ [10]
            ++ py "!Type:cash" ++ [10] ++ py "T2")).
  vm_compute. reflexivity.
Defined.

(** ** [_ensure_trnuid] *)
Lemma fill_below_unfold fallback t x cs :
  fill_below fallback (Elem t x cs) = Elem t x (fill_child fallback <$> cs).
Proof. reflexivity. Qed.

Lemma fill_trnuid_alter_child fallback f j c :
  fill_trnuid fallback (alter_child f j c) = alter_child f j (fill_trnuid fallback c).
Proof.
  destruct c as [t x cs]. unfold fill_trnuid, alter_child, text_or_empty. simpl.
  by destruct (strip (default [] x)).
Qed.

Lemma foldl_fill_commute fallback c (L : list (list nat * Element)) :
  Forall (λ d, d.1 ≠ []) L →
  foldl (λ root node, alter_at (fill_trnuid fallback) node.1 root)
    (fill_trnuid fallback c) L
  = fill_trnuid fallback
      (foldl (λ root node, alter_at (fill_trnuid fallback) node.1 root) c L).
Proof.
  intros HL. revert c. induction HL as [|[p n] L Hp _ IH]; intros c; [done|].
  simpl in *. destruct p as [|j p]; [done|]. simpl.
  by rewrite <- fill_trnuid_alter_child, IH.
Qed.

Lemma descendants_below_paths i cs :
  Forall (λ d, d.1 ≠ []) (descendants_below i cs).
Proof.
  revert i. induction cs as [|c cs IH]; intros i; [by constructor|].
  change (descendants_below i (c :: cs))
    with (([i], c) :: (prod_map (cons i) id <$> descendants c)
          ++ descendants_below (S i) cs).
  constructor; [done|]. apply Forall_app. split; [|apply IH].
  apply Forall_fmap, Forall_forall. by intros [p n] _.
Qed.

Lemma filter_tag_below t i (L : list (list nat * Element)) :
  filter (λ d, tag d.2 = t) (prod_map (cons i) id <$> L)
  = prod_map (cons i) id <$> filter (λ d, tag d.2 = t) L.
Proof.
  induction L as [|[p n] L IH]; [done|]. rewrite fmap_cons, !filter_cons. simpl.
  case_decide; by rewrite ?fmap_cons, IH.
Qed.

Lemma foldl_under_child f t x pre c cs (L : list (list nat * Element)) :
  foldl (λ root node, alter_at f node.1 root) (Elem t x (pre ++ c :: cs))
    (prod_map (cons (length pre)) id <$> L)
  = Elem t x (pre ++ foldl (λ root node, alter_at f node.1 root) c L :: cs).
Proof.
  revert c. induction L as [|[p n] L IH]; intros c; [done|].
  rewrite fmap_cons. cbn [foldl prod_map fst alter_at]. unfold alter_child.
  cbn [tag text children].
  replace (alter (alter_at f p) (length pre) (pre ++ c :: cs))
    with (pre ++ alter_at f p c :: cs); [apply IH|].
  rewrite <- (Nat.add_0_r (length pre)) at 1. by rewrite alter_app_r.
Qed.

Lemma fill_children fallback t x cs pre :
  Forall (λ c, foldl (λ root node, alter_at (fill_trnuid fallback) node.1 root) c
                 (findall_descendants (py "TRNUID") c)
               = fill_below fallback c) cs →
  foldl (λ root node, alter_at (fill_trnuid fallback) node.1 root)
    (Elem t x (pre ++ cs))
    (filter (λ d, tag d.2 = py "TRNUID") (descendants_below (length pre) cs))
  = Elem t x (pre ++ (fill_child fallback <$> cs)).
Proof.
  intros Hcs. revert pre. induction Hcs as [|c cs Hc _ IH]; intros pre; [done|].
  change (descendants_below (length pre) (c :: cs))
    with (([length pre], c) :: (prod_map (cons (length pre)) id <$> descendants c)
          ++ descendants_below (S (length pre)) cs).
  rewrite filter_cons, filter_app, filter_tag_below. cbn [snd].
  assert (Hnext : ∀ c',
            foldl (λ root node, alter_at (fill_trnuid fallback) node.1 root)
              (Elem t x (pre ++ c' :: cs))
              (filter (λ d, tag d.2 = py "TRNUID")
                 (descendants_below (S (length pre)) cs))
            = Elem t x (pre ++ c' :: (fill_child fallback <$> cs))).
  { intros c'. specialize (IH (pre ++ [c'])).
    rewrite length_app, Nat.add_1_r, <- !app_assoc in IH. exact IH. }
  rewrite fmap_cons. unfold fill_child at 1.
  case_decide.
  - cbn [foldl fst alter_at]. rewrite foldl_app. unfold alter_child.
    cbn [tag text children].
    replace (alter (fill_trnuid fallback) (length pre) (pre ++ c :: cs))
      with (pre ++ fill_trnuid fallback c :: cs)
      by (rewrite <- (Nat.add_0_r (length pre)) at 1; by rewrite alter_app_r).
    rewrite foldl_under_child, foldl_fill_commute.
    + unfold findall_descendants in Hc. rewrite Hc. apply Hnext.
    + apply Forall_forall. intros d [_ Hd]%list_elem_of_filter. revert d Hd.
      apply Forall_forall. destruct c as [t' x' cs']. apply descendants_below_paths.
  - rewrite foldl_app, foldl_under_child.
    unfold findall_descendants in Hc. rewrite Hc. apply Hnext.
Qed.

(** [_ensure_trnuid] told from the root down. *)
Lemma ensure_trnuid_fill_below now root :
  _ensure_trnuid now root = fill_below (trnuid_fallback now root) root.
Proof.
  unfold _ensure_trnuid. cbv zeta. generalize (trnuid_fallback now root).
  intros fallback. induction root as [t x cs IH] using Element_induction.
  rewrite fill_below_unfold. apply (fill_children fallback t x cs []), IH.
Qed.

Lemma fill_node_at fallback p e (inner : bool) :
  match node_at p e,
        node_at p (if inner then fill_child fallback e else fill_below fallback e) with
  | Some n, Some n' =>
      tag n' = tag n ∧ length (children n') = length (children n)
      ∧ text n' = if decide ((inner = true ∨ p ≠ []) ∧ tag n = py "TRNUID"
                             ∧ strip (text_or_empty n) = [])
                  then Some fallback else text n
  | None, None => True
  | _, _ => False
  end.
Proof.
  revert e inner. induction p as [|i p IH]; intros [t x cs] inner.
  - cbn [node_at]. rewrite fill_below_unfold. unfold fill_child.
    rewrite fill_below_unfold. destruct inner.
    + cbn [tag]. case_decide as Ht.
      * unfold fill_trnuid, text_or_empty. cbn [tag text children].
        destruct (strip (default [] x)) eqn:Hx.
        -- cbn [set_text tag text children]. rewrite length_fmap.
           by rewrite decide_True by auto.
        -- cbn [tag text children]. rewrite length_fmap.
           rewrite decide_False; [done|]. by intros (_ & _ & ?).
      * cbn [tag text children]. rewrite length_fmap.
        rewrite decide_False; [done|]. by intros (_ & ? & _).
    + cbn [tag text children]. rewrite length_fmap.
      rewrite decide_False; [done|]. by intros ([?|?] & _).
  - assert (Hchildren : children (if inner then fill_child fallback (Elem t x cs)
                                  else fill_below fallback (Elem t x cs))
                        = fill_child fallback <$> cs).
    { unfold fill_child. rewrite fill_below_unfold. destruct inner; [|done].
      cbn [tag]. case_decide; [|done]. unfold fill_trnuid.
      by destruct (strip _). }
    cbn [node_at]. rewrite Hchildren, list_lookup_fmap. cbn [children].
    destruct (cs !! i) as [c|]; [|done]. cbn [fmap option_fmap option_map mbind option_bind].
    specialize (IH c true).
    destruct (node_at p c) as [n|], (node_at p (fill_child fallback c)) as [n'|];
      try done.
    destruct IH as (? & ? & Hx). split; [done|]. split; [done|].
    rewrite Hx. apply decide_ext.
    split; intros (_ & ? & ?); (split; [|done]); [by right|by left].
Qed.

Lemma ensure_trnuid_node_at now root p :
  match node_at p root, node_at p (_ensure_trnuid now root) with
  | Some n, Some n' =>
      tag n' = tag n ∧ length (children n') = length (children n)
      ∧ text n' = if decide (p ≠ [] ∧ tag n = py "TRNUID"
                             ∧ strip (text_or_empty n) = [])
                  then Some (trnuid_fallback now root) else text n
  | None, None => True
  | _, _ => False
  end.
Proof.
  rewrite ensure_trnuid_fill_below.
  pose proof (fill_node_at (trnuid_fallback now root) p root false) as H.
  cbv iota in H.
  destruct (node_at p root), (node_at p (fill_below _ root)); try done.
  destruct H as (? & ? & Hx). split; [done|]. split; [done|].
  rewrite Hx. apply decide_ext. split.
  - by intros ([?|?] & ? & ?).
  - intros (? & ? & ?). split; [by right|done].
Qed.

Lemma trnuid_fallback_not_blank now root :
  strip now ≠ [] → strip (trnuid_fallback now root) ≠ [].
Proof.
  intros Hnow. unfold trnuid_fallback.
  destruct (head _) as [x|] eqn:Hhead; [|done]. simpl.
  apply head_Some_elem_of, list_elem_of_omap in Hhead as (fit & _ & Hx).
  destruct (strip (text_or_empty fit.2)) as [|c s] eqn:Hs; [done|].
  injection Hx as <-. by rewrite <- Hs, strip_idemp, Hs.
Qed.

(** X13: [_ensure_trnuid] changes one thing only: each [TRNUID] element
    below the root whose text is missing or blank gets the fallback as its
    text -- the trimmed text of the first [FITID] that is not blank, or the
    time stamp when there is none.  Every element keeps its place, its tag
    and the number of its children, no element is added, and every other
    text is kept, also that of a root named [TRNUID]. *)
Theorem X13_ensure_trnuid_fills_blank_ids (now : list N) (root : Element)
    (p : list nat) :
  match node_at p root, node_at p (_ensure_trnuid now root) with
  | Some n, Some n' =>
      tag n' = tag n ∧ length (children n') = length (children n)
      ∧ text n' = if decide (p ≠ [] ∧ tag n = py "TRNUID"
                             ∧ strip (text_or_empty n) = [])
                  then Some (trnuid_fallback now root) else text n
  | None, None => True
  | _, _ => False
  end.
Proof. apply ensure_trnuid_node_at. Qed.

(** X14: after [_ensure_trnuid], with a time stamp that is not blank, no
    [TRNUID] element below the root has a blank text. *)
Theorem X14_no_blank_trnuid_left (now : list N) (root : Element)
    (p : list nat) (n' : Element) :
  strip now ≠ [] → p ≠ [] →
  node_at p (_ensure_trnuid now root) = Some n' → tag n' = py "TRNUID" →
  strip (text_or_empty n') ≠ [].
Proof.
  intros Hnow Hp Hn' Htag.
  pose proof (ensure_trnuid_node_at now root p) as H. rewrite Hn' in H.
  destruct (node_at p root) as [n|]; [|done].
  destruct H as (Ht & _ & Hx). unfold text_or_empty at 1. rewrite Hx.
  case_decide as Hblank; simpl.
  - by apply trnuid_fallback_not_blank.
  - intros Hs. apply Hblank. by rewrite <- Ht.
Qed.

Lemma X14_no_blank_trnuid_left_witness :
  strip (text_or_empty (Elem (py "TRNUID") (Some (py "F1")) [])) ≠ [].
Proof.
  apply (X14_no_blank_trnuid_left (py "20240101120000")
           (Elem (py "OFX") None
              [Elem (py "TRNUID") (Some (py " ")) [];
               Elem (py "FITID") (Some (py " F1 ")) []])
           [0%nat]); [done|done|vm_compute; reflexivity|done].
Defined.

(** ** The enrichment keeps what is there *)
Lemma extends_unfold t x cs e' :
  extends (Elem t x cs) e'
  = (tag e' = t ∧ (text e' = x ∨ t ∈ rewritten_tags)
     ∧ extends_below cs (children e')).
Proof. reflexivity. Qed.

Lemma extends_below_app cs pre new :
  Forall2 extends cs pre → extends_below cs (pre ++ new).
Proof. induction 1 as [|c c' cs pre Hc _ IH]; [done|]. by split. Qed.

Lemma extends_refl e : extends e e.
Proof.
  induction e as [t x cs IH] using Element_induction.
  rewrite extends_unfold. split; [done|]. split; [by left|].
  cbn [children]. rewrite <- (app_nil_r cs) at 2.
  by apply extends_below_app, Forall_Forall2_diag.
Qed.

Lemma extends_below_refl cs new : extends_below cs (cs ++ new).
Proof.
  apply extends_below_app, Forall_Forall2_diag, Forall_forall.
  intros c _. apply extends_refl.
Qed.

Lemma extends_trans a b c : extends a b → extends b c → extends a c.
Proof.
  revert b c. induction a as [t x cs IH] using Element_induction.
  intros [tb xb csb] [tc xc csc]. rewrite !extends_unfold. cbn [tag text children].
  intros (-> & Hx & Hcs) (-> & Hx' & Hcs'). split; [done|]. split.
  - destruct Hx as [->|?]; [|by right]. done.
  - clear Hx Hx'. revert csb csc Hcs Hcs'.
    induction IH as [|c0 cs Hc0 _ IHcs]; intros csb csc Hcs Hcs'; [done|].
    destruct csb as [|b0 csb]; [done|]. destruct csc as [|c0' csc]; [done|].
    destruct Hcs as [H1 H2], Hcs' as [H1' H2']. split; [by eapply Hc0|].
    by eapply IHcs.
Qed.

Lemma extends_alter_child f i e :
  (∀ c, children e !! i = Some c → extends c (f c)) →
  extends e (alter_child f i e).
Proof.
  destruct e as [t x cs]. intros Hf. unfold alter_child.
  rewrite extends_unfold. cbn [tag text children] in *.
  split; [done|]. split; [by left|].
  rewrite <- (app_nil_r (alter f i cs)). apply extends_below_app.
  apply Forall2_alter_r.
  - apply Forall_Forall2_diag, Forall_forall. intros c _. apply extends_refl.
  - intros c c' Hc Hc' _. rewrite Hc in Hc'. injection Hc' as <-. by apply Hf.
Qed.

Lemma extends_alter_at f p e :
  (∀ n, node_at p e = Some n → extends n (f n)) → extends e (alter_at f p e).
Proof.
  revert e. induction p as [|i p IH]; intros e Hf; [by apply Hf|].
  cbn [alter_at]. apply extends_alter_child. intros c Hc. apply IH.
  intros n Hn. apply Hf. cbn [node_at]. by rewrite Hc.
Qed.

Lemma extends_set_text x c : tag c ∈ rewritten_tags → extends c (set_text x c).
Proof.
  destruct c as [t x' cs]. intros Ht. unfold set_text. rewrite extends_unfold.
  cbn [tag text children] in *. split; [done|]. split; [by right|].
  rewrite <- (app_nil_r cs) at 2. apply extends_below_refl.
Qed.

Lemma extends_SubElement e t : extends e (SubElement e t).
Proof.
  destruct e as [t' x cs]. unfold SubElement. rewrite extends_unfold.
  cbn [tag text children]. split; [done|]. split; [by left|].
  apply extends_below_refl.
Qed.

Lemma extends_find_or_create t e : extends e (find_or_create t e).2.
Proof.
  unfold find_or_create. destruct (find t e) as [[i c]|]; simpl.
  - apply extends_refl.
  - apply extends_SubElement.
Qed.

Lemma find_or_create_child t e c :
  children (find_or_create t e).2 !! (find_or_create t e).1 = Some c → tag c = t.
Proof.
  destruct (find_or_create_spec t e) as (c' & Hfind & _).
  unfold find in Hfind. apply find_from_Some in Hfind as (_ & Hc' & Ht).
  rewrite Nat.sub_0_r in Hc'. rewrite Hc'. by intros [= <-].
Qed.

Lemma extends_ensure_child_text t x e :
  t ∈ rewritten_tags → extends e (ensure_child_text t x e).
Proof.
  intros Ht. unfold ensure_child_text.
  pose proof (extends_find_or_create t e) as He.
  pose proof (find_or_create_child t e) as Hc.
  destruct (find_or_create t e) as [i e1]. simpl in *.
  eapply extends_trans; [exact He|]. apply extends_alter_child.
  intros c Hi. apply extends_set_text. by rewrite (Hc c Hi).
Qed.

Lemma extends_default_child_text t x e : extends e (default_child_text t x e).
Proof.
  unfold default_child_text. destruct (find t e); [apply extends_refl|].
  destruct e as [t' x' cs]. unfold SubElement, alter_child.
  rewrite extends_unfold. cbn [tag text children].
  split; [done|]. split; [by left|].
  rewrite <- (Nat.add_0_r (length cs)), alter_app_r. apply extends_below_refl.
Qed.

Lemma extends_ensure_balance total dtend balance_tag stmtrs :
  extends stmtrs (ensure_balance total dtend balance_tag stmtrs).
Proof.
  unfold ensure_balance.
  pose proof (extends_find_or_create balance_tag stmtrs) as He.
  destruct (find_or_create balance_tag stmtrs) as [b e1]. simpl in *.
  eapply extends_trans; [exact He|]. apply extends_alter_child.
  intros c _. eapply extends_trans; apply extends_ensure_child_text;
    by apply (bool_decide_unpack _); vm_compute.
Qed.

Section Enrichment.
Context {ucd : UnicodeData}.

Lemma extends_ensure_balances today root :
  extends root (_ensure_balances today root).
Proof.
  unfold _ensure_balances.
  destruct (find_descendant (py "STMTRS") root) as [[path stmtrs]|];
    [|apply extends_refl].
  apply extends_alter_at. intros n _. cbn [foldl].
  eapply extends_trans; apply extends_ensure_balance.
Qed.
End Enrichment.

Lemma extends_ensure_fi_info root : extends root (_ensure_fi_info root).
Proof.
  unfold _ensure_fi_info.
  destruct (find_descendant (py "SONRS") root) as [[path sonrs]|];
    [|apply extends_refl].
  apply extends_alter_at. intros n _.
  pose proof (extends_find_or_create (py "FI") n) as He.
  destruct (find_or_create (py "FI") n) as [f e1]. simpl in He.
  eapply extends_trans; [exact He|].
  eapply extends_trans; [|apply extends_ensure_child_text;
                          by apply (bool_decide_unpack _); vm_compute].
  apply extends_alter_child. intros c _.
  eapply extends_trans; apply extends_default_child_text.
Qed.

Lemma tag_fill_below fallback e : tag (fill_below fallback e) = tag e.
Proof. by destruct e. Qed.

Lemma extends_fill_below fallback e : extends e (fill_below fallback e).
Proof.
  induction e as [t x cs IH] using Element_induction.
  rewrite fill_below_unfold, extends_unfold. cbn [tag text children].
  split; [done|]. split; [by left|].
  rewrite <- (app_nil_r (_ <$> cs)). apply extends_below_app.
  apply Forall2_fmap_r, Forall_Forall2_diag.
  eapply Forall_impl; [exact IH|]. intros c Hc. simpl. unfold fill_child.
  case_decide as Ht; [|done]. eapply extends_trans; [exact Hc|].
  unfold fill_trnuid. destruct (strip _); [|apply extends_refl].
  apply extends_set_text. rewrite tag_fill_below, Ht.
  by apply (bool_decide_unpack _); vm_compute.
Qed.

Lemma extends_ensure_trnuid now root : extends root (_ensure_trnuid now root).
Proof. rewrite ensure_trnuid_fill_below. apply extends_fill_below. Qed.

(** X15: the three enrichment steps of [sanitize_ofx] -- [_ensure_trnuid],
    [_ensure_balances], [_ensure_fi_info] -- lose nothing of the tree they
    are given, alone and one after the other: every element stays at its
    place under its parent with its tag, new elements come only after the
    existing children of their parent, and the only texts that may change
    are those of [TRNUID], [BALAMT], [DTASOF] and [INTU.BID] elements. *)
Theorem X15_enrichment_keeps_the_tree {ucd : UnicodeData}
    (now today : list N) (root : Element) :
  extends root (_ensure_trnuid now root)
  ∧ extends root (_ensure_balances today root)
  ∧ extends root (_ensure_fi_info root)
  ∧ extends root (_ensure_fi_info (_ensure_balances today (_ensure_trnuid now root))).
Proof.
  split; [apply extends_ensure_trnuid|].
  split; [apply extends_ensure_balances|].
  split; [apply extends_ensure_fi_info|].
  eapply extends_trans; [apply extends_ensure_trnuid|].
  eapply extends_trans; [apply extends_ensure_balances|].
  apply extends_ensure_fi_info.
Qed.

(** ** [_sanitize_ofx_value] and the serialisation *)
Section Serialisation.
Context {ucd : UnicodeData}.

Lemma sanitize_ofx_value_result t value :
  result (_sanitize_ofx_value t value)
  = match strip value with
    | [] => Ok []
    | (_ :: _) as raw =>
        if decide (upper t = py "TRNAMT") then result (_sanitize_amount raw)
        else if decide (upper t ∈ date_tags) then
          Ok match filter (λ c, is_digit c) raw with
             | [] => raw
             | (_ :: _) as digits => digits
             end
        else match tag_limit (upper t) with
             | Some ((S _) as limit) => Ok (take limit (_ascii raw))
             | _ => Ok (_ascii raw)
             end
    end.
Proof.
  unfold _sanitize_ofx_value. destruct (strip value) as [|c raw]; [done|].
  case_decide; [done|]. case_decide.
  - rewrite result_bind. case_decide; simpl; by destruct (filter _ (c :: raw)).
  - destruct (tag_limit (upper t)) as [[|limit]|]; [done| |done].
    apply result_trim.
Qed.

Lemma limited_tag t limit :
  (t, limit) ∈ _OFX_TAG_LIMITS →
  t ≠ py "TRNAMT" ∧ (t ∉ date_tags)
  ∧ ∃ k, limit = S k ∧ tag_limit t = Some limit.
Proof.
  unfold _OFX_TAG_LIMITS. intros Hin.
  repeat (apply elem_of_cons in Hin as [[= -> ->]|Hin];
          [split; [done|]; split;
           [by apply (bool_decide_unpack _); vm_compute|by eexists]|]).
  by apply elem_of_nil in Hin.
Qed.

Lemma sanitize_ofx_value_limited t value :
  upper t ≠ py "TRNAMT" →
  ∃ x, result (_sanitize_ofx_value t value) = Ok x
       ∧ ∀ limit, (upper t, limit) ∈ _OFX_TAG_LIMITS → (length x ≤ limit)%nat.
Proof.
  intros Hne. rewrite sanitize_ofx_value_result.
  destruct (strip value) as [|c raw].
  { eexists. split; [done|]. simpl. lia. }
  rewrite decide_False by done. case_decide as Hdate.
  - eexists. split; [done|]. by intros limit (_ & ? & _)%limited_tag.
  - destruct (tag_limit (upper t)) as [[|k]|] eqn:Hlimit.
    + eexists. split; [done|].
      intros limit (_ & _ & k & -> & Hk)%limited_tag. congruence.
    + eexists. split; [done|].
      intros limit (_ & _ & k' & -> & Hk)%limited_tag.
      rewrite Hlimit in Hk. injection Hk as <-. rewrite length_take. lia.
    + eexists. split; [done|].
      intros limit (_ & _ & k & -> & Hk)%limited_tag. congruence.
Qed.

Lemma tree_readable_unfold t x cs :
  tree_readable (Elem t x cs)
  ↔ value_readable (Elem t x cs) ∧ Forall tree_readable cs.
Proof.
  unfold tree_readable. split.
  - intros H. split; [by apply (H []) |].
    apply Forall_forall. intros c [i Hc]%list_elem_of_lookup_1 p n Hn.
    apply (H (i :: p)). cbn [node_at children]. by rewrite Hc.
  - intros [Hroot Hcs] [|i p] n; cbn [node_at children].
    + by intros [= <-].
    + destruct (cs !! i) as [c|] eqn:Hc; [|done]. simpl.
      by apply (Forall_lookup_1 _ _ _ _ Hcs Hc).
Qed.

Lemma walk_children_returns cs :
  Forall (λ c, ∀ lines, (∃ out, result (_walk c lines) = Ok out) ↔ tree_readable c) cs →
  ∀ lines, (∃ out, result (walk_children cs lines) = Ok out) ↔ Forall tree_readable cs.
Proof.
  induction 1 as [|c cs Hc _ IH]; intros lines.
  - split; [by constructor|]. by exists lines.
  - rewrite walk_children_cons, result_bind, Forall_cons. split.
    + destruct (result (_walk c lines)) as [lines'|] eqn:Hw; [|by intros [? ?]].
      intros Hcs. split; [apply (Hc lines); eauto|by apply (IH lines')].
    + intros [[lines' Hw]%(Hc lines) Hcs]. rewrite Hw. by apply IH.
Qed.

Lemma walk_returns e lines :
  (∃ out, result (_walk e lines) = Ok out) ↔ tree_readable e.
Proof.
  revert lines. induction e as [t x cs IH] using Element_induction.
  intros lines. rewrite tree_readable_unfold. unfold value_readable, text_or_empty.
  cbn [tag text]. destruct cs as [|c cs].
  - rewrite _walk_unfold, result_bind. split.
    + destruct (result (_sanitize_ofx_value _ _)) as [v|]; [|by intros [? ?]].
      intros _. split; [eauto|by constructor].
    + intros [[v ->] _]. destruct v; eauto.
  - rewrite result_walk_branch by done. cbv zeta. split.
    + destruct (result (_sanitize_ofx_value _ _)) as [v|]; [|by intros [? ?]].
      destruct (result (walk_children (c :: cs) _)) as [out|] eqn:Hw;
        [|by intros [? ?]].
      intros _. split; [eauto|]. eapply walk_children_returns; eauto.
    + intros [[v ->] Hcs].
      eapply (walk_children_returns _ IH) in Hcs as [out ->]. eauto.
Qed.

Lemma value_readable_amount n :
  value_readable n
  ↔ (upper (upper (tag n)) = py "TRNAMT" →
     ∃ x, result (_sanitize_amount (strip (text_or_empty n))) = Ok x).
Proof.
  unfold value_readable. rewrite sanitize_ofx_value_result.
  destruct (strip (text_or_empty n)) as [|c raw].
  { split; [|by eauto]. intros _ _. by exists (py "0.00"). }
  case_decide as Hamount; [tauto|]. split; [done|]. intros _.
  case_decide; [eauto|]. destruct (tag_limit _) as [[|k]|]; eauto.
Qed.

Lemma walk_children_appends cs :
  Forall (λ c, ∀ lines out, result (_walk c lines) = Ok out →
            ∃ new, out = lines ++ new ∧ Forall (λ l, l ≠ []) new
                   ∧ ∀ lines', result (_walk c lines') = Ok (lines' ++ new)) cs →
  ∀ lines out, result (walk_children cs lines) = Ok out →
    ∃ new, out = lines ++ new ∧ Forall (λ l, l ≠ []) new
           ∧ ∀ lines', result (walk_children cs lines') = Ok (lines' ++ new).
Proof.
  induction 1 as [|c cs Hc _ IH]; intros lines out.
  - intros [= <-]. exists []. rewrite app_nil_r. split; [done|]. split; [done|].
    intros lines'. by rewrite app_nil_r.
  - rewrite walk_children_cons.
    intros (mid & (new1 & -> & Hne1 & Hany1)%Hc & (new2 & -> & Hne2 & Hany2)%IH)%bind_Ok.
    exists (new1 ++ new2). split; [by rewrite app_assoc|].
    split; [by apply Forall_app|]. intros lines'.
    by rewrite walk_children_cons, result_bind, Hany1, Hany2, app_assoc.
Qed.

Lemma walk_appends e lines out :
  result (_walk e lines) = Ok out →
  ∃ new, out = lines ++ new ∧ Forall (λ l, l ≠ []) new
         ∧ ∀ lines', result (_walk e lines') = Ok (lines' ++ new).
Proof.
  revert lines out. induction e as [t x cs IH] using Element_induction.
  intros lines out. destruct cs as [|c cs].
  - rewrite _walk_unfold. intros (v & Hv & Hout)%bind_Ok.
    destruct v as [|a v]; injection Hout as <-.
    + exists []. rewrite app_nil_r. split; [done|]. split; [done|]. intros lines'.
      by rewrite _walk_unfold, result_bind, Hv, app_nil_r.
    + eexists [_]. split; [done|]. split; [by repeat constructor|]. intros lines'.
      by rewrite _walk_unfold, result_bind, Hv.
  - rewrite result_walk_branch by done. cbv zeta.
    destruct (result (_sanitize_ofx_value _ _)) as [v|] eqn:Hv; [|done].
    destruct (result (walk_children (c :: cs) _)) as [mid|] eqn:Hw; [|done].
    intros [= <-].
    apply (walk_children_appends _ IH) in Hw as (new & -> & Hne & Hany).
    exists (([py "<" ++ upper t ++ py ">"] ++ match v with [] => [] | _ :: _ => [v] end)
            ++ new ++ [py "</" ++ upper t ++ py ">"]).
    split; [destruct v; by rewrite <- ?app_assoc|].
    split.
    { rewrite !Forall_app. repeat split; [by repeat constructor| |done|by repeat constructor].
      destruct v; by repeat constructor. }
    intros lines'. rewrite result_walk_branch, Hv by done. cbv zeta.
    replace (match v with
             | [] => lines' ++ [py "<" ++ upper t ++ py ">"]
             | _ :: _ => (lines' ++ [py "<" ++ upper t ++ py ">"]) ++ [v]
             end)
      with (lines' ++ [py "<" ++ upper t ++ py ">"]
            ++ match v with [] => [] | _ :: _ => [v] end)
      by (destruct v; by rewrite ?app_nil_r, <- ?app_assoc).
    rewrite Hany. by rewrite <- !app_assoc.
Qed.
End Serialisation.

(** X16: whatever the value, [_sanitize_ofx_value] returns for every tag
    but [TRNAMT], and for a tag of the table of limits ([NAME], [MEMO],
    [FITID], [TRNUID], [ORG], [FID]) what it returns is no longer than
    the limit of the tag. *)
Theorem X16_ofx_value_within_limit {ucd : UnicodeData} (t value : list N) :
  upper t ≠ py "TRNAMT" →
  ∃ x, result (_sanitize_ofx_value t value) = Ok x
       ∧ ∀ limit, (upper t, limit) ∈ _OFX_TAG_LIMITS → (length x ≤ limit)%nat.
Proof. apply sanitize_ofx_value_limited. Qed.

Lemma X16_ofx_value_within_limit_witness :
  ∃ x, result (@_sanitize_ofx_value Excerpt.latin1 (py "Name")
                 (py "The Quick Brown Fox Jumps Over The Lazy Dog")) = Ok x
       ∧ ∀ limit, (@upper Excerpt.latin1 (py "Name"), limit) ∈ _OFX_TAG_LIMITS →
           (length x ≤ limit)%nat.
Proof.
  apply (@X16_ofx_value_within_limit Excerpt.latin1 (py "Name")).
  vm_compute. intros [=].
Defined.

(** X17: the serialisation returns exactly when the amount of every
    [TRNAMT] element of the tree can be normalised; no other element, text
    or tag can make it fail. *)
Theorem X17_sgml_returns_exactly {ucd : UnicodeData} (elem : Element) :
  (∃ out, result (_ofx_element_to_sgml elem) = Ok out)
  ↔ (∀ p n, node_at p elem = Some n →
       upper (upper (tag n)) = py "TRNAMT" →
       ∃ x, result (_sanitize_amount (strip (text_or_empty n))) = Ok x).
Proof.
  unfold _ofx_element_to_sgml. rewrite walk_returns. unfold tree_readable.
  split; intros H p n Hn; apply value_readable_amount; by eapply H.
Qed.

(** X18: the serialisation writes no empty line, and what [_walk] appends
    for an element does not depend on the lines written before it. *)
Theorem X18_sgml_lines_not_empty {ucd : UnicodeData} (elem : Element)
    (out : list (list N)) :
  result (_ofx_element_to_sgml elem) = Ok out →
  Forall (λ l, l ≠ []) out
  ∧ ∀ lines, result (_walk elem lines) = Ok (lines ++ out).
Proof.
  unfold _ofx_element_to_sgml.
  intros (new & -> & Hne & Hany)%walk_appends. by rewrite app_nil_l.
Qed.

Lemma X18_sgml_lines_not_empty_witness :
  Forall (λ l, l ≠ []) [py "<STMTTRN>"; py "<NAME>Shop"; py "</STMTTRN>"]
  ∧ ∀ lines,
      result (@_walk Excerpt.latin1
                (Elem (py "stmttrn") (Some (py " "))
                   [Elem (py "Name") (Some (py " Shop ")) [];
                    Elem (py "MEMO") None []]) lines)
      = Ok (lines ++ [py "<STMTTRN>"; py "<NAME>Shop"; py "</STMTTRN>"]).
Proof.
  apply (@X18_sgml_lines_not_empty Excerpt.latin1). vm_compute. reflexivity.
Defined.

(** ** [_sanitize_date], whatever it is given *)
Lemma first_parse_cases {ucd : UnicodeData} raw patterns :
  match first_parse raw patterns with
  | Some r =>
      ∃ parsed, r = Ok (strftime parsed) ∧ valid_date parsed = true
                ∧ Exists (λ pattern, strptime (strip raw) pattern = Ok parsed) patterns
  | None =>
      Forall (λ pattern, strptime (strip raw) pattern = Raise ValueError) patterns
  end.
Proof.
  induction patterns as [|p ps IH]; simpl; [by constructor|].
  destruct (strptime (strip raw) p) as [parsed|e] eqn:Hp.
  - exists parsed. split; [done|]. split; [|by left].
    unfold strptime in Hp. repeat (case_match; try congruence).
  - apply strptime_raises_ValueError in Hp as Hv. subst e.
    destruct (first_parse raw ps) as [r|].
    + destruct IH as (parsed & -> & Hv & Hex). exists parsed.
      split; [done|]. split; [done|]. by right.
    + by constructor.
Qed.

(** X19: [_sanitize_date] never raises and has two outcomes.  Either one of
    the five patterns reads the trimmed text as a date of the calendar:
    then the result is that date in the legacy form [MM/DD'YY] and nothing
    is logged.  Or all five patterns fail: then the result is the trimmed
    text and one diagnostic is logged, with the text as it was given. *)
Theorem X19_date_two_outcomes {ucd : UnicodeData} (raw : list N) :
  (∃ parsed,
      valid_date parsed = true
      ∧ Exists (λ pattern, strptime (strip raw) pattern = Ok parsed) candidates
      ∧ _sanitize_date raw = Run [] (Ok (strftime parsed)))
  ∨ (Forall (λ pattern, strptime (strip raw) pattern = Raise ValueError) candidates
     ∧ _sanitize_date raw = Run [Unrecognized_date raw] (Ok (strip raw))).
Proof.
  pose proof (first_parse_cases raw candidates) as H. unfold _sanitize_date.
  destruct (first_parse raw candidates) as [r|].
  - left. destruct H as (parsed & -> & Hv & Hex). by exists parsed.
  - by right.
Qed.

Lemma short_date_ok_all {ucd : UnicodeData} :
  forallb (λ m, forallb (λ d, forallb (short_date_ok m d) (seq 0 100))
                  (seq 1 31)) (seq 1 12) = true.
Proof. vm_compute. reflexivity. Qed.

(** X20: a date written [MM/DD/YY], with two digits each, is read with the
    second pattern, [%m/%d/%y] -- years 00 to 68 in the 2000s, 69 to 99 in
    the 1900s.  When the day exists in that month and year, the result is
    the same month, day and year in the legacy form [MM/DD'YY] and nothing
    is logged; when it does not (30 February, 29 February of a year that is
    not a leap year, 31 April), the text is returned as it is, with a
    diagnostic. *)
Theorem X20_short_date_conversion {ucd : UnicodeData} (m d yy : N) :
  1 ≤ m ≤ 12 → 1 ≤ d ≤ 31 → yy < 100 →
  _sanitize_date (short_date m d yy)
  = if valid_date (Date (century yy) m d)
    then Run [] (Ok (legacy_date m d yy))
    else Run [Unrecognized_date (short_date m d yy)] (Ok (short_date m d yy)).
Proof.
  intros Hm Hd Hy.
  assert (Im : In (N.to_nat m) (seq 1 12)) by (apply in_seq; lia).
  assert (Id : In (N.to_nat d) (seq 1 31)) by (apply in_seq; lia).
  assert (Iy : In (N.to_nat yy) (seq 0 100)) by (apply in_seq; lia).
  pose proof short_date_ok_all as Hall.
  rewrite forallb_forall in Hall. specialize (Hall _ Im).
  rewrite forallb_forall in Hall. specialize (Hall _ Id).
  rewrite forallb_forall in Hall. specialize (Hall _ Iy).
  unfold short_date_ok in Hall. rewrite !N2Nat.id in Hall. cbv zeta in Hall.
  destruct (_sanitize_date (short_date m d yy)) as [lg [x|e]];
    cbn [result log] in Hall; [|done].
  destruct lg as [|[raw| | | | | | | |] [|]]; try done.
  - apply andb_prop in Hall as [-> ->%bool_decide_eq_true]. done.
  - apply andb_prop in Hall as [[Hv ->%bool_decide_eq_true]%andb_prop
                                  ->%bool_decide_eq_true].
    apply negb_true_iff in Hv. by rewrite Hv.
Qed.

Lemma X20_short_date_conversion_witness :
  @_sanitize_date Excerpt.latin1 (short_date 2 29 24)
  = if valid_date (Date (century 24) 2 29)
    then Run [] (Ok (legacy_date 2 29 24))
    else Run [Unrecognized_date (short_date 2 29 24)] (Ok (short_date 2 29 24)).
Proof. apply (@X20_short_date_conversion Excerpt.latin1 2 29 24); lia. Defined.
